(** * ESharp front end: lexer, parser and diagnostics

    A shallow embedding of the C++ sources
    [source/parser/lexer.cpp], [source/parser/parser.cpp],
    [source/include/{lexer,parser,ast,error}.hpp] and the diagnostics
    formatter ([LexerError::formatMessage]).

    Conventions of the embedding.
    - [std::string] is [string]; [char] is [ascii]; the character
      classifiers of <cctype> are those of the "C" locale.
    - [size_t] positions are [nat]; [int] lines and columns are [Z]
      (signed overflow is undefined in C++, so no wrap-around is written).
    - A member function that reads or writes object state is a function
      from the state to an [outcome]: a returned value with the new state,
      a thrown exception with the state at the throw, or [OutOfFuel] when
      the recursion budget of the model is used up. *)

From Stdlib Require Import String Ascii List ZArith Lia Bool Arith DecimalString.
Import ListNotations.

Open Scope string_scope.
Open Scope nat_scope.

(** ** Tokens ([lexer.hpp]) *)

Inductive TokenType : Type :=
| Fn | Let | Return | If | Else | Print
| Identifier | Integer | Float | String_ | Char | Bool
| IntType | FloatType | StringType | CharType | BoolType | VoidType
| Colon | Arrow | Eq | EqEq | Neq | Leq | Geq
| Plus | Minus | Star | Slash | Bang
| PlusAssign | MinusAssign | StarAssign | SlashAssign
| Less | Greater
| LParen | RParen | LBrace | RBrace | Semi | Comma
| Eof.

Definition TokenType_eq_dec (a b : TokenType) : {a = b} + {a <> b}.
Proof. decide equality. Defined.

Definition TokenType_eqb (a b : TokenType) : bool :=
  if TokenType_eq_dec a b then true else false.

Record Token : Type := mkToken {
  type : TokenType;
  lexeme : string;
  tline : Z;
  tcol : Z
}.

(** ** Exceptions ([error.hpp], <stdexcept>) *)

Record LexerError : Type := mkLexerError {
  message : string;
  eline : Z;
  ecol : Z;
  sourceLine : string
}.

Inductive exn : Type :=
| LexerErr (e : LexerError)          (* class LexerError : std::exception *)
| RuntimeError (what : string)       (* std::runtime_error *)
| InvalidArgument (what : string)    (* std::invalid_argument, from std::stoll / std::stof *)
| OutOfRange (what : string).        (* std::out_of_range, from std::stoll / std::stof *)

(** ** Outcomes and the state-and-exception monad *)

Inductive outcome (St A : Type) : Type :=
| Ok (a : A) (s : St)
| Throw (e : exn) (s : St)
| OutOfFuel.

Arguments Ok {St A} a s.
Arguments Throw {St A} e s.
Arguments OutOfFuel {St A}.

Definition M (St A : Type) : Type := St -> outcome St A.

Definition ret {St A} (a : A) : M St A := fun s => Ok a s.

Definition bind {St A B} (m : M St A) (k : A -> M St B) : M St B :=
  fun s => match m s with
           | Ok a s' => k a s'
           | Throw e s' => Throw e s'
           | OutOfFuel => OutOfFuel
           end.

Definition gets {St A} (f : St -> A) : M St A := fun s => Ok (f s) s.
Definition modify {St} (f : St -> St) : M St unit := fun s => Ok tt (f s).
Definition throw {St A} (e : exn) : M St A := fun s => Throw e s.
Definition out_of_fuel {St A} : M St A := fun _ => OutOfFuel.

Declare Scope monad_scope.
Delimit Scope monad_scope with monad.
Notation "x <- m ;; k" := (bind m (fun x => k))
  (at level 61, m at next level, right associativity) : monad_scope.
Notation "m ;; k" := (bind m (fun _ => k))
  (at level 61, right associativity) : monad_scope.
Open Scope monad_scope.

(** ** Characters (<cctype>, "C" locale) *)

Definition NUL : ascii := "000"%char.
Definition TAB : ascii := "009"%char.
Definition NL : ascii := "010"%char.
Definition DQUOTE : ascii := "034"%char.

Definition code (c : ascii) : N := N_of_ascii c.
Definition between (lo hi : N) (c : ascii) : bool :=
  (N.leb lo (code c) && N.leb (code c) hi)%bool.

Definition isspace (c : ascii) : bool := (between 9 13 c || Ascii.eqb c " ")%bool.
Definition isdigit (c : ascii) : bool := between 48 57 c.
Definition isalpha (c : ascii) : bool := (between 65 90 c || between 97 122 c)%bool.
Definition isalnum (c : ascii) : bool := (isalpha c || isdigit c)%bool.

(** [s[i]], with the terminating NUL that [std::string] shows at [size()]. *)
Definition at_ (s : string) (i : nat) : ascii :=
  match String.get i s with Some c => c | None => NUL end.

Definition push_back (s : string) (c : ascii) : string := s ++ String c "".

(** ** The lexer ([lexer.cpp]) *)

Module Lexer.

Record t : Type := mk {
  source : string;
  pos : nat;
  line : Z;
  col : Z
}.

(** [Lexer::Lexer(src)] *)
Definition new (src : string) : t := mk src 0 1 1.

(** The member [length], set once to [src.size()]. *)
Definition length (l : t) : nat := String.length (source l).

(** Characters left to read; it bounds every loop of the lexer. *)
Definition remaining (l : t) : nat := length l - pos l.

Definition with_remaining {A} (loop : nat -> M t A) : M t A :=
  fun l => loop (S (remaining l)) l.

Definition peek (offset : nat) (l : t) : ascii :=
  if length l <=? pos l + offset then NUL else at_ (source l) (pos l + offset).

Definition advance : M t ascii := fun l =>
  if length l <=? pos l then Ok NUL l
  else
    let c := at_ (source l) (pos l) in
    if Ascii.eqb c NL then Ok c (mk (source l) (S (pos l)) (line l + 1) 1)
    else if Ascii.eqb c TAB then
      let tabSize := 4%Z in
      Ok c (mk (source l) (S (pos l)) (line l)
               (col l + (tabSize - Z.rem (col l - 1) tabSize)))
    else Ok c (mk (source l) (S (pos l)) (line l) (col l + 1)).

Definition match_ (expected : ascii) : M t bool :=
  c <- gets (peek 0) ;;
  if Ascii.eqb c expected then advance ;; ret true else ret false.

(** [pos--] *)
Definition unread : M t unit :=
  modify (fun l => mk (source l) (Nat.pred (pos l)) (line l) (col l)).

(** *** Error construction *)

Fixpoint lineStartLoop (src : string) (lineStart : nat) : nat :=
  match lineStart with
  | O => O
  | S k => if negb (Ascii.eqb (at_ src k) NL) then lineStartLoop src k else lineStart
  end.

Fixpoint lineEndLoop (fuel : nat) (src : string) (lineEnd : nat) : nat :=
  match fuel with
  | O => lineEnd
  | S f =>
      if ((lineEnd <? String.length src) && negb (Ascii.eqb (at_ src lineEnd) NL))%bool
      then lineEndLoop f src (S lineEnd) else lineEnd
  end.

Definition getCurrentLine (l : t) : string :=
  if pos l =? 0 then ""
  else
    let lineStart := lineStartLoop (source l) (pos l - 1) in
    let lineEnd := lineEndLoop (length l - lineStart) (source l) lineStart in
    String.substring lineStart (lineEnd - lineStart) (source l).

Definition error (msg : string) (l : t) : LexerError :=
  let lineText := getCurrentLine l in
  let errorCol := if (1 <? col l)%Z then (col l - 1)%Z else 1%Z in
  mkLexerError msg (line l) errorCol lineText.

Definition throw_error {A} (msg : string) : M t A :=
  fun l => Throw (LexerErr (error msg l)) l.

(** *** Whitespace and comments *)

(** [while (peek() != '\n' && peek() != '\0') advance();] *)
Fixpoint lineCommentLoop (fuel : nat) : M t unit :=
  match fuel with
  | O => out_of_fuel
  | S f =>
      c <- gets (peek 0) ;;
      if (negb (Ascii.eqb c NL) && negb (Ascii.eqb c NUL))%bool
      then advance ;; lineCommentLoop f
      else ret tt
  end.

(** [while (!(peek() == '*' && peek(1) == '/')) { ... }] *)
Fixpoint blockCommentLoop (fuel : nat) : M t unit :=
  match fuel with
  | O => out_of_fuel
  | S f =>
      c <- gets (peek 0) ;;
      c1 <- gets (peek 1) ;;
      if negb (Ascii.eqb c "*" && Ascii.eqb c1 "/")%bool
      then
        if Ascii.eqb c NUL then throw_error "Unterminated block comment"
        else advance ;; blockCommentLoop f
      else ret tt
  end.

Fixpoint skipLoop (fuel : nat) : M t unit :=
  match fuel with
  | O => out_of_fuel
  | S f =>
      c <- gets (peek 0) ;;
      c1 <- gets (peek 1) ;;
      if isspace c then advance ;; skipLoop f
      else if (Ascii.eqb c "/" && Ascii.eqb c1 "/")%bool then
        with_remaining lineCommentLoop ;; skipLoop f
      else if (Ascii.eqb c "/" && Ascii.eqb c1 "*")%bool then
        advance ;; advance ;;
        with_remaining blockCommentLoop ;;
        advance ;; advance ;;
        skipLoop f
      else ret tt
  end.

Definition skipWhitespaceAndComments : M t unit := with_remaining skipLoop.

(** *** Identifiers and keywords *)

(** The [static const std::unordered_map] of [identifierOrKeyword]. *)
Definition keywords : list (string * TokenType) :=
  [("fn", Fn); ("let", Let); ("if", If); ("else", Else); ("return", Return)].

Fixpoint find (text : string) (table : list (string * TokenType)) : option TokenType :=
  match table with
  | [] => None
  | (k, v) :: rest => if String.eqb k text then Some v else find text rest
  end.

(** [while (std::isalnum(peek()) || peek() == '_') advance();] *)
Fixpoint identLoop (fuel : nat) : M t unit :=
  match fuel with
  | O => out_of_fuel
  | S f =>
      c <- gets (peek 0) ;;
      if (isalnum c || Ascii.eqb c "_")%bool then advance ;; identLoop f else ret tt
  end.

Definition identifierOrKeyword : M t Token :=
  startPos <- gets pos ;;
  startCol <- gets col ;;
  startLine <- gets line ;;
  with_remaining identLoop ;;
  l <- gets (fun l => l) ;;
  let text := String.substring startPos (pos l - startPos) (source l) in
  match find text keywords with
  | Some ty => ret (mkToken ty text startLine startCol)
  | None => ret (mkToken Identifier text startLine startCol)
  end.

(** *** Numbers *)

(** [while (std::isdigit(peek())) advance();] *)
Fixpoint digitLoop (fuel : nat) : M t unit :=
  match fuel with
  | O => out_of_fuel
  | S f =>
      c <- gets (peek 0) ;;
      if isdigit c then advance ;; digitLoop f else ret tt
  end.

Definition number : M t Token :=
  startPos <- gets pos ;;
  startCol <- gets col ;;
  startLine <- gets line ;;
  with_remaining digitLoop ;;
  c <- gets (peek 0) ;;
  c1 <- gets (peek 1) ;;
  isFloat <- (if (Ascii.eqb c "." && isdigit c1)%bool
              then advance ;; with_remaining digitLoop ;; ret true
              else ret false) ;;
  l <- gets (fun l => l) ;;
  let num := String.substring startPos (pos l - startPos) (source l) in
  ret (mkToken (if isFloat then Float else Integer) num startLine startCol).

(** *** String literals *)

Fixpoint stringLoop (fuel : nat) (value : string) : M t string :=
  match fuel with
  | O => out_of_fuel
  | S f =>
      c <- advance ;;
      if Ascii.eqb c NUL then throw_error "Unterminated string"
      else if Ascii.eqb c DQUOTE then ret value
      else if Ascii.eqb c "\" then
        e <- advance ;;
        if Ascii.eqb e "n" then stringLoop f (push_back value NL)
        else if Ascii.eqb e "t" then stringLoop f (push_back value TAB)
        else if Ascii.eqb e "\" then stringLoop f (push_back value "\")
        else if Ascii.eqb e DQUOTE then stringLoop f (push_back value DQUOTE)
        else throw_error "Invalid escape sequence"
      else stringLoop f (push_back value c)
  end.

Definition string_ : M t Token :=
  startCol <- gets col ;;
  startLine <- gets line ;;
  advance ;;
  value <- with_remaining (fun fuel => stringLoop fuel "") ;;
  ret (mkToken String_ value startLine startCol).

(** *** [nextToken] and [peekToken] *)

Definition nextToken : M t Token :=
  skipWhitespaceAndComments ;;
  l <- gets (fun l => l) ;;
  if length l <=? pos l then ret (mkToken Eof "" (line l) (col l))
  else
    c <- advance ;;
    startLine <- gets line ;;
    startCol <- gets (fun l => (col l - 1)%Z) ;;
    let tok ty text := ret (mkToken ty text startLine startCol) in
    if Ascii.eqb c "(" then tok LParen "("
    else if Ascii.eqb c ")" then tok RParen ")"
    else if Ascii.eqb c "{" then tok LBrace "{"
    else if Ascii.eqb c "}" then tok RBrace "}"
    else if Ascii.eqb c "," then tok Comma ","
    else if Ascii.eqb c ":" then tok Colon ":"
    else if Ascii.eqb c ";" then tok Semi ";"
    else if Ascii.eqb c "+" then
      m <- match_ "=" ;; if m then tok PlusAssign "+=" else tok Plus "+"
    else if Ascii.eqb c "-" then
      m <- match_ ">" ;;
      if m then tok Arrow "->"
      else m' <- match_ "=" ;; if m' then tok MinusAssign "-=" else tok Minus "-"
    else if Ascii.eqb c "*" then
      m <- match_ "=" ;; if m then tok StarAssign "*=" else tok Star "*"
    else if Ascii.eqb c "/" then
      m <- match_ "=" ;; if m then tok SlashAssign "/=" else tok Slash "/"
    else if Ascii.eqb c "=" then
      m <- match_ "=" ;; if m then tok EqEq "==" else tok Eq "="
    else if Ascii.eqb c "!" then
      m <- match_ "=" ;; if m then tok Neq "!=" else tok Bang "!"
    else if Ascii.eqb c "<" then
      m <- match_ "=" ;; if m then tok Leq "<=" else tok Less "<"
    else if Ascii.eqb c ">" then
      m <- match_ "=" ;; if m then tok Geq ">=" else tok Greater ">"
    else if Ascii.eqb c DQUOTE then string_
    else if (isalpha c || Ascii.eqb c "_")%bool then unread ;; identifierOrKeyword
    else if isdigit c then unread ;; number
    else throw_error ("Unexpected character: " ++ String c "").

(** The snapshot is restored only when [nextToken] returns: an exception
    leaves [peekToken] before the assignments [pos = savedPos; ...]. *)
Definition peekToken : M t Token := fun l =>
  let savedPos := pos l in
  let savedLine := line l in
  let savedCol := col l in
  match nextToken l with
  | Ok tok l' => Ok tok (mk (source l') savedPos savedLine savedCol)
  | Throw e l' => Throw e l'
  | OutOfFuel => OutOfFuel
  end.

End Lexer.

(** ** The syntax tree ([ast.hpp]) *)

Module VarType.
Inductive t : Type := Int | Float | String | Char | Bool | Void.
End VarType.

Definition toString (ty : VarType.t) : string :=
  match ty with
  | VarType.Int => "Int"
  | VarType.Float => "Float"
  | VarType.String => "String"
  | VarType.Char => "Char"
  | VarType.Bool => "Bool"
  | VarType.Void => "Void"
  end.

Set Warnings "-register-all,-non-full-mutual".

Section AST.

(** The values of C++ [float]/[double]; floating point is not interpreted. *)
Variable F : Type.

(** One type for the class hierarchy under [ASTNode]: every child field of
    the C++ nodes is an [ASTPtr], whatever node it points to. *)
Inductive ASTNode : Type :=
| IntExpr (value : Z)
| DoubleExpr (value : F)
| StringExpr (value : string)
| CharExpr (value : ascii)
| BoolExpr (value : bool)
| VoidExpr
| VarExpr (name : string)
| BinaryExpr (op : string) (left right : ASTNode)
| CallExpr (callee : string) (args : list ASTNode)
| ReturnStmt (value : ASTNode)
| IfStmt (cond : ASTNode) (thenBranch elseBranch : list ASTNode)
| LetDecl (name : string) (type : VarType.t) (init : option ASTNode)
| BlockStmt (statements : list ASTNode).

(** [struct Function]; [body] holds the statements of the owned [BlockStmt]. *)
Record Function : Type := mkFunction {
  fname : string;
  returnType : VarType.t;
  params : list (string * VarType.t);
  body : list ASTNode
}.

Record Program : Type := mkProgram {
  functions : list Function
}.

End AST.

Arguments IntExpr {F} value.
Arguments DoubleExpr {F} value.
Arguments StringExpr {F} value.
Arguments CharExpr {F} value.
Arguments BoolExpr {F} value.
Arguments VoidExpr {F}.
Arguments VarExpr {F} name.
Arguments BinaryExpr {F} op left right.
Arguments CallExpr {F} callee args.
Arguments ReturnStmt {F} value.
Arguments IfStmt {F} cond thenBranch elseBranch.
Arguments LetDecl {F} name type init.
Arguments BlockStmt {F} statements.
Arguments mkFunction {F} fname returnType params body.
Arguments fname {F} f.
Arguments returnType {F} f.
Arguments params {F} f.
Arguments body {F} f.
Arguments mkProgram {F} functions.
Arguments functions {F} p.

(** ** [std::stoll] (base 10, no end pointer) *)

Definition LLONG_MAX : Z := 9223372036854775807.
Definition LLONG_MIN : Z := -9223372036854775808.

Fixpoint skipSpaces (s : string) : string :=
  match s with
  | String c r => if isspace c then skipSpaces r else s
  | EmptyString => s
  end.

Definition digitValue (c : ascii) : Z := Z.of_N (code c) - 48.

(** The value of the longest prefix of digits, [None] when there is none. *)
Fixpoint readDigits (s : string) (acc : option Z) : option Z :=
  match s with
  | String c r =>
      if isdigit c
      then readDigits r (Some (10 * match acc with Some a => a | None => 0 end
                               + digitValue c)%Z)
      else acc
  | EmptyString => acc
  end.

Definition stoll (str : string) : exn + Z :=
  let s := skipSpaces str in
  let '(neg, s) := match s with
                   | String "-" r => (true, r)
                   | String "+" r => (false, r)
                   | _ => (false, s)
                   end in
  match readDigits s None with
  | None => inl (InvalidArgument "stoll")
  | Some v =>
      let v := if neg then (- v)%Z else v in
      if ((LLONG_MIN <=? v) && (v <=? LLONG_MAX))%Z%bool then inr v
      else inl (OutOfRange "stoll")
  end.

Definition lift {St A} (r : exn + A) : M St A :=
  match r with inl e => throw e | inr a => ret a end.

(** ** The parser ([parser.cpp], [parser.hpp]) *)

Definition stringToVarType (s : string) : exn + VarType.t :=
  if String.eqb s "Int" then inr VarType.Int
  else if String.eqb s "Float" then inr VarType.Float
  else if String.eqb s "String" then inr VarType.String
  else if String.eqb s "Char" then inr VarType.Char
  else if String.eqb s "Bool" then inr VarType.Bool
  else if String.eqb s "Void" then inr VarType.Void
  else inl (RuntimeError ("Unknown type: " ++ s)).

Module Parser.

(** [Lexer &lexer] is the caller's lexer: its state is part of the
    parser's. *)
Record t : Type := mk {
  lexer : Lexer.t;
  current : Token
}.

Definition isTypeToken (ty : TokenType) : bool :=
  match ty with
  | IntType | FloatType | CharType | BoolType | StringType | VoidType => true
  | _ => false
  end.

Definition advance : M t unit := fun p =>
  match Lexer.nextToken (lexer p) with
  | Ok tok l => Ok tt (mk l tok)
  | Throw e l => Throw e (mk l (current p))
  | OutOfFuel => OutOfFuel
  end.

Definition check (ty : TokenType) (p : t) : bool :=
  TokenType_eqb (type (current p)) ty.

Definition match_ (ty : TokenType) : M t bool :=
  c <- gets (check ty) ;;
  if c then advance ;; ret true else ret false.

Definition expect (ty : TokenType) (msg : string) : M t unit :=
  m <- match_ ty ;;
  if m then ret tt else throw (RuntimeError ("Expected " ++ msg)).

(** [a || b] on two calls: the second runs only when the first is false. *)
Definition orelse (a b : M t bool) : M t bool :=
  x <- a ;; if x then ret true else b.

(** [Parser(Lexer &lex) : lexer(lex) { advance(); }]; the token that
    [current] holds before the first [advance] is never read. *)
Definition new (lex : Lexer.t) : outcome t unit :=
  advance (mk lex (mkToken Eof "" 0 0)).

Section Grammar.

Variable F : Type.
(** [std::stof], with the exception it throws on a text it rejects. *)
Variable stof : string -> exn + F.

Local Abbreviation AST := (ASTNode F).

(** The mutually recursive parsing functions, with the loops of their
    bodies as functions of their own. Each takes a recursion budget and
    hands the budget less one to what it calls. *)

Fixpoint parseBlock (fuel : nat) : M t (list AST) :=
  match fuel with
  | O => out_of_fuel
  | S f =>
      expect LBrace "`{`" ;;
      stmts <- parseBlockLoop f [] ;;
      expect RBrace "`}`" ;;
      ret stmts
  end

with parseBlockLoop (fuel : nat) (stmts : list AST) : M t (list AST) :=
  match fuel with
  | O => out_of_fuel
  | S f =>
      rb <- gets (check RBrace) ;;
      eof <- gets (check Eof) ;;
      if (negb rb && negb eof)%bool
      then stmt <- parseStatement f ;; parseBlockLoop f (stmts ++ [stmt])%list
      else ret stmts
  end

with parseStatement (fuel : nat) : M t AST :=
  match fuel with
  | O => out_of_fuel
  | S f =>
      stmt <- (isLet <- match_ Let ;;
               if isLet then parseLetDecl f
               else
                 isIf <- match_ If ;;
                 if isIf then parseIfStmt f
                 else
                   isReturn <- match_ Return ;;
                   if isReturn then parseReturnStmt f
                   else parseExpression f) ;;
      rb <- gets (check RBrace) ;;
      (if negb rb then expect Semi "`;` after statement" else ret tt) ;;
      ret stmt
  end

with parseLetDecl (fuel : nat) : M t AST :=
  match fuel with
  | O => out_of_fuel
  | S f =>
      isId <- gets (check Identifier) ;;
      if negb isId then throw (RuntimeError "Expected variable name")
      else
        name <- gets (fun p => lexeme (current p)) ;;
        advance ;;
        expect Colon "`:`" ;;
        ty <- gets (fun p => type (current p)) ;;
        if negb (isTypeToken ty) then throw (RuntimeError "Expected type name")
        else
          text <- gets (fun p => lexeme (current p)) ;;
          type <- lift (stringToVarType text) ;;
          advance ;;
          isEq <- match_ Eq ;;
          init <- (if isEq then e <- parseExpression f ;; ret (Some e)
                   else ret None) ;;
          ret (LetDecl name type init)
  end

with parseIfStmt (fuel : nat) : M t AST :=
  match fuel with
  | O => out_of_fuel
  | S f =>
      cond <- parseExpression f ;;
      thenBranch <- parseBlock f ;;
      isElse <- match_ Else ;;
      elseBranch <- (if isElse then parseBlock f else ret []) ;;
      ret (IfStmt cond thenBranch elseBranch)
  end

with parseReturnStmt (fuel : nat) : M t AST :=
  match fuel with
  | O => out_of_fuel
  | S f =>
      value <- parseExpression f ;;
      ret (ReturnStmt value)
  end

with parseExpression (fuel : nat) : M t AST :=
  match fuel with
  | O => out_of_fuel
  | S f => parseEquality f
  end

with parseEquality (fuel : nat) : M t AST :=
  match fuel with
  | O => out_of_fuel
  | S f => expr <- parseComparison f ;; parseEqualityLoop f expr
  end

with parseEqualityLoop (fuel : nat) (expr : AST) : M t AST :=
  match fuel with
  | O => out_of_fuel
  | S f =>
      m <- match_ Eq ;;
      if m then
        right <- parseComparison f ;;
        parseEqualityLoop f (BinaryExpr "=" expr right)
      else ret expr
  end

with parseComparison (fuel : nat) : M t AST :=
  match fuel with
  | O => out_of_fuel
  | S f => expr <- parseTerm f ;; parseComparisonLoop f expr
  end

with parseComparisonLoop (fuel : nat) (expr : AST) : M t AST :=
  match fuel with
  | O => out_of_fuel
  | S f =>
      m <- match_ Leq ;;
      if m then
        right <- parseTerm f ;;
        parseComparisonLoop f (BinaryExpr "<=" expr right)
      else ret expr
  end

with parseTerm (fuel : nat) : M t AST :=
  match fuel with
  | O => out_of_fuel
  | S f => expr <- parseFactor f ;; parseTermLoop f expr
  end

with parseTermLoop (fuel : nat) (expr : AST) : M t AST :=
  match fuel with
  | O => out_of_fuel
  | S f =>
      m <- orelse (match_ Plus) (match_ Minus) ;;
      if m then
        op <- gets (fun p => lexeme (current p)) ;;
        right <- parseFactor f ;;
        parseTermLoop f (BinaryExpr op expr right)
      else ret expr
  end

with parseFactor (fuel : nat) : M t AST :=
  match fuel with
  | O => out_of_fuel
  | S f => expr <- parsePrimary f ;; parseFactorLoop f expr
  end

with parseFactorLoop (fuel : nat) (expr : AST) : M t AST :=
  match fuel with
  | O => out_of_fuel
  | S f =>
      m <- orelse (match_ Star) (match_ Slash) ;;
      if m then
        op <- gets (fun p => lexeme (current p)) ;;
        right <- parsePrimary f ;;
        parseFactorLoop f (BinaryExpr op expr right)
      else ret expr
  end

with parsePrimary (fuel : nat) : M t AST :=
  match fuel with
  | O => out_of_fuel
  | S f =>
      text <- gets (fun p => lexeme (current p)) ;;
      isInteger <- gets (check Integer) ;;
      if isInteger then advance ;; v <- lift (stoll text) ;; ret (IntExpr v)
      else
      isFloat <- gets (check Float) ;;
      if isFloat then advance ;; v <- lift (stof text) ;; ret (DoubleExpr v)
      else
      isString <- gets (check String_) ;;
      if isString then advance ;; ret (StringExpr text)
      else
      isChar <- gets (check Char) ;;
      if isChar then
        advance ;;
        match text with
        | EmptyString => throw (RuntimeError "Empty char literal")
        | String c _ => ret (CharExpr c)
        end
      else
      isBool <- gets (check Bool) ;;
      if isBool then
        let val := String.eqb text "true" in
        advance ;; ret (BoolExpr val)
      else
      isIdentifier <- gets (check Identifier) ;;
      if isIdentifier then parseCallOrVar f
      else
      isLParen <- match_ LParen ;;
      if isLParen then
        expr <- parseExpression f ;;
        expect RParen "`)`" ;;
        ret expr
      else
      isVoid <- gets (check VoidType) ;;
      if isVoid then advance ;; ret VoidExpr
      else throw (RuntimeError "Unexpected token in expression")
  end

with parseCallOrVar (fuel : nat) : M t AST :=
  match fuel with
  | O => out_of_fuel
  | S f =>
      name <- gets (fun p => lexeme (current p)) ;;
      advance ;;
      isLParen <- match_ LParen ;;
      if isLParen then
        rp <- gets (check RParen) ;;
        args <- (if negb rp then parseArgsLoop f [] else ret []) ;;
        expect RParen "`)`" ;;
        ret (CallExpr name args)
      else ret (VarExpr name)
  end

(** [do { args.push_back(parseExpression()); } while (match(Comma));] *)
with parseArgsLoop (fuel : nat) (args : list AST) : M t (list AST) :=
  match fuel with
  | O => out_of_fuel
  | S f =>
      arg <- parseExpression f ;;
      m <- match_ Comma ;;
      if m then parseArgsLoop f (args ++ [arg])%list else ret (args ++ [arg])%list
  end.

(** The two halves of [parseStatement]: the statement proper, and the
    terminator rule applied after it. *)
Definition statementHead (f : nat) : M t AST :=
  isLet <- match_ Let ;;
  if isLet then parseLetDecl f
  else
    isIf <- match_ If ;;
    if isIf then parseIfStmt f
    else
      isReturn <- match_ Return ;;
      if isReturn then parseReturnStmt f
      else parseExpression f.

Definition statementEnd : M t unit :=
  rb <- gets (check RBrace) ;;
  if negb rb then expect Semi "`;` after statement" else ret tt.

(** [do { ... params.push_back({pname, ptype}); } while (match(Comma));] *)
Fixpoint parseParamsLoop (fuel : nat) (params : list (string * VarType.t))
  : M t (list (string * VarType.t)) :=
  match fuel with
  | O => out_of_fuel
  | S f =>
      isId <- gets (check Identifier) ;;
      if negb isId then throw (RuntimeError "Expected parameter name")
      else
        pname <- gets (fun p => lexeme (current p)) ;;
        advance ;;
        expect Colon "`:`" ;;
        ty <- gets (fun p => type (current p)) ;;
        if negb (isTypeToken ty) then throw (RuntimeError "Expected parameter type")
        else
          text <- gets (fun p => lexeme (current p)) ;;
          ptype <- lift (stringToVarType text) ;;
          advance ;;
          m <- match_ Comma ;;
          if m then parseParamsLoop f (params ++ [(pname, ptype)])%list
          else ret (params ++ [(pname, ptype)])%list
  end.

Definition parseFunction (fuel : nat) : M t (Function F) :=
  match fuel with
  | O => out_of_fuel
  | S f =>
      expect Fn "`fn`" ;;
      isId <- gets (check Identifier) ;;
      if negb isId then throw (RuntimeError "Expected function name")
      else
        name <- gets (fun p => lexeme (current p)) ;;
        advance ;;
        expect LParen "`(`" ;;
        rp <- gets (check RParen) ;;
        params <- (if negb rp then parseParamsLoop f [] else ret []) ;;
        expect RParen "`)`" ;;
        expect Arrow "`->`" ;;
        ty <- gets (fun p => type (current p)) ;;
        if negb (isTypeToken ty) then throw (RuntimeError "Expected return type")
        else
          text <- gets (fun p => lexeme (current p)) ;;
          returnType <- lift (stringToVarType text) ;;
          advance ;;
          stmts <- parseBlock f ;;
          ret (mkFunction name returnType params stmts)
  end.

(** [while (!check(TokenType::Eof)) prog->functions.push_back(parseFunction());] *)
Fixpoint parseProgramLoop (fuel : nat) (functions : list (Function F))
  : M t (Program F) :=
  match fuel with
  | O => out_of_fuel
  | S f =>
      eof <- gets (check Eof) ;;
      if negb eof
      then fn <- parseFunction f ;; parseProgramLoop f (functions ++ [fn])%list
      else ret (mkProgram functions)
  end.

Definition parseProgram (fuel : nat) : M t (Program F) :=
  parseProgramLoop fuel [].

(** A parsing function run on a parser freshly built over [text]:
    [Lexer lexer(text); Parser parser(lexer); parser.m();] *)
Definition runOn {A} (text : string) (m : M t A) : outcome t A :=
  match new (Lexer.new text) with
  | Ok _ p => m p
  | Throw e p => Throw e p
  | OutOfFuel => OutOfFuel
  end.

(** The driver's call sequence on the content of the source file. *)
Definition parseSource (fuel : nat) (text : string) : outcome t (Program F) :=
  runOn text (parseProgram fuel).

End Grammar.

Arguments runOn {A} text m.

End Parser.

(** ** Diagnostics ([LexerError::formatMessage] and its helpers) *)

Definition nl : string := String NL "".

(** [std::string(n, ' ')] *)
Fixpoint spaces (n : nat) : string :=
  match n with
  | O => ""
  | S k => String " " (spaces k)
  end.

(** [operator<<(std::ostream&, int)] *)
Definition show_int (z : Z) : string := NilZero.string_of_int (Z.to_int z).

(** [for (char c : line)]: a tab appends [tabSize] spaces, whatever the
    column it stands in. *)
Fixpoint expandTabs (line : string) (tabSize : nat) : string :=
  match line with
  | EmptyString => ""
  | String c rest =>
      if Ascii.eqb c TAB then spaces tabSize ++ expandTabs rest tabSize
      else String c (expandTabs rest tabSize)
  end.

(** [for (int i = 0; i < col - 1 && i < (int)line.size(); i++)] *)
Fixpoint visualColumnLoop (fuel : nat) (line : string) (col tabSize : Z)
         (i : nat) (visualCol : Z) : Z :=
  match fuel with
  | O => visualCol
  | S f =>
      if ((Z.of_nat i <? col - 1)%Z && (i <? String.length line))%bool then
        visualColumnLoop f line col tabSize (S i)
          (if Ascii.eqb (at_ line i) TAB
           then visualCol + (tabSize - Z.rem visualCol tabSize)
           else visualCol + 1)%Z
      else visualCol
  end.

(** The loop runs at most [line.size()] times. *)
Definition visualColumn (line : string) (col tabSize : Z) : Z :=
  visualColumnLoop (String.length line) line col tabSize 0 0.

Definition formatMessage (e : LexerError) : string :=
  let oss := "Lexer error at line " ++ show_int (eline e) ++ ", col "
             ++ show_int (ecol e) ++ ": " ++ message e ++ nl in
  match sourceLine e with
  | EmptyString => oss
  | _ =>
      let displayLine := expandTabs (sourceLine e) 4 in
      let caretPos := visualColumn (sourceLine e) (ecol e) 4 in
      oss ++ displayLine ++ nl ++ spaces (Z.to_nat caretPos) ++ "^"
  end.

(** [what()] of each exception, as the driver prints it. *)
Definition what_of (e : exn) : string :=
  match e with
  | LexerErr le => formatMessage le
  | RuntimeError w | InvalidArgument w | OutOfRange w => w
  end.

(** *** The display format as the specification words it

    These follow the specification's sentences, to be compared with
    [formatMessage]. *)

(** Width reached after [s], starting in visual column [v], a tab moving
    to the next 4-column stop. *)
Fixpoint visualWidth (s : string) (v : nat) : nat :=
  match s with
  | EmptyString => v
  | String c rest =>
      if Ascii.eqb c TAB then visualWidth rest (v + (4 - v mod 4))
      else visualWidth rest (S v)
  end.

(** The line with each tab expanded to spaces up to the next 4-column stop. *)
Fixpoint expandToStops (s : string) (v : nat) : string :=
  match s with
  | EmptyString => ""
  | String c rest =>
      if Ascii.eqb c TAB
      then spaces (4 - v mod 4) ++ expandToStops rest (v + (4 - v mod 4))
      else String c (expandToStops rest (S v))
  end.

(** The first [col - 1] characters of the line. *)
Definition beforeColumn (line : string) (col : Z) : string :=
  String.substring 0 (Z.to_nat (col - 1)) line.

(** "<Lex|Parse> error at line L, col C: <message>", the source line with
    tabs expanded at 4-column stops, and the caret line. *)
Definition specFormat (kind : string) (e : LexerError) : string :=
  kind ++ " error at line " ++ show_int (eline e) ++ ", col "
       ++ show_int (ecol e) ++ ": " ++ message e ++ nl
       ++ expandToStops (sourceLine e) 0 ++ nl
       ++ spaces (visualWidth (beforeColumn (sourceLine e) (ecol e)) 0) ++ "^".

(** A line without tab characters. *)
Fixpoint noTabs (s : string) : bool :=
  match s with
  | EmptyString => true
  | String c rest => (negb (Ascii.eqb c TAB) && noTabs rest)%bool
  end.

(** ** Auxiliary notions used by the statements below *)

(** [o] is not [OutOfFuel], and a returned value and state satisfy [P]. *)
Definition post {St A} (o : outcome St A) (P : A -> St -> Prop) : Prop :=
  match o with
  | Ok a s => P a s
  | Throw _ _ => True
  | OutOfFuel => False
  end.

(** [o] is a thrown exception. *)
Definition throws {St A} (o : outcome St A) : Prop :=
  exists e s, o = Throw e s.

(** The current token is of none of the kinds of [isTypeToken], as holds
    of every token that came out of the lexer. *)
Definition fromLexer (p : Parser.t) : Prop :=
  Parser.isTypeToken (type (Parser.current p)) = false.

(** Lookahead without any effect on the lexer, as the specification has it
    for every state. *)
Definition pureLookahead (l : Lexer.t) : Prop :=
  exists tok l', Lexer.peekToken l = Ok tok l /\ Lexer.nextToken l = Ok tok l'.

(** A text of decimal digits only. *)
Fixpoint allDigits (s : string) : bool :=
  match s with
  | EmptyString => true
  | String c r => (isdigit c && allDigits r)%bool
  end.

(** The dot after a number as the specification has it: the number is
    lexed as an [Integer], the dot stays, and the request for the next
    token does not end in a lexer error. *)
Definition strayDotReachesParser (text : string) : Prop :=
  exists tok l1,
    Lexer.nextToken (Lexer.new text) = Ok tok l1
    /\ type tok = Integer
    /\ Lexer.peek 0 l1 = "."%char
    /\ forall e l2, Lexer.nextToken l1 <> Throw (LexerErr e) l2.

(** [l'] is a lexer state reached from [l] without moving backwards. *)
Definition advanced (l l' : Lexer.t) : Prop :=
  Lexer.source l' = Lexer.source l /\ Lexer.remaining l' <= Lexer.remaining l.

(** A token with text behind it: its kind is none of the six type-name
    kinds, and it is not the end-of-input token. *)
Definition properToken (tok : Token) : Prop :=
  Parser.isTypeToken (type tok) = false /\ type tok <> Eof.

(** What every token handed out by the lexer satisfies: the buffer is the
    same, the kind is none of the six type-name kinds, and the end-of-input
    token comes only when skipping whitespace and comments has reached the
    end of the buffer. *)
Definition lexed (l : Lexer.t) (tok : Token) (l' : Lexer.t) : Prop :=
  Lexer.source l' = Lexer.source l
  /\ Parser.isTypeToken (type tok) = false
  /\ (type tok = Eof ->
      Lexer.skipWhitespaceAndComments l = Ok tt l'
      /\ Lexer.length l' <= Lexer.pos l').

(** ** Further notions *)


(** A text without newline characters. *)
Fixpoint noNewline (s : string) : bool :=
  match s with
  | EmptyString => true
  | String c rest => (negb (Ascii.eqb c NL) && noNewline rest)%bool
  end.

(** A lexer state inside its buffer, with a column of at least 1. *)
Definition wellFormed (l : Lexer.t) : Prop :=
  Lexer.pos l <= Lexer.length l /\ (1 <= Lexer.col l)%Z.

(** [l'] is a well-formed state over the buffer of [l], not before [l] in
    position nor in line. *)
Definition onward (l l' : Lexer.t) : Prop :=
  Lexer.source l' = Lexer.source l
  /\ Lexer.pos l <= Lexer.pos l'
  /\ Lexer.pos l' <= Lexer.length l
  /\ (Lexer.line l <= Lexer.line l')%Z
  /\ (1 <= Lexer.col l')%Z.

(** The exceptions of the lexer: a [LexerError] built by [Lexer::error] in
    the state of the throw, with one of the four messages of [lexer.cpp]. *)
Definition lexFault (e : exn) (l : Lexer.t) : Prop :=
  exists msg,
    e = LexerErr (Lexer.error msg l)
    /\ (msg = "Unterminated block comment"
        \/ msg = "Unterminated string"
        \/ msg = "Invalid escape sequence"
        \/ exists c, msg = "Unexpected character: " ++ String c "").

(** An outcome of a lexer operation started in [l]: a return in a state
    onward of [l] with [Q], or a lexer exception in such a state. *)
Definition lexSpec {A} (l : Lexer.t) (o : outcome Lexer.t A)
           (Q : A -> Lexer.t -> Prop) : Prop :=
  match o with
  | Ok a l' => onward l l' /\ Q a l'
  | Throw e l' => onward l l' /\ lexFault e l'
  | OutOfFuel => False
  end.

(** The kinds of token that [nextToken] builds, each with the lexeme given
    to it: keywords, operators and punctuation carry their spelling, the
    end-of-input token the empty text, and an [Identifier] a text that is
    not in the keyword table. *)
Definition tokenOk (tok : Token) : Prop :=
  match type tok with
  | Fn => lexeme tok = "fn"
  | Let => lexeme tok = "let"
  | Return => lexeme tok = "return"
  | If => lexeme tok = "if"
  | Else => lexeme tok = "else"
  | Identifier => Lexer.find (lexeme tok) Lexer.keywords = None
  | Integer | Float | String_ => True
  | Colon => lexeme tok = ":"
  | Arrow => lexeme tok = "->"
  | Eq => lexeme tok = "="
  | EqEq => lexeme tok = "=="
  | Neq => lexeme tok = "!="
  | Leq => lexeme tok = "<="
  | Geq => lexeme tok = ">="
  | Plus => lexeme tok = "+"
  | Minus => lexeme tok = "-"
  | Star => lexeme tok = "*"
  | Slash => lexeme tok = "/"
  | Bang => lexeme tok = "!"
  | PlusAssign => lexeme tok = "+="
  | MinusAssign => lexeme tok = "-="
  | StarAssign => lexeme tok = "*="
  | SlashAssign => lexeme tok = "/="
  | Less => lexeme tok = "<"
  | Greater => lexeme tok = ">"
  | LParen => lexeme tok = "("
  | RParen => lexeme tok = ")"
  | LBrace => lexeme tok = "{"
  | RBrace => lexeme tok = "}"
  | Semi => lexeme tok = ";"
  | Comma => lexeme tok = ","
  | Eof => lexeme tok = ""
  | Print | Char | Bool
  | IntType | FloatType | StringType | CharType | BoolType | VoidType => False
  end.

(** The characters of identifiers: [std::isalnum(c) || c == '_'], and
    [std::isalpha(c) || c == '_'] for the first one. *)
Definition identChar (c : ascii) : bool := (isalnum c || Ascii.eqb c "_")%bool.
Definition identStart (c : ascii) : bool := (isalpha c || Ascii.eqb c "_")%bool.

Fixpoint allIdent (s : string) : bool :=
  match s with
  | EmptyString => true
  | String c r => (identChar c && allIdent r)%bool
  end.

(** The kind [identifierOrKeyword] gives to a word. *)
Definition wordKind (word : string) : TokenType :=
  match Lexer.find word Lexer.keywords with
  | Some ty => ty
  | None => Identifier
  end.

Definition BACKSLASH : ascii := "092"%char.

(** A text written as the content of a string literal: newline, tab,
    backslash and double quote by their escape sequences. *)
Fixpoint escape (s : string) : string :=
  match s with
  | EmptyString => ""
  | String c r =>
      (if Ascii.eqb c NL then String BACKSLASH "n"
       else if Ascii.eqb c TAB then String BACKSLASH "t"
       else if Ascii.eqb c BACKSLASH then String BACKSLASH (String BACKSLASH "")
       else if Ascii.eqb c DQUOTE then String BACKSLASH (String DQUOTE "")
       else String c "") ++ escape r
  end.

(** A text without NUL characters. *)
Fixpoint noNUL (s : string) : bool :=
  match s with
  | EmptyString => true
  | String c r => (negb (Ascii.eqb c NUL) && noNUL r)%bool
  end.

(** A text in which no [*] is followed by [/]. *)
Fixpoint noClose (s : string) : bool :=
  match s with
  | EmptyString => true
  | String c r =>
      (negb (Ascii.eqb c "*" && Ascii.eqb (at_ r 0) "/") && noClose r)%bool
  end.

(** An exception thrown by the parser in state [p]: an exception of the
    lexer, thrown where the lexer now stands, or a [std::runtime_error]
    "Expected ..." with one of the texts [msgs]. *)
Definition parseFault (msgs : list string) (e : exn) (p : Parser.t) : Prop :=
  lexFault e (Parser.lexer p)
  \/ exists msg, In msg msgs /\ e = RuntimeError ("Expected " ++ msg).

(** An outcome of a parser operation: a return with [Q] over a well-formed
    lexer, or one of the exceptions of [parseFault]. *)
Definition parseSpec {A} (msgs : list string) (o : outcome Parser.t A)
           (Q : A -> Parser.t -> Prop) : Prop :=
  match o with
  | Ok a p => wellFormed (Parser.lexer p) /\ Q a p
  | Throw e p => parseFault msgs e p
  | OutOfFuel => False
  end.

(** The texts of the "Expected ..." errors that [parseFunction] reaches. *)
Definition functionFaults : list string :=
  ["`fn`"; "function name"; "`(`"; "parameter name"; "`:`"; "parameter type";
   "`->`"; "return type"].

(** The nodes that the statement and expression parsers get to build:
    no [CharExpr], [BoolExpr], [VoidExpr], [LetDecl] or [BlockStmt]
    anywhere in the tree. *)
Fixpoint builtNode {F : Type} (n : ASTNode F) : bool :=
  match n with
  | IntExpr _ | DoubleExpr _ | StringExpr _ | VarExpr _ => true
  | CharExpr _ | BoolExpr _ | VoidExpr => false
  | BinaryExpr _ l r => (builtNode l && builtNode r)%bool
  | CallExpr _ args => forallb builtNode args
  | ReturnStmt v => builtNode v
  | IfStmt c t e => (builtNode c && forallb builtNode t && forallb builtNode e)%bool
  | LetDecl _ _ _ => false
  | BlockStmt _ => false
  end.

(** A parser over a well-formed lexer whose current token is one that the
    lexer builds. *)
Definition primed (p : Parser.t) : Prop :=
  wellFormed (Parser.lexer p) /\ tokenOk (Parser.current p).

(** What a parsing function returns, when it returns. *)
Definition builds {A} (o : outcome Parser.t A) (Q : A -> Prop) : Prop :=
  match o with
  | Ok a p => primed p /\ Q a
  | Throw _ _ | OutOfFuel => True
  end.

(** What a parser has left to read: the characters the lexer has not
    consumed, and the current token unless it is the end-of-input token. *)
Definition pending (p : Parser.t) : nat :=
  Lexer.remaining (Parser.lexer p) + (if Parser.check Eof p then 0 else 1).

(** An outcome that is a return with less than [m] left to read, or an
    exception; the recursion budget was enough. *)
Definition runs {A} (m : nat) (o : outcome Parser.t A)
           (Q : A -> Parser.t -> Prop) : Prop :=
  match o with
  | Ok a p => primed p /\ pending p < m /\ Q a p
  | Throw _ _ => True
  | OutOfFuel => False
  end.

(** * Properties *)

(** ** Reasoning about outcomes *)

Section PostRules.

Context {St : Type}.

Lemma post_bind {A B} (m : M St A) (k : A -> M St B) (s : St)
      (P : A -> St -> Prop) (Q : B -> St -> Prop) :
  post (m s) P ->
  (forall a s', P a s' -> post (k a s') Q) ->
  post (bind m k s) Q.
Proof.
  unfold bind. destruct (m s) as [a s'|e s'|]; simpl; intros Hm Hk.
  - now apply Hk.
  - exact I.
  - contradiction.
Qed.

Lemma bind_gets {A B} (f : St -> A) (k : A -> M St B) (s : St) :
  bind (gets f) k s = k (f s) s.
Proof. reflexivity. Qed.

Lemma bind_ret {A B} (a : A) (k : A -> M St B) (s : St) :
  bind (ret a) k s = k a s.
Proof. reflexivity. Qed.

Lemma post_weaken {A} (o : outcome St A) (P Q : A -> St -> Prop) :
  post o P -> (forall a s, P a s -> Q a s) -> post o Q.
Proof.
  destruct o; simpl; auto.
Qed.

Lemma post_Ok {A} (o : outcome St A) (P : A -> St -> Prop) a s :
  post o P -> o = Ok a s -> P a s.
Proof. intros H ->. exact H. Qed.

Lemma post_not_OutOfFuel {A} (o : outcome St A) (P : A -> St -> Prop) :
  post o P -> o <> OutOfFuel.
Proof. intros H ->. exact H. Qed.

Lemma post_False_throws {A} (o : outcome St A) :
  post o (fun _ _ => False) -> throws o.
Proof.
  destruct o as [a s|e s|]; simpl; intros H; try contradiction.
  now exists e, s.
Qed.

End PostRules.

(** ** Characters *)

Lemma isspace_NUL : isspace NUL = false.
Proof. reflexivity. Qed.

(** ** Progress of the lexer

    Every lexer operation keeps the source buffer, never moves backwards
    over it (but for [unread]), and every loop iteration that continues
    has consumed a character: the budgets given by [with_remaining] are
    never used up. *)

Module LexerFacts.
Import Lexer.

Lemma advanced_refl l : advanced l l.
Proof. split; auto. Qed.

Lemma advance_spec l :
  post (advance l)
       (fun c l' => c = peek 0 l /\ source l' = source l
                    /\ remaining l' <= remaining l
                    /\ (c <> NUL -> remaining l' < remaining l)).
Proof.
  unfold advance, peek, remaining, length. rewrite Nat.add_0_r.
  destruct (Nat.leb_spec (String.length (source l)) (pos l)) as [Hle|Hlt].
  - simpl. repeat split; auto. congruence.
  - destruct (Ascii.eqb _ NL); [|destruct (Ascii.eqb _ TAB)]; simpl;
      repeat split; auto; lia.
Qed.

Lemma advance_advanced l : post (advance l) (fun _ l' => advanced l l').
Proof.
  eapply post_weaken; [apply advance_spec|].
  intros c l' (_ & Hs & Hr & _). now split.
Qed.

(** After a character that [peek] showed not to be NUL, [advance] has
    strictly fewer characters left. *)
Lemma advance_strict l :
  peek 0 l <> NUL ->
  post (advance l) (fun _ l' => source l' = source l /\ remaining l' < remaining l).
Proof.
  intros Hc. eapply post_weaken; [apply advance_spec|].
  intros c l' (-> & Hs & _ & Hr). auto.
Qed.

Lemma match_advanced expected l :
  post (match_ expected l) (fun _ l' => advanced l l').
Proof.
  unfold match_. rewrite bind_gets.
  destruct (Ascii.eqb _ _).
  - eapply post_bind; [apply advance_advanced|]. intros c l' H. exact H.
  - apply advanced_refl.
Qed.

Lemma advanced_after l l1 l2 :
  source l1 = source l -> remaining l1 < remaining l -> advanced l1 l2 ->
  source l2 = source l /\ remaining l2 < remaining l.
Proof. intros Hs Hr [Hs' Hr']. split; [congruence | lia]. Qed.

Lemma lineCommentLoop_advanced fuel : forall l,
  remaining l < fuel ->
  post (lineCommentLoop fuel l) (fun _ l' => advanced l l').
Proof.
  induction fuel as [|f IH]; intros l Hf; [lia|].
  cbn [lineCommentLoop]. rewrite bind_gets.
  destruct (negb (Ascii.eqb (peek 0 l) NL) && negb (Ascii.eqb (peek 0 l) NUL))%bool eqn:Hc.
  - apply andb_true_iff in Hc as [_ Hc]. apply negb_true_iff, Ascii.eqb_neq in Hc.
    eapply post_bind; [apply (advance_strict l Hc)|].
    intros c l1 [Hs Hr]. eapply post_weaken; [apply IH; lia|].
    intros u l2 H. destruct (advanced_after l l1 l2 Hs Hr H). split; [auto | lia].
  - apply advanced_refl.
Qed.

Lemma blockCommentLoop_advanced fuel : forall l,
  remaining l < fuel ->
  post (blockCommentLoop fuel l) (fun _ l' => advanced l l').
Proof.
  induction fuel as [|f IH]; intros l Hf; [lia|].
  cbn [blockCommentLoop]. rewrite !bind_gets.
  destruct (negb _).
  - destruct (Ascii.eqb (peek 0 l) NUL) eqn:Hc; [exact I|].
    apply Ascii.eqb_neq in Hc.
    eapply post_bind; [apply (advance_strict l Hc)|].
    intros c l1 [Hs Hr]. eapply post_weaken; [apply IH; lia|].
    intros u l2 H. destruct (advanced_after l l1 l2 Hs Hr H). split; [auto | lia].
  - apply advanced_refl.
Qed.

Lemma with_remaining_advanced (loop : nat -> M t unit) l :
  (forall fuel l, remaining l < fuel -> post (loop fuel l) (fun _ l' => advanced l l')) ->
  post (with_remaining loop l) (fun _ l' => advanced l l').
Proof. intros H. apply H. lia. Qed.

Lemma skipLoop_advanced fuel : forall l,
  remaining l < fuel ->
  post (skipLoop fuel l) (fun _ l' => advanced l l').
Proof.
  induction fuel as [|f IH]; intros l Hf; [lia|].
  cbn [skipLoop]. rewrite !bind_gets.
  assert (Hrec : forall l1, source l1 = source l -> remaining l1 < remaining l ->
                 post (skipLoop f l1) (fun _ l' => advanced l l')).
  { intros l1 Hs Hr. eapply post_weaken; [apply IH; lia|].
    intros u l2 H. destruct (advanced_after l l1 l2 Hs Hr H). split; [auto | lia]. }
  destruct (isspace (peek 0 l)) eqn:Hsp.
  { assert (Hc : peek 0 l <> NUL).
    { intros E. rewrite E, isspace_NUL in Hsp. discriminate. }
    eapply post_bind; [apply (advance_strict l Hc)|].
    intros c l1 [Hs Hr]. now apply Hrec. }
  destruct (Ascii.eqb (peek 0 l) "/") eqn:Hslash; cbn [andb]; [|apply advanced_refl].
  assert (Hc : peek 0 l <> NUL).
  { apply Ascii.eqb_eq in Hslash. rewrite Hslash. discriminate. }
  destruct (Ascii.eqb (peek 1 l) "/").
  { (* line comment: the first test of the inner loop succeeds on '/' *)
    apply post_bind
      with (P := fun _ l2 => source l2 = source l /\ remaining l2 < remaining l).
    - unfold with_remaining. cbn [lineCommentLoop]. rewrite bind_gets.
      apply Ascii.eqb_eq in Hslash. rewrite Hslash.
      change (negb (Ascii.eqb "/" NL) && negb (Ascii.eqb "/" NUL))%bool with true.
      cbv iota.
      eapply post_bind; [apply (advance_strict l Hc)|].
      intros c l1 [Hs Hr].
      eapply post_weaken; [apply lineCommentLoop_advanced; lia|].
      intros u l2 H. exact (advanced_after l l1 l2 Hs Hr H).
    - intros u l2 [Hs Hr]. now apply Hrec. }
  destruct (Ascii.eqb (peek 1 l) "*"); [|apply advanced_refl].
  eapply post_bind; [apply (advance_strict l Hc)|].
  intros c l1 [Hs1 Hr1].
  eapply post_bind; [apply advance_advanced|].
  intros c2 l2 H2. destruct (advanced_after l l1 l2 Hs1 Hr1 H2) as [Hs2 Hr2].
  eapply post_bind;
    [apply with_remaining_advanced, blockCommentLoop_advanced|].
  intros u l3 H3. destruct (advanced_after l l2 l3 Hs2 Hr2 H3) as [Hs3 Hr3].
  eapply post_bind; [apply advance_advanced|].
  intros c4 l4 H4. destruct (advanced_after l l3 l4 Hs3 Hr3 H4) as [Hs4 Hr4].
  eapply post_bind; [apply advance_advanced|].
  intros c5 l5 H5. destruct (advanced_after l l4 l5 Hs4 Hr4 H5) as [Hs5 Hr5].
  now apply Hrec.
Qed.

Lemma skipWhitespaceAndComments_advanced l :
  post (skipWhitespaceAndComments l) (fun _ l' => advanced l l').
Proof. apply with_remaining_advanced, skipLoop_advanced. Qed.

Lemma identLoop_advanced fuel : forall l,
  remaining l < fuel ->
  post (identLoop fuel l) (fun _ l' => advanced l l').
Proof.
  induction fuel as [|f IH]; intros l Hf; [lia|].
  cbn [identLoop]. rewrite bind_gets.
  destruct (isalnum (peek 0 l) || Ascii.eqb (peek 0 l) "_")%bool eqn:Hc.
  - assert (Hn : peek 0 l <> NUL).
    { intros E. rewrite E in Hc. discriminate. }
    eapply post_bind; [apply (advance_strict l Hn)|].
    intros c l1 [Hs Hr]. eapply post_weaken; [apply IH; lia|].
    intros u l2 H. destruct (advanced_after l l1 l2 Hs Hr H). split; [auto | lia].
  - apply advanced_refl.
Qed.

Lemma digitLoop_advanced fuel : forall l,
  remaining l < fuel ->
  post (digitLoop fuel l) (fun _ l' => advanced l l').
Proof.
  induction fuel as [|f IH]; intros l Hf; [lia|].
  cbn [digitLoop]. rewrite bind_gets.
  destruct (isdigit (peek 0 l)) eqn:Hc.
  - assert (Hn : peek 0 l <> NUL).
    { intros E. rewrite E in Hc. discriminate. }
    eapply post_bind; [apply (advance_strict l Hn)|].
    intros c l1 [Hs Hr]. eapply post_weaken; [apply IH; lia|].
    intros u l2 H. destruct (advanced_after l l1 l2 Hs Hr H). split; [auto | lia].
  - apply advanced_refl.
Qed.

Lemma stringLoop_advanced fuel : forall value l,
  remaining l < fuel ->
  post (stringLoop fuel value l) (fun _ l' => advanced l l').
Proof.
  induction fuel as [|f IH]; intros value l Hf; [lia|].
  cbn [stringLoop].
  eapply post_bind; [apply advance_spec|].
  intros c l1 (_ & Hs & Hle & Hlt).
  destruct (Ascii.eqb c NUL) eqn:Hc; [exact I|].
  apply Ascii.eqb_neq in Hc. specialize (Hlt Hc).
  assert (Hrec : forall v l2, advanced l1 l2 ->
                 post (stringLoop f v l2) (fun _ l' => advanced l l')).
  { intros v l2 H12. destruct (advanced_after l l1 l2 Hs Hlt H12) as [Hs2 Hr2].
    eapply post_weaken; [apply IH; lia|].
    intros u l3 H. destruct (advanced_after l l2 l3 Hs2 Hr2 H). split; [auto | lia]. }
  destruct (Ascii.eqb c DQUOTE); [split; [auto | lia]|].
  destruct (Ascii.eqb c "\").
  - eapply post_bind; [apply advance_advanced|].
    intros e l2 H12.
    repeat (destruct (Ascii.eqb e _); [now apply Hrec|]).
    exact I.
  - apply Hrec, advanced_refl.
Qed.

Lemma find_keywords text ty :
  find text keywords = Some ty -> Parser.isTypeToken ty = false /\ ty <> Eof.
Proof.
  unfold keywords, find.
  repeat (destruct (String.eqb _ text);
          [intros [= <-]; split; [reflexivity | discriminate]|]).
  discriminate.
Qed.

Lemma unread_source l : post (unread l) (fun _ l' => source l' = source l).
Proof. reflexivity. Qed.

Lemma identifierOrKeyword_proper l :
  post (identifierOrKeyword l)
       (fun tok l' => source l' = source l /\ properToken tok).
Proof.
  unfold identifierOrKeyword. rewrite !bind_gets.
  eapply post_bind; [apply with_remaining_advanced, identLoop_advanced|].
  intros u l1 [Hs _]. rewrite bind_gets.
  destruct (find _ keywords) eqn:Hk.
  - split; [exact Hs | exact (find_keywords _ _ Hk)].
  - split; [exact Hs | split; [reflexivity | discriminate]].
Qed.

Lemma number_proper l :
  post (number l) (fun tok l' => source l' = source l /\ properToken tok).
Proof.
  unfold number. rewrite !bind_gets.
  eapply post_bind; [apply with_remaining_advanced, digitLoop_advanced|].
  intros u l1 [Hs1 _]. rewrite !bind_gets.
  apply post_bind with (P := fun _ l2 => source l2 = source l).
  - destruct (_ && _)%bool; [|exact Hs1].
    eapply post_bind; [apply advance_advanced|].
    intros c l2 [Hs2 _].
    eapply post_bind; [apply with_remaining_advanced, digitLoop_advanced|].
    intros u' l3 [Hs3 _]. cbn. congruence.
  - intros isFloat l2 Hs2. rewrite bind_gets.
    split; [exact Hs2 | destruct isFloat; (split; [reflexivity | discriminate])].
Qed.

Lemma string_proper l :
  post (string_ l) (fun tok l' => source l' = source l /\ properToken tok).
Proof.
  unfold string_. rewrite !bind_gets.
  eapply post_bind; [apply advance_advanced|].
  intros c l1 [Hs1 _].
  eapply post_bind.
  - apply (stringLoop_advanced (S (remaining l1)) "" l1). lia.
  - intros value l2 [Hs2 _].
    split; [cbn; congruence | split; [reflexivity | discriminate]].
Qed.

(** A token built on the spot from an operator or punctuation character. *)
Ltac tok_done := split; [cbn; congruence | split; [reflexivity | discriminate]].

Ltac tok_match :=
  eapply post_bind; [apply match_advanced|];
  let m := fresh "m" in
  let l' := fresh "l" in
  let Hs := fresh "Hs" in
  intros m l' [Hs _]; destruct m; try tok_done.

Ltac tok_sub lem :=
  eapply post_weaken; [apply lem|];
  let tok := fresh "tok" in
  let l' := fresh "l" in
  let Hs := fresh "Hs" in
  let Hty := fresh "Hty" in
  let Hne := fresh "Hne" in
  intros tok l' (Hs & Hty & Hne);
  split; [congruence | split; [exact Hty | intros E; contradiction]].

Theorem nextToken_lexed l : post (nextToken l) (lexed l).
Proof.
  unfold nextToken, bind at 1.
  pose proof (skipWhitespaceAndComments_advanced l) as Hsk.
  destruct (skipWhitespaceAndComments l) as [[] l1|e l1|] eqn:Hskip;
    cbn [post] in Hsk; [|exact I|contradiction].
  destruct Hsk as [Hs1 _]. rewrite bind_gets.
  destruct (Nat.leb_spec (length l1) (pos l1)) as [Hend|_].
  { split; [exact Hs1 | split; [reflexivity | intros _; now split]]. }
  eapply post_bind; [apply advance_advanced|].
  intros c l2 [Hs2 _]. rewrite !bind_gets. cbv zeta.
  do 7 (destruct (Ascii.eqb c _); [tok_done|]).
  destruct (Ascii.eqb c "+"); [tok_match|].
  destruct (Ascii.eqb c "-"); [tok_match; tok_match|].
  do 6 (destruct (Ascii.eqb c _); [tok_match|]).
  destruct (Ascii.eqb c DQUOTE); [tok_sub string_proper|].
  destruct (isalpha c || Ascii.eqb c "_")%bool.
  { eapply post_bind; [apply unread_source|].
    intros u' l3 Hs3. tok_sub identifierOrKeyword_proper. }
  destruct (isdigit c); [|exact I].
  eapply post_bind; [apply unread_source|].
  intros u' l3 Hs3. tok_sub number_proper.
Qed.

(** At the end of the buffer, whitespace and comments skipped, the token
    is the end-of-input token. *)
Lemma nextToken_at_end l l' :
  skipWhitespaceAndComments l = Ok tt l' -> length l' <= pos l' ->
  nextToken l = Ok (mkToken Eof "" (line l') (col l')) l'.
Proof.
  intros Hskip Hend. unfold nextToken, bind at 1. rewrite Hskip, bind_gets.
  destruct (Nat.leb_spec (length l') (pos l')); [reflexivity | lia].
Qed.

(** [nextToken] returns or throws on every lexer state. *)
Corollary nextToken_total l : nextToken l <> OutOfFuel.
Proof. exact (post_not_OutOfFuel _ _ (nextToken_lexed l)). Qed.

Lemma nextToken_source l tok l' :
  nextToken l = Ok tok l' -> source l' = source l.
Proof. intros H. exact (proj1 (post_Ok _ _ _ _ (nextToken_lexed l) H)). Qed.

End LexerFacts.

(** ** The parser never sees a type-name token *)

Module ParserFacts.
Import Parser.

Lemma advance_fromLexer p : post (advance p) (fun _ p' => fromLexer p').
Proof.
  unfold advance.
  pose proof (LexerFacts.nextToken_lexed (lexer p)) as H.
  destruct (Lexer.nextToken (lexer p)) as [tok l|e l|]; simpl in *; [|exact I|exact H].
  exact (proj1 (proj2 H)).
Qed.

Lemma match_fromLexer ty p :
  fromLexer p -> post (match_ ty p) (fun _ p' => fromLexer p').
Proof.
  intros Hp. unfold match_. rewrite bind_gets.
  destruct (check ty p); [|exact Hp].
  eapply post_bind; [apply advance_fromLexer|].
  intros u p' H. exact H.
Qed.

Lemma expect_fromLexer ty msg p :
  fromLexer p -> post (expect ty msg p) (fun _ p' => fromLexer p').
Proof.
  intros Hp. unfold expect.
  eapply post_bind; [apply (match_fromLexer ty p Hp)|].
  intros m p' H. destruct m; [exact H | exact I].
Qed.

Section Grammar.

Variable F : Type.
Variable stof : string -> exn + F.

(** The parameter loop stops at its first parameter type. *)
Lemma parseParamsLoop_throws f params p :
  post (parseParamsLoop (S f) params p) (fun _ _ => False).
Proof.
  cbn [parseParamsLoop]. rewrite bind_gets.
  destruct (negb (check Identifier p)); [exact I|].
  rewrite bind_gets.
  eapply post_bind; [apply advance_fromLexer|]. intros u1 p1 H1.
  eapply post_bind; [apply (expect_fromLexer _ _ _ H1)|]. intros u2 p2 H2.
  rewrite bind_gets. red in H2. rewrite H2. exact I.
Qed.

(** [parseFunction] throws on every parser state primed by the lexer. *)
Lemma parseFunction_throws f p :
  fromLexer p ->
  post (parseFunction F stof (S (S f)) p) (fun _ _ => False).
Proof.
  intros Hp. cbn [parseFunction].
  eapply post_bind; [apply (expect_fromLexer _ _ _ Hp)|]. intros u1 p1 H1.
  rewrite bind_gets.
  destruct (negb (check Identifier p1)); [exact I|].
  rewrite bind_gets.
  eapply post_bind; [apply advance_fromLexer|]. intros u2 p2 H2.
  eapply post_bind; [apply (expect_fromLexer _ _ _ H2)|]. intros u3 p3 H3.
  rewrite bind_gets.
  apply post_bind with (P := fun _ p' => fromLexer p').
  { destruct (negb (check RParen p3)); [|exact H3].
    eapply post_weaken; [apply parseParamsLoop_throws|].
    intros a s []. }
  intros params p4 H4.
  eapply post_bind; [apply (expect_fromLexer _ _ _ H4)|]. intros u5 p5 H5.
  eapply post_bind; [apply (expect_fromLexer _ _ _ H5)|]. intros u6 p6 H6.
  rewrite bind_gets. red in H6. rewrite H6. exact I.
Qed.

Lemma parseProgramLoop_eof f fns p :
  check Eof p = true ->
  parseProgramLoop F stof (S f) fns p = Ok (mkProgram fns) p.
Proof.
  intros Heof. cbn [parseProgramLoop]. rewrite bind_gets, Heof. reflexivity.
Qed.

Lemma parseProgramLoop_throws f fns p :
  fromLexer p -> check Eof p = false ->
  throws (parseProgramLoop F stof (S (S (S f))) fns p).
Proof.
  intros Hp Heof. apply post_False_throws.
  cbn [parseProgramLoop]. rewrite bind_gets, Heof. cbn [negb].
  eapply post_bind; [apply (parseFunction_throws f p Hp)|].
  intros a s [].
Qed.

End Grammar.

End ParserFacts.

Lemma TokenType_eqb_eq a b : TokenType_eqb a b = true <-> a = b.
Proof.
  unfold TokenType_eqb. destruct (TokenType_eq_dec a b); split; congruence.
Qed.

(** ** Running the lexer over a number *)

Module NumberFacts.
Import Lexer.

Lemma strlen_app s1 s2 :
  String.length (s1 ++ s2) = String.length s1 + String.length s2.
Proof. induction s1 as [|c s1 IH]; simpl; [reflexivity | now rewrite IH]. Qed.

Lemma at_past s : forall k, String.length s <= k -> at_ s k = NUL.
Proof.
  unfold at_. induction s as [|c s IH]; intros k Hk; [reflexivity|].
  destruct k as [|k]; simpl in *; [lia|]. apply IH. lia.
Qed.

Lemma at_app pre s k : at_ (pre ++ s) (String.length pre + k) = at_ s k.
Proof.
  unfold at_. now rewrite (Nat.add_comm _ k), <- append_correct2.
Qed.

Lemma peek_app pre s k ln cl :
  peek k (mk (pre ++ s) (String.length pre) ln cl) = at_ s k.
Proof.
  unfold peek, length. cbn [source pos]. rewrite strlen_app.
  destruct (Nat.leb_spec (String.length pre + String.length s) (String.length pre + k)).
  - symmetry. apply at_past. lia.
  - apply at_app.
Qed.

Lemma app_snoc pre d s : (pre ++ String d "") ++ s = pre ++ String d s.
Proof. induction pre as [|c pre IH]; simpl; [reflexivity | now rewrite IH]. Qed.

Lemma substring_prefix ds rest :
  String.substring 0 (String.length ds) (ds ++ rest) = ds.
Proof.
  induction ds as [|c ds IH]; simpl; [now destruct rest | now rewrite IH].
Qed.

Lemma between_disjoint lo hi lo' hi' c :
  (hi < lo')%N -> between lo hi c = true -> between lo' hi' c = false.
Proof.
  unfold between. intros Hlt H. apply andb_true_iff in H as [_ H].
  apply N.leb_le in H. apply andb_false_iff. left. apply N.leb_gt. lia.
Qed.

Lemma between_below lo hi lo' hi' c :
  (hi' < lo)%N -> between lo hi c = true -> between lo' hi' c = false.
Proof.
  unfold between. intros Hlt H. apply andb_true_iff in H as [H _].
  apply N.leb_le in H. apply andb_false_iff. right. apply N.leb_gt. lia.
Qed.

Lemma isdigit_not_space c : isdigit c = true -> isspace c = false.
Proof.
  unfold isdigit, isspace. intros H.
  rewrite (between_below 48 57 9 13 c); auto; [|reflexivity].
  destruct (Ascii.eqb_spec c " ") as [E|_]; [|reflexivity].
  rewrite E in H. discriminate H.
Qed.

Lemma isdigit_not_alpha c : isdigit c = true -> isalpha c = false.
Proof.
  unfold isdigit, isalpha. intros H.
  rewrite (between_disjoint 48 57 65 90 c), (between_disjoint 48 57 97 122 c);
    auto; reflexivity.
Qed.

(** A character that is neither a newline nor a tab moves the column by one. *)
Lemma advance_plain src p ln cl :
  p < String.length src ->
  Ascii.eqb (at_ src p) NL = false -> Ascii.eqb (at_ src p) TAB = false ->
  advance (mk src p ln cl) = Ok (at_ src p) (mk src (S p) ln (cl + 1)).
Proof.
  intros Hp Hnl Htab. unfold advance, length. cbn [source pos line col].
  destruct (Nat.leb_spec (String.length src) p); [lia|].
  now rewrite Hnl, Htab.
Qed.

(** A character test that a digit fails. *)
Ltac digit_differs H :=
  match goal with
  | |- context [Ascii.eqb ?c ?x] =>
      let E := fresh "E" in
      destruct (Ascii.eqb_spec c x) as [E|_];
      [rewrite E in H; vm_compute in H; discriminate H|]
  end.

Lemma digit_eqb c x : isdigit c = true -> isdigit x = false -> Ascii.eqb c x = false.
Proof.
  intros Hc Hx. destruct (Ascii.eqb_spec c x) as [E|_]; [congruence | reflexivity].
Qed.

Lemma peek_in_range l : peek 0 l <> NUL -> pos l < length l /\ peek 0 l = at_ (source l) (pos l).
Proof.
  unfold peek. rewrite Nat.add_0_r.
  destruct (Nat.leb_spec (length l) (pos l)); [congruence | auto].
Qed.

Lemma digitLoop_run ds : forall pre rest fuel ln cl,
  allDigits ds = true -> isdigit (at_ rest 0) = false ->
  String.length ds < fuel ->
  digitLoop fuel (mk (pre ++ ds ++ rest) (String.length pre) ln cl)
  = Ok tt (mk (pre ++ ds ++ rest) (String.length pre + String.length ds) ln
              (cl + Z.of_nat (String.length ds))).
Proof.
  induction ds as [|d ds IH]; intros pre rest fuel ln cl Hds Hrest Hfuel;
    (destruct fuel as [|fuel]; [simpl in Hfuel; lia|]);
    cbn [digitLoop]; rewrite bind_gets, peek_app.
  - cbn [append]. rewrite Hrest. cbn [String.length]. unfold ret.
    now rewrite Nat.add_0_r, Z.add_0_r.
  - cbn [allDigits] in Hds. apply andb_true_iff in Hds as [Hd Hds].
    change (at_ (String d ds ++ rest) 0) with d. rewrite Hd.
    assert (Hat : at_ (pre ++ String d ds ++ rest) (String.length pre) = d).
    { rewrite <- (Nat.add_0_r (String.length pre)). now rewrite at_app. }
    unfold bind. rewrite advance_plain.
    + change (String d ds ++ rest) with (String d (ds ++ rest)).
      rewrite <- (app_snoc pre d (ds ++ rest)).
      replace (S (String.length pre)) with (String.length (pre ++ String d "")).
      2:{ rewrite strlen_app. simpl. lia. }
      rewrite IH; auto; [|simpl in Hfuel; lia].
      rewrite strlen_app. cbn [String.length].
      f_equal. f_equal; lia.
    + rewrite strlen_app. simpl. lia.
    + rewrite Hat. now apply digit_eqb.
    + rewrite Hat. now apply digit_eqb.
Qed.

Lemma skip_none l :
  isspace (peek 0 l) = false -> Ascii.eqb (peek 0 l) "/" = false ->
  skipWhitespaceAndComments l = Ok tt l.
Proof.
  intros Hsp Hsl. unfold skipWhitespaceAndComments, with_remaining.
  cbn [skipLoop]. rewrite !bind_gets, Hsp, Hsl. reflexivity.
Qed.

(** On a digit, [nextToken] re-reads the digit in [number], the column
    having moved once already. *)
Lemma nextToken_digit src p ln cl :
  isdigit (peek 0 (mk src p ln cl)) = true ->
  nextToken (mk src p ln cl) = number (mk src p ln (cl + 1)).
Proof.
  intros Hd.
  assert (Hn : peek 0 (mk src p ln cl) <> NUL).
  { intros E. rewrite E in Hd. discriminate. }
  destruct (peek_in_range _ Hn) as [Hp Hat]. cbn [source pos length] in Hp, Hat.
  rewrite Hat in Hd.
  unfold nextToken, bind at 1.
  rewrite skip_none; rewrite ?Hat;
    [|now apply isdigit_not_space|now apply digit_eqb].
  rewrite bind_gets. cbn [pos].
  destruct (Nat.leb_spec (length (mk src p ln cl)) p); [unfold length in *; simpl in *; lia|].
  unfold bind at 1. rewrite advance_plain; [|assumption|now apply digit_eqb..].
  rewrite !bind_gets. cbv zeta.
  set (c := at_ src p) in *.
  repeat digit_differs Hd.
  rewrite (isdigit_not_alpha c Hd). cbn [orb]. rewrite Hd.
  reflexivity.
Qed.

(** On a full stop, [nextToken] throws a [LexerError]. *)
Lemma nextToken_dot src p ln cl :
  peek 0 (mk src p ln cl) = "."%char ->
  nextToken (mk src p ln cl)
  = Throw (LexerErr (error "Unexpected character: ." (mk src (S p) ln (cl + 1))))
          (mk src (S p) ln (cl + 1)).
Proof.
  intros Hd.
  assert (Hn : peek 0 (mk src p ln cl) <> NUL) by (rewrite Hd; discriminate).
  destruct (peek_in_range _ Hn) as [Hp Hat]. cbn [source pos length] in Hp, Hat.
  rewrite Hat in Hd.
  unfold nextToken, bind at 1.
  rewrite skip_none; rewrite ?Hat, ?Hd; [|reflexivity..].
  rewrite bind_gets. cbn [pos].
  destruct (Nat.leb_spec (length (mk src p ln cl)) p); [unfold length in *; simpl in *; lia|].
  unfold bind at 1. rewrite advance_plain; rewrite ?Hd; [|assumption|reflexivity..].
  reflexivity.
Qed.

End NumberFacts.

(** ** The layout of a formatted diagnostic *)

Module FormatFacts.

Lemma substring_empty n m : String.substring n m "" = "".
Proof. destruct n, m; reflexivity. Qed.

Lemma substring_0_0 s : String.substring 0 0 s = "".
Proof. now destruct s. Qed.

Lemma rem_of_nat v : Z.rem (Z.of_nat v) 4 = Z.of_nat (v mod 4).
Proof.
  rewrite Z.rem_mod_nonneg by lia.
  now rewrite Nat2Z.inj_mod.
Qed.

Lemma tab_step v :
  (Z.of_nat v + (4 - Z.rem (Z.of_nat v) 4))%Z = Z.of_nat (v + (4 - v mod 4)).
Proof.
  rewrite rem_of_nat.
  pose proof (Nat.mod_upper_bound v 4 ltac:(discriminate)). lia.
Qed.

(** The loop of [visualColumn], resumed at index [length pre] with the
    width [v] reached so far, ends with the width of what is left of the
    first [col - 1] characters. *)
Lemma visualColumnLoop_width col rest : forall pre fuel v,
  String.length rest <= fuel ->
  visualColumnLoop fuel (pre ++ rest) col 4 (String.length pre) (Z.of_nat v)
  = Z.of_nat (visualWidth
                (String.substring 0 (Z.to_nat (col - 1 - Z.of_nat (String.length pre))) rest)
                v).
Proof.
  induction rest as [|c rest IH]; intros pre fuel v Hfuel.
  - rewrite substring_empty. cbn [visualWidth].
    destruct fuel as [|fuel]; [reflexivity|]. cbn [visualColumnLoop].
    rewrite NumberFacts.strlen_app. cbn [String.length].
    rewrite Nat.add_0_r, Nat.ltb_irrefl, andb_false_r. reflexivity.
  - destruct fuel as [|fuel]; [simpl in Hfuel; lia|]. cbn [visualColumnLoop].
    destruct (Z.ltb_spec (Z.of_nat (String.length pre)) (col - 1)) as [Hlt|Hge].
    + assert (Hin : (String.length pre <? String.length (pre ++ String c rest)) = true).
      { apply Nat.ltb_lt. rewrite NumberFacts.strlen_app. simpl. lia. }
      rewrite Hin. cbn [andb].
      assert (Hat : at_ (pre ++ String c rest) (String.length pre) = c).
      { rewrite <- (Nat.add_0_r (String.length pre)). now rewrite NumberFacts.at_app. }
      rewrite Hat.
      replace (Z.to_nat (col - 1 - Z.of_nat (String.length pre)))
        with (S (Z.to_nat (col - 1 - Z.of_nat (String.length (pre ++ String c ""))))).
      2:{ rewrite NumberFacts.strlen_app. simpl. lia. }
      cbn [String.substring visualWidth].
      rewrite <- (NumberFacts.app_snoc pre c rest).
      replace (S (String.length pre)) with (String.length (pre ++ String c "")).
      2:{ rewrite NumberFacts.strlen_app. simpl. lia. }
      destruct (Ascii.eqb c TAB).
      * rewrite tab_step. apply IH. simpl in Hfuel. lia.
      * replace (Z.of_nat v + 1)%Z with (Z.of_nat (S v)) by lia.
        apply IH. simpl in Hfuel. lia.
    + cbn [andb].
      replace (Z.to_nat (col - 1 - Z.of_nat (String.length pre))) with 0 by lia.
      now rewrite substring_0_0.
Qed.

Lemma visualColumn_width line col :
  visualColumn line col 4 = Z.of_nat (visualWidth (beforeColumn line col) 0).
Proof.
  unfold visualColumn, beforeColumn.
  pose proof (visualColumnLoop_width col line "" (String.length line) 0 (le_n _)) as H.
  cbn [String.length Z.of_nat append] in H. rewrite Z.sub_0_r in H. exact H.
Qed.

Lemma expandTabs_noTabs s n : noTabs s = true -> expandTabs s n = s.
Proof.
  induction s as [|c s IH]; [reflexivity|]. cbn [noTabs expandTabs].
  intros H. apply andb_true_iff in H as [Hc Hs].
  apply negb_true_iff in Hc. rewrite Hc. now rewrite IH.
Qed.

End FormatFacts.

(** * The claims *)

(** C1. On [fn id(x: Int) -> Int { return x; }] the parser does not return
    the one-function program: the lexer hands [Int] over as an [Identifier]
    token, [isTypeToken] refuses it, and [parseProgram] throws
    "Expected parameter type" with [Int] as the current token. *)
Theorem parseProgram_id_function_throws :
  forall (F : Type) (stof : string -> exn + F) (f : nat),
    Parser.parseSource F stof (3 + f) "fn id(x: Int) -> Int { return x; }"
    = Throw (RuntimeError "Expected parameter type")
            (Parser.mk (Lexer.mk "fn id(x: Int) -> Int { return x; }" 12 1 17)
                       (mkToken Identifier "Int" 1 14)).
Proof.
  intros F stof f. vm_compute. reflexivity.
Qed.

(** C2. For every input text, [parseProgram] (run as the driver runs it, with
    any recursion budget of at least 3) throws or returns a [Program] with an
    empty function list; it returns exactly when the first token of the input
    is the end-of-input token, which is exactly when skipping whitespace and
    comments reaches the end of the input; and no token coming out of the
    lexer has one of the six type-name kinds that [isTypeToken] accepts. *)
Theorem parseProgram_never_yields_a_function :
  forall (F : Type) (stof : string -> exn + F) (f : nat) (text : string),
    let r := Parser.parseSource F stof (3 + f) text in
    (throws r \/ exists p, r = Ok (mkProgram []) p)
    /\ ((exists prog p, r = Ok prog p) <->
        (exists tok l, Lexer.nextToken (Lexer.new text) = Ok tok l /\ type tok = Eof))
    /\ ((exists tok l, Lexer.nextToken (Lexer.new text) = Ok tok l /\ type tok = Eof) <->
        (exists l, Lexer.skipWhitespaceAndComments (Lexer.new text) = Ok tt l
                   /\ Lexer.length l <= Lexer.pos l))
    /\ (forall l tok l',
          Lexer.nextToken l = Ok tok l' -> Parser.isTypeToken (type tok) = false).
Proof.
  intros F stof f text r.
  assert (Hlex : forall l tok l',
             Lexer.nextToken l = Ok tok l' -> Parser.isTypeToken (type tok) = false).
  { intros l tok l' H.
    exact (proj1 (proj2 (post_Ok _ _ _ _ (LexerFacts.nextToken_lexed l) H))). }
  assert (Heof : (exists tok l, Lexer.nextToken (Lexer.new text) = Ok tok l /\ type tok = Eof) <->
                 (exists l, Lexer.skipWhitespaceAndComments (Lexer.new text) = Ok tt l
                            /\ Lexer.length l <= Lexer.pos l)).
  { split.
    - intros (tok & l & H & Hty). exists l.
      exact (proj2 (proj2 (post_Ok _ _ _ _ (LexerFacts.nextToken_lexed _) H)) Hty).
    - intros (l & Hskip & Hend). eexists _, l.
      split; [exact (LexerFacts.nextToken_at_end _ _ Hskip Hend) | reflexivity]. }
  split; [|split; [|split; [exact Heof | exact Hlex]]]; clear Heof; subst r;
    unfold Parser.parseSource, Parser.runOn, Parser.new, Parser.advance;
    cbn [Parser.lexer Parser.current Parser.parseProgram];
    change (3 + f) with (S (S (S f)));
    destruct (Lexer.nextToken (Lexer.new text)) as [tok l|e l|] eqn:Hfirst;
    try (exfalso; exact (LexerFacts.nextToken_total _ Hfirst)).
  - destruct (Parser.check Eof (Parser.mk l tok)) eqn:Heof.
    + right. eexists. now apply ParserFacts.parseProgramLoop_eof.
    + left. apply ParserFacts.parseProgramLoop_throws; [|exact Heof].
      exact (Hlex _ _ _ Hfirst).
  - left. now exists e, (Parser.mk l (mkToken Eof "" 0 0)).
  - destruct (Parser.check Eof (Parser.mk l tok)) eqn:Heof.
    + cbv beta iota. unfold Parser.parseProgram.
      rewrite (ParserFacts.parseProgramLoop_eof F stof _ [] _ Heof).
      apply TokenType_eqb_eq in Heof. cbn in Heof.
      split; intros _; [now exists tok, l | now eexists _, _].
    + destruct (ParserFacts.parseProgramLoop_throws F stof f [] (Parser.mk l tok)
                  (Hlex _ _ _ Hfirst) Heof) as (e & p' & Hthrow).
      cbv beta iota. unfold Parser.parseProgram. rewrite Hthrow.
      split; [intros (prog & q & [=])|].
      intros (tok' & l' & [= <- <-] & Hty).
      apply TokenType_eqb_eq in Hty. unfold Parser.check in Heof. cbn in Heof.
      congruence.
  - split; [intros (prog & q & [=]) | intros (tok' & l' & [=] & _)].
Qed.

(** C3. On [1 + 2 * 3] the expression parser nests the product under the
    sum, but each [BinaryExpr] stores the lexeme of the token after the
    operator ("2" and "3"), read from [current] once [match] has advanced
    past the operator. *)
Theorem parseExpression_precedence_operands :
  forall (F : Type) (stof : string -> exn + F) (f : nat),
    Parser.runOn "1 + 2 * 3" (Parser.parseExpression F stof (8 + f))
    = Ok (BinaryExpr "2" (IntExpr 1) (BinaryExpr "3" (IntExpr 2) (IntExpr 3)))
         (Parser.mk (Lexer.mk "1 + 2 * 3" 9 1 13) (mkToken Eof "" 1 13)).
Proof.
  intros F stof f. vm_compute. reflexivity.
Qed.

(** C4. On [1 - 2 - 3] the additive tier groups to the left, but the two
    [BinaryExpr] nodes store "2" and "3", the lexemes of the tokens after
    the two minus signs, and not "-". *)
Theorem parseExpression_left_assoc_operands :
  forall (F : Type) (stof : string -> exn + F) (f : nat),
    Parser.runOn "1 - 2 - 3" (Parser.parseExpression F stof (8 + f))
    = Ok (BinaryExpr "3" (BinaryExpr "2" (IntExpr 1) (IntExpr 2)) (IntExpr 3))
         (Parser.mk (Lexer.mk "1 - 2 - 3" 9 1 13) (mkToken Eof "" 1 13)).
Proof.
  intros F stof f. vm_compute. reflexivity.
Qed.

(** C5. After the statement proper, [parseStatement] returns at once when
    the current token is [}], consumes the token when it is [;], and
    otherwise throws "Expected `;` after statement"; a failure of the
    statement proper is passed on unchanged. Hence the last statement of a
    block parses without its semicolon, and a statement followed by another
    statement without a semicolon between them is refused. *)
Theorem parseStatement_terminator :
  forall (F : Type) (stof : string -> exn + F) (f : nat),
    (forall p : Parser.t,
        Parser.parseStatement F stof (S f) p
        = match Parser.statementHead F stof f p with
          | Ok stmt p1 =>
              if Parser.check RBrace p1 then Ok stmt p1
              else if Parser.check Semi p1 then
                match Parser.advance p1 with
                | Ok _ p2 => Ok stmt p2
                | Throw e p2 => Throw e p2
                | OutOfFuel => OutOfFuel
                end
              else Throw (RuntimeError "Expected `;` after statement") p1
          | Throw e p1 => Throw e p1
          | OutOfFuel => OutOfFuel
          end)
    /\ Parser.runOn "{ return 1; return 2 }" (Parser.parseBlock F stof (11 + f))
       = Ok [ReturnStmt (IntExpr 1); ReturnStmt (IntExpr 2)]
            (Parser.mk (Lexer.mk "{ return 1; return 2 }" 22 1 27)
                       (mkToken Eof "" 1 27))
    /\ Parser.runOn "{ return 1 return 2 }" (Parser.parseBlock F stof (11 + f))
       = Throw (RuntimeError "Expected `;` after statement")
               (Parser.mk (Lexer.mk "{ return 1 return 2 }" 17 1 21)
                          (mkToken Return "return" 1 15)).
Proof.
  intros F stof f. split; [|split; vm_compute; reflexivity].
  intros p.
  change (Parser.parseStatement F stof (S f) p)
    with (bind (Parser.statementHead F stof f)
               (fun stmt => bind Parser.statementEnd (fun _ => ret stmt)) p).
  unfold bind at 1.
  destruct (Parser.statementHead F stof f p) as [stmt p1|e p1|]; try reflexivity.
  unfold Parser.statementEnd, Parser.expect, Parser.match_, bind, gets, ret, throw.
  destruct (Parser.check RBrace p1); cbn [negb]; [reflexivity|].
  destruct (Parser.check Semi p1); [|reflexivity].
  destruct (Parser.advance p1); reflexivity.
Qed.

(** C6. Lexing [''] throws a [LexerError] whose message is
    "Unexpected character: '": [nextToken] has no case for the quote. *)
Theorem nextToken_empty_char_literal :
  Lexer.nextToken (Lexer.new "''")
  = Throw (LexerErr (mkLexerError "Unexpected character: '" 1 1 "''"))
          (Lexer.mk "''" 1 1 2).
Proof. vm_compute. reflexivity. Qed.

(** C7, as the specification states it, fails on [1.]: the request for the
    token after [1] throws a [LexerError] out of the lexer. *)
Lemma stray_dot_is_a_lexer_error :
  Lexer.nextToken (Lexer.new "1.")
    = Ok (mkToken Integer "1" 1 2) (Lexer.mk "1." 1 1 3)
  /\ Lexer.nextToken (Lexer.mk "1." 1 1 3)
    = Throw (LexerErr (mkLexerError "Unexpected character: ." 1 3 "1."))
            (Lexer.mk "1." 2 1 4)
  /\ ~ strayDotReachesParser "1.".
Proof.
  split; [vm_compute; reflexivity|].
  split; [vm_compute; reflexivity|].
  intros (tok & l1 & H1 & _ & _ & H2).
  vm_compute in H1. injection H1 as <- <-.
  eapply H2. vm_compute. reflexivity.
Qed.

(** C7, amended. For an input that begins with digits followed by a [.]
    that no digit follows, [nextToken] returns an [Integer] token whose
    lexeme is the digits and leaves the [.] unconsumed; the next call of
    [nextToken] throws the [LexerError] "Unexpected character: .", which
    the parser's [advance] passes on as it is. *)
Theorem number_leaves_stray_dot_to_lexer_error :
  forall (d : ascii) (ds rest : string),
    allDigits (String d ds) = true ->
    isdigit (at_ rest 0) = false ->
    let digits := String d ds in
    let text := digits ++ "." ++ rest in
    let n := Z.of_nat (String.length digits) in
    let tok := mkToken Integer digits 1 2 in
    let l1 := Lexer.mk text (String.length digits) 1 (2 + n) in
    let l2 := Lexer.mk text (S (String.length digits)) 1 (2 + n + 1) in
    let e := LexerErr (Lexer.error "Unexpected character: ." l2) in
    Lexer.nextToken (Lexer.new text) = Ok tok l1
    /\ Lexer.peek 0 l1 = "."%char
    /\ Lexer.nextToken l1 = Throw e l2
    /\ Parser.advance (Parser.mk l1 tok) = Throw e (Parser.mk l2 tok).
Proof.
  intros d ds rest Hds Hrest digits text n tok l1 l2 e.
  assert (Hpeek : Lexer.peek 0 l1 = "."%char).
  { unfold l1, text. now rewrite NumberFacts.peek_app. }
  assert (Hnext : Lexer.nextToken l1 = Throw e l2).
  { unfold l1. now rewrite NumberFacts.nextToken_dot. }
  split; [|split; [exact Hpeek|split; [exact Hnext|]]].
  - unfold Lexer.new.
    rewrite NumberFacts.nextToken_digit.
    2:{ cbn [allDigits] in Hds. apply andb_true_iff in Hds as [Hd _]. exact Hd. }
    unfold Lexer.number. rewrite !bind_gets. cbn [Lexer.pos Lexer.col Lexer.line].
    unfold bind at 1, Lexer.with_remaining.
    pose proof (NumberFacts.digitLoop_run digits "" ("." ++ rest)
                  (S (Lexer.remaining (Lexer.mk text 0 1 (1 + 1)))) 1 (1 + 1)%Z
                  Hds eq_refl) as Hrun.
    change ("" ++ digits ++ "." ++ rest) with text in Hrun.
    change (String.length "") with 0 in Hrun.
    rewrite Hrun; clear Hrun.
    2:{ unfold Lexer.remaining, Lexer.length, text. cbn [Lexer.source Lexer.pos].
        rewrite NumberFacts.strlen_app. lia. }
    cbn [Nat.add]. rewrite !bind_gets.
    change (Lexer.mk text (String.length digits) 1 (1 + 1 + Z.of_nat (String.length digits)))
      with (Lexer.mk (digits ++ "." ++ rest) (String.length digits) 1 (1 + 1 + n)).
    rewrite !NumberFacts.peek_app.
    change (at_ ("." ++ rest) 0) with "."%char.
    change (at_ ("." ++ rest) 1) with (at_ rest 0).
    rewrite Hrest. cbn [Ascii.eqb Bool.eqb andb].
    rewrite bind_ret, bind_gets. unfold ret. cbn [Lexer.pos Lexer.source].
    rewrite Nat.sub_0_r, NumberFacts.substring_prefix.
    reflexivity.
  - unfold Parser.advance. cbn [Parser.lexer Parser.current]. now rewrite Hnext.
Qed.

Lemma number_leaves_stray_dot_witness :
  allDigits "12" = true
  /\ isdigit (at_ " + x" 0) = false
  /\ Lexer.nextToken (Lexer.new "12. + x")
     = Ok (mkToken Integer "12" 1 2) (Lexer.mk "12. + x" 2 1 4)
  /\ Lexer.nextToken (Lexer.mk "12. + x" 2 1 4)
     = Throw (LexerErr (mkLexerError "Unexpected character: ." 1 4 "12. + x"))
             (Lexer.mk "12. + x" 3 1 5).
Proof.
  split; [reflexivity|]. split; [reflexivity|].
  pose proof (number_leaves_stray_dot_to_lexer_error "1" "2" " + x" eq_refl eq_refl)
    as (H1 & _ & H2 & _).
  split; [exact H1 | exact H2].
Defined.

(** C8. [true] and [false] are lexed as [Identifier] tokens, the keyword
    table having no entry for them, and in expression position they parse
    to [VarExpr] nodes. *)
Theorem true_false_are_identifiers :
  forall (F : Type) (stof : string -> exn + F) (f : nat),
    Lexer.nextToken (Lexer.new "true")
      = Ok (mkToken Identifier "true" 1 2) (Lexer.mk "true" 4 1 6)
    /\ Lexer.nextToken (Lexer.new "false")
      = Ok (mkToken Identifier "false" 1 2) (Lexer.mk "false" 5 1 7)
    /\ Parser.runOn "true" (Parser.parseExpression F stof (7 + f))
      = Ok (VarExpr "true")
           (Parser.mk (Lexer.mk "true" 4 1 6) (mkToken Eof "" 1 6))
    /\ Parser.runOn "false" (Parser.parseExpression F stof (7 + f))
      = Ok (VarExpr "false")
           (Parser.mk (Lexer.mk "false" 5 1 7) (mkToken Eof "" 1 7)).
Proof.
  intros F stof f. repeat split; vm_compute; reflexivity.
Qed.

(** C9, as the specification states it, fails on the diagnostic of the
    character [@] after [a] and a tab: the first line starts with
    "Lexer error", and the tab is displayed as four spaces where the next
    4-column stop is three spaces away. *)
Lemma formatMessage_is_not_the_stated_format :
  let line := "a" ++ String TAB "@" in
  let e := mkLexerError "Unexpected character: @" 1 5 line in
  (exists l1 l2,
      Lexer.nextToken (Lexer.new line) = Ok (mkToken Identifier "a" 1 2) l1
      /\ Lexer.nextToken l1 = Throw (LexerErr e) l2)
  /\ formatMessage e
     = "Lexer error at line 1, col 5: Unexpected character: @" ++ nl
       ++ "a    @" ++ nl ++ "     ^"
  /\ specFormat "Lex" e
     = "Lex error at line 1, col 5: Unexpected character: @" ++ nl
       ++ "a   @" ++ nl ++ "     ^"
  /\ formatMessage e <> specFormat "Lex" e
  /\ formatMessage e <> specFormat "Parse" e.
Proof.
  cbv zeta. split; [|split; [|split; [|split]]].
  - eexists _, _. split; vm_compute; reflexivity.
  - vm_compute; reflexivity.
  - vm_compute; reflexivity.
  - vm_compute. discriminate.
  - vm_compute. discriminate.
Qed.

(** C9, amended. The formatted diagnostic of a [LexerError] starts with the
    line "Lexer error at line L, col C: <message>"; when the stored source
    line is empty there is nothing more; otherwise a display line follows,
    and then a line of spaces ending in a caret, the number of spaces being
    the width of the first C-1 characters of the source line with tabs
    moving to the next 4-column stop; a source line without tabs is
    displayed as it is. *)
Theorem formatMessage_layout :
  forall e : LexerError,
    let header := "Lexer error at line " ++ show_int (eline e) ++ ", col "
                  ++ show_int (ecol e) ++ ": " ++ message e ++ nl in
    let caret := spaces (visualWidth (beforeColumn (sourceLine e) (ecol e)) 0) ++ "^" in
    (sourceLine e = "" -> formatMessage e = header)
    /\ (sourceLine e <> "" ->
        exists displayLine,
          formatMessage e = header ++ displayLine ++ nl ++ caret
          /\ (noTabs (sourceLine e) = true -> displayLine = sourceLine e)).
Proof.
  intros e header caret. unfold formatMessage. fold header. split.
  - intros ->. reflexivity.
  - intros Hne. exists (expandTabs (sourceLine e) 4). split.
    + destruct (sourceLine e) as [|c s] eqn:Hs; [contradiction|].
      unfold caret. rewrite FormatFacts.visualColumn_width, Nat2Z.id. reflexivity.
    + apply FormatFacts.expandTabs_noTabs.
Qed.

Lemma formatMessage_layout_witness :
  sourceLine (mkLexerError "Unexpected character: @" 1 4 "x = @") <> ""
  /\ noTabs "x = @" = true
  /\ formatMessage (mkLexerError "Unexpected character: @" 1 4 "x = @")
     = "Lexer error at line 1, col 4: Unexpected character: @" ++ nl
       ++ "x = @" ++ nl ++ "   ^".
Proof.
  split; [discriminate|]. split; [reflexivity|].
  destruct (proj2 (formatMessage_layout
                     (mkLexerError "Unexpected character: @" 1 4 "x = @"))
                  ltac:(discriminate)) as (displayLine & Hfmt & Hline).
  rewrite Hfmt, (Hline eq_refl). reflexivity.
Defined.

(** C10, as the specification states it, fails where the next token does
    not lex: on the buffer [@], [peekToken] throws and leaves the position
    and column after the offending character. *)
Lemma peekToken_not_pure_on_error :
  Lexer.peekToken (Lexer.new "@")
    = Throw (LexerErr (mkLexerError "Unexpected character: @" 1 1 "@"))
            (Lexer.mk "@" 1 1 2)
  /\ ~ pureLookahead (Lexer.new "@").
Proof.
  split; [vm_compute; reflexivity|].
  intros (tok & l' & H & _). vm_compute in H. discriminate H.
Qed.

(** C10, amended. On every lexer state [nextToken] returns or throws; when
    it returns a token, [peekToken] returns that token and leaves the lexer
    state (buffer, position, line, column) as it was; when it throws,
    [peekToken] throws the same exception, with the state where the failed
    [nextToken] left it. *)
Theorem peekToken_restores_when_nextToken_returns :
  forall l : Lexer.t,
    Lexer.nextToken l <> OutOfFuel
    /\ Lexer.peekToken l
       = match Lexer.nextToken l with
         | Ok tok _ => Ok tok l
         | Throw e l' => Throw e l'
         | OutOfFuel => OutOfFuel
         end.
Proof.
  intros l. split; [apply LexerFacts.nextToken_total|].
  unfold Lexer.peekToken.
  destruct (Lexer.nextToken l) as [tok l'|e l'|] eqn:H; try reflexivity.
  rewrite (LexerFacts.nextToken_source _ _ _ H). now destruct l.
Qed.

(** * Further properties of the code *)

(** ** Diagnostics: tab expansion and caret position *)

Module DisplayFacts.




Lemma visualWidth_bounds s : forall v,
  v + String.length s <= visualWidth s v <= v + 4 * String.length s.
Proof.
  induction s as [|c s IH]; intros v; cbn [visualWidth String.length]; [lia|].
  pose proof (Nat.mod_upper_bound v 4 ltac:(discriminate)).
  destruct (Ascii.eqb c TAB).
  - specialize (IH (v + (4 - v mod 4))). lia.
  - specialize (IH (S v)). lia.
Qed.

Lemma visualWidth_noTabs s : forall v,
  noTabs s = true -> visualWidth s v = v + String.length s.
Proof.
  induction s as [|c s IH]; intros v H; cbn [visualWidth String.length]; [lia|].
  cbn [noTabs] in H. apply andb_true_iff in H as [Hc Hs].
  apply negb_true_iff in Hc. rewrite Hc, IH by exact Hs. lia.
Qed.

Lemma length_substring_0 s : forall k,
  String.length (String.substring 0 k s) = Nat.min k (String.length s).
Proof.
  induction s as [|c s IH]; intros [|k]; cbn; auto.
Qed.

Lemma noTabs_substring_0 s : forall k,
  noTabs s = true -> noTabs (String.substring 0 k s) = true.
Proof.
  induction s as [|c s IH]; intros [|k] H; cbn; auto.
  cbn [noTabs] in H. apply andb_true_iff in H as [Hc Hs].
  now rewrite Hc, IH.
Qed.

End DisplayFacts.


(** X2. The caret offset computed by [visualColumn] with 4-column tab stops
    lies between the number [n] of characters before the column (none for a
    column below 2, all of the line for a column past its end) and [4 * n];
    it is [n] itself when the line has no tab. *)
Theorem visualColumn_bounds :
  forall (line : string) (col : Z),
    let n := Z.max 0 (Z.min (col - 1) (Z.of_nat (String.length line))) in
    (n <= visualColumn line col 4 <= 4 * n)%Z
    /\ (noTabs line = true -> visualColumn line col 4 = n).
Proof.
  intros line col n.
  rewrite FormatFacts.visualColumn_width. unfold beforeColumn.
  set (k := Z.to_nat (col - 1)).
  assert (Hn : n = Z.of_nat (Nat.min k (String.length line))) by (unfold n, k; lia).
  pose proof (DisplayFacts.visualWidth_bounds (String.substring 0 k line) 0) as Hb.
  rewrite DisplayFacts.length_substring_0 in Hb.
  split; [lia|].
  intros Hnt.
  rewrite DisplayFacts.visualWidth_noTabs
    by now apply DisplayFacts.noTabs_substring_0.
  rewrite DisplayFacts.length_substring_0. lia.
Qed.

Lemma visualColumn_bounds_witness :
  noTabs "let x = @" = true
  /\ visualColumn "let x = @" 9 4 = 8%Z.
Proof.
  split; [reflexivity|].
  exact (proj2 (visualColumn_bounds "let x = @" 9) eq_refl).
Defined.

(** ** Diagnostics: the source line of an error *)

Module LineFacts.
Import Lexer.

Lemma at_app_left s1 s2 j : j < String.length s1 -> at_ (s1 ++ s2) j = at_ s1 j.
Proof. intros H. unfold at_. now rewrite <- append_correct1. Qed.

Lemma noNewline_at line : forall j,
  noNewline line = true -> j < String.length line ->
  Ascii.eqb (at_ line j) NL = false.
Proof.
  induction line as [|c line IH]; intros j H Hj; [simpl in Hj; lia|].
  cbn [noNewline] in H. apply andb_true_iff in H as [Hc Hl].
  destruct j as [|j]; [now apply negb_true_iff in Hc|].
  apply (IH j Hl). simpl in Hj. lia.
Qed.

Lemma substring_skip pre s n :
  String.substring (String.length pre) n (pre ++ s) = String.substring 0 n s.
Proof. induction pre as [|c pre IH]; [reflexivity | exact IH]. Qed.

Section Line.

Variables pre line post : string.
Hypothesis Hline : noNewline line = true.
Hypothesis Hpre : pre = "" \/ exists pre', pre = pre' ++ nl.
Hypothesis Hpost : post = "" \/ exists post', post = String NL post'.

Let src := pre ++ line ++ post.

Lemma at_in_line j :
  j < String.length line -> Ascii.eqb (at_ src (String.length pre + j)) NL = false.
Proof.
  intros Hj. unfold src. rewrite NumberFacts.at_app, at_app_left by exact Hj.
  now apply noNewline_at.
Qed.

(** Walking back from inside the line stops at its first character. *)
Lemma lineStartLoop_line j :
  j <= String.length line ->
  lineStartLoop src (String.length pre + j) = String.length pre.
Proof.
  induction j as [|j IH]; intros Hj.
  - rewrite Nat.add_0_r. destruct Hpre as [E|[pre' E]].
    + unfold src. rewrite E. reflexivity.
    + assert (Hlen : String.length pre = S (String.length pre')).
      { rewrite E, NumberFacts.strlen_app. simpl. lia. }
      rewrite Hlen. cbn [lineStartLoop].
      unfold src. rewrite E. unfold nl. rewrite NumberFacts.app_snoc.
      rewrite <- (Nat.add_0_r (String.length pre')) at 1.
      rewrite NumberFacts.at_app. reflexivity.
  - rewrite Nat.add_succ_r. cbn [lineStartLoop].
    rewrite at_in_line by lia. cbn [negb]. apply IH. lia.
Qed.

(** Walking forward from inside the line stops at its end. *)
Lemma lineEndLoop_line fuel : forall j,
  j <= String.length line -> String.length line - j <= fuel ->
  lineEndLoop fuel src (String.length pre + j)
  = String.length pre + String.length line.
Proof.
  assert (Hlen : String.length src
                 = String.length pre + (String.length line + String.length post)).
  { unfold src. now rewrite !NumberFacts.strlen_app. }
  assert (Hstop : forall fuel',
             lineEndLoop fuel' src (String.length pre + String.length line)
             = String.length pre + String.length line).
  { intros [|fuel']; [reflexivity|]. cbn [lineEndLoop].
    destruct Hpost as [E|[post' E]].
    - rewrite Hlen, E. cbn [String.length].
      replace (String.length pre + String.length line
               <? String.length pre + (String.length line + 0)) with false; [reflexivity|].
      symmetry. apply Nat.ltb_ge. lia.
    - unfold src at 2. rewrite E.
      replace (pre ++ line ++ String NL post') with ((pre ++ line) ++ String NL post').
      2:{ clear. induction pre as [|c p IH]; [reflexivity | simpl; now rewrite IH]. }
      rewrite <- NumberFacts.strlen_app.
      rewrite <- (Nat.add_0_r (String.length (pre ++ line))) at 2.
      rewrite NumberFacts.at_app. cbn [at_ String.get].
      now rewrite andb_false_r. }
  induction fuel as [|fuel IH]; intros j Hj Hfuel.
  - replace j with (String.length line) by lia. apply Hstop.
  - destruct (Nat.eq_dec j (String.length line)) as [->|Hne]; [apply Hstop|].
    cbn [lineEndLoop]. rewrite at_in_line by lia.
    replace (String.length pre + j <? String.length src) with true.
    2:{ symmetry. apply Nat.ltb_lt. lia. }
    cbn [negb andb]. rewrite <- Nat.add_succ_r. apply IH; lia.
Qed.

End Line.

End LineFacts.

(** X3. [getCurrentLine] returns the whole text of the line that holds the
    last consumed character (the character before [pos]), without its
    newline, wherever in the line that character stands. *)
Theorem getCurrentLine_is_the_line :
  forall (pre line post : string) (p : nat) (ln cl : Z),
    noNewline line = true ->
    (pre = "" \/ exists pre', pre = pre' ++ nl) ->
    (post = "" \/ exists post', post = String NL post') ->
    String.length pre < p <= String.length pre + String.length line ->
    Lexer.getCurrentLine (Lexer.mk (pre ++ line ++ post) p ln cl) = line.
Proof.
  intros pre line post p ln cl Hline Hpre Hpost Hp.
  unfold Lexer.getCurrentLine, Lexer.length. cbn [Lexer.pos Lexer.source].
  destruct (Nat.eqb_spec p 0) as [->|_]; [lia|].
  replace (p - 1) with (String.length pre + (p - 1 - String.length pre)) by lia.
  rewrite (LineFacts.lineStartLoop_line pre line post Hline Hpre) by lia.
  pose proof (LineFacts.lineEndLoop_line pre line post Hline Hpost
                (String.length (pre ++ line ++ post) - String.length pre) 0) as Hend.
  rewrite Nat.add_0_r in Hend. rewrite Hend.
  - replace (String.length pre + String.length line - String.length pre)
      with (String.length line) by lia.
    now rewrite LineFacts.substring_skip, NumberFacts.substring_prefix.
  - lia.
  - rewrite !NumberFacts.strlen_app. lia.
Qed.

Lemma getCurrentLine_is_the_line_witness :
  noNewline "  x = @;" = true
  /\ ("fn f" ++ nl = "" \/ exists pre', "fn f" ++ nl = pre' ++ nl)
  /\ (String NL "}" = "" \/ exists post', String NL "}" = String NL post')
  /\ String.length ("fn f" ++ nl) < 12
     <= String.length ("fn f" ++ nl) + String.length "  x = @;"
  /\ Lexer.getCurrentLine
       (Lexer.mk (("fn f" ++ nl) ++ "  x = @;" ++ String NL "}") 12 2 8)
     = "  x = @;".
Proof.
  assert (H1 : noNewline "  x = @;" = true) by reflexivity.
  assert (H2 : "fn f" ++ nl = "" \/ exists pre', "fn f" ++ nl = pre' ++ nl)
    by (right; now exists "fn f").
  assert (H3 : String NL "}" = "" \/ exists post', String NL "}" = String NL post')
    by (right; now exists "}").
  assert (H4 : String.length ("fn f" ++ nl) < 12
               <= String.length ("fn f" ++ nl) + String.length "  x = @;")
    by (simpl; lia).
  split; [exact H1|]. split; [exact H2|]. split; [exact H3|]. split; [exact H4|].
  exact (getCurrentLine_is_the_line _ _ _ 12 2 8 H1 H2 H3 H4).
Defined.

(** ** The lexer state across [nextToken] *)

Module StateFacts.
Import Lexer.

Lemma onward_refl l : wellFormed l -> onward l l.
Proof. intros [Hp Hc]. repeat split; auto; lia. Qed.

Lemma onward_trans l1 l2 l3 : onward l1 l2 -> onward l2 l3 -> onward l1 l3.
Proof.
  unfold onward, length. intros (Hs & Hp & Hl & Hn & Hc) (Hs' & Hp' & Hl' & Hn' & Hc').
  rewrite Hs in Hl'. repeat split; try congruence; lia.
Qed.

Lemma onward_wellFormed l l' : onward l l' -> wellFormed l'.
Proof.
  unfold onward, wellFormed, length. intros (Hs & Hp & Hl & Hn & Hc).
  rewrite Hs. auto.
Qed.


Lemma lexSpec_step {A B} l l1 (m : M t A) (k : A -> M t B) P Q :
  onward l l1 ->
  lexSpec l1 (m l1) P ->
  (forall a l2, onward l l2 -> onward l1 l2 -> P a l2 -> lexSpec l (k a l2) Q) ->
  lexSpec l (bind m k l1) Q.
Proof.
  intros H01 Hm Hk. unfold bind.
  destruct (m l1) as [a l2|e l2|]; cbn [lexSpec] in *.
  - destruct Hm as [H12 HP]. apply Hk; auto. eapply onward_trans; eauto.
  - destruct Hm as [H12 HF]. split; auto. eapply onward_trans; eauto.
  - contradiction.
Qed.

Lemma lexSpec_final {A} l l1 (o : outcome t A) (P Q : A -> t -> Prop) :
  onward l l1 ->
  lexSpec l1 o P ->
  (forall a l2, onward l l2 -> onward l1 l2 -> P a l2 -> Q a l2) ->
  lexSpec l o Q.
Proof.
  intros H01 Ho HPQ. destruct o as [a l2|e l2|]; cbn [lexSpec] in *.
  - destruct Ho as [H12 HP]. assert (onward l l2) by (eapply onward_trans; eauto).
    auto.
  - destruct Ho as [H12 HF]. split; auto. eapply onward_trans; eauto.
  - contradiction.
Qed.

Lemma lexSpec_throw {A} l l1 msg (Q : A -> t -> Prop) :
  onward l l1 ->
  (msg = "Unterminated block comment" \/ msg = "Unterminated string"
   \/ msg = "Invalid escape sequence"
   \/ exists c, msg = "Unexpected character: " ++ String c "") ->
  lexSpec l (throw_error msg l1) Q.
Proof. intros H Hm. split; [exact H | now exists msg]. Qed.

Lemma advance_onward l :
  wellFormed l ->
  lexSpec l (advance l)
          (fun c l' => c = peek 0 l
                       /\ (pos l < length l -> pos l' = S (pos l))).
Proof.
  intros [Hp Hc]. unfold advance, peek. rewrite Nat.add_0_r.
  destruct (Nat.leb_spec (length l) (pos l)) as [Hle|Hlt].
  - split; [apply onward_refl; now split|]. split; [reflexivity | lia].
  - pose proof (Z.rem_bound_pos (col l - 1) 4 ltac:(lia) ltac:(lia)).
    destruct (Ascii.eqb _ NL); [|destruct (Ascii.eqb _ TAB)];
      (split; [repeat split; cbn [source pos line col]; try reflexivity; lia | split; [reflexivity | intros _; reflexivity]]).
Qed.

Lemma peek_pos l : peek 0 l <> NUL -> pos l < length l.
Proof. intros H. exact (proj1 (NumberFacts.peek_in_range l H)). Qed.

(** [advance] over a character that [peek] showed: one position further. *)
Lemma advance_one {B} l l1 (k : ascii -> M t B) Q :
  onward l l1 -> peek 0 l1 <> NUL ->
  (forall c l2, onward l l2 -> pos l2 = S (pos l1) -> source l2 = source l1 ->
                lexSpec l (k c l2) Q) ->
  lexSpec l (bind advance k l1) Q.
Proof.
  intros H01 Hc Hk.
  eapply lexSpec_step; [exact H01 | apply advance_onward; eapply onward_wellFormed; eauto|].
  intros c l2 H02 H12 [_ Hpos]. apply Hk; auto.
  - apply Hpos. now apply peek_pos.
  - exact (proj1 H12).
Qed.

Lemma match_onward expected l :
  wellFormed l -> lexSpec l (match_ expected l) (fun _ _ => True).
Proof.
  intros Hwf. unfold match_. rewrite bind_gets.
  destruct (Ascii.eqb _ _).
  - eapply lexSpec_step; [now apply onward_refl | now apply advance_onward|].
    intros c l2 H02 _ _. split; auto.
  - split; [now apply onward_refl | exact I].
Qed.

Lemma remaining_after l1 l2 :
  pos l2 = S (pos l1) -> source l2 = source l1 -> pos l1 < length l1 ->
  remaining l2 < remaining l1.
Proof. unfold remaining, length. intros -> ->. lia. Qed.

(** A loop that consumes the characters accepted by [test], none of which
    is NUL: from where the first character is accepted, it moves on. *)
Section TestLoops.

Variable test : ascii -> bool.
Hypothesis test_NUL : test NUL = false.
Variable loop : nat -> M t unit.
Hypothesis loop_S : forall f l,
  loop (S f) l = (if test (peek 0 l) then bind advance (fun _ => loop f) l else Ok tt l).

Lemma testLoop_onward fuel : forall l,
  wellFormed l -> remaining l < fuel ->
  lexSpec l (loop fuel l) (fun _ l' => test (peek 0 l) = true -> pos l < pos l').
Proof.
  induction fuel as [|f IH]; intros l Hwf Hf; [lia|].
  rewrite loop_S. destruct (test (peek 0 l)) eqn:Hc.
  - assert (Hn : peek 0 l <> NUL) by (intros E; rewrite E, test_NUL in Hc; discriminate).
    apply advance_one; [now apply onward_refl | exact Hn|].
    intros c l2 H02 Hpos Hsrc.
    eapply lexSpec_final; [exact H02| |].
    + apply IH; [eapply onward_wellFormed; eauto|].
      pose proof (remaining_after l l2 Hpos Hsrc (peek_pos l Hn)). lia.
    + intros u l3 _ H23 _ _. destruct H23 as (_ & Hp & _). lia.
  - split; [now apply onward_refl | discriminate].
Qed.

End TestLoops.

Lemma identLoop_onward fuel l :
  wellFormed l -> remaining l < fuel ->
  lexSpec l (identLoop fuel l)
          (fun _ l' => (isalnum (peek 0 l) || Ascii.eqb (peek 0 l) "_")%bool = true ->
                       pos l < pos l').
Proof.
  apply (testLoop_onward (fun c => (isalnum c || Ascii.eqb c "_")%bool) eq_refl identLoop).
  intros f l0. cbn [identLoop]. rewrite bind_gets. now destruct (_ || _)%bool.
Qed.

Lemma digitLoop_onward fuel l :
  wellFormed l -> remaining l < fuel ->
  lexSpec l (digitLoop fuel l) (fun _ l' => isdigit (peek 0 l) = true -> pos l < pos l').
Proof.
  apply (testLoop_onward isdigit eq_refl digitLoop).
  intros f l0. cbn [digitLoop]. rewrite bind_gets. now destruct (isdigit _).
Qed.

Lemma lineCommentLoop_onward fuel l :
  wellFormed l -> remaining l < fuel ->
  lexSpec l (lineCommentLoop fuel l)
          (fun _ l' => (negb (Ascii.eqb (peek 0 l) NL)
                        && negb (Ascii.eqb (peek 0 l) NUL))%bool = true ->
                       pos l < pos l').
Proof.
  apply (testLoop_onward
           (fun c => (negb (Ascii.eqb c NL) && negb (Ascii.eqb c NUL))%bool)
           eq_refl lineCommentLoop).
  intros f l0. cbn [lineCommentLoop]. rewrite bind_gets. now destruct (_ && _)%bool.
Qed.

Lemma blockCommentLoop_onward fuel : forall l,
  wellFormed l -> remaining l < fuel ->
  lexSpec l (blockCommentLoop fuel l) (fun _ _ => True).
Proof.
  induction fuel as [|f IH]; intros l Hwf Hf; [lia|].
  cbn [blockCommentLoop]. rewrite !bind_gets.
  destruct (negb _); [|split; [now apply onward_refl | exact I]].
  destruct (Ascii.eqb (peek 0 l) NUL) eqn:Hc.
  { apply lexSpec_throw; [now apply onward_refl | auto]. }
  apply Ascii.eqb_neq in Hc.
  apply advance_one; [now apply onward_refl | exact Hc|].
  intros c l2 H02 Hpos Hsrc.
  eapply lexSpec_final; [exact H02| |auto].
  apply IH; [eapply onward_wellFormed; eauto|].
  pose proof (remaining_after l l2 Hpos Hsrc (peek_pos l Hc)). lia.
Qed.

Lemma with_remaining_onward {A} (loop : nat -> M t A) l Q :
  (forall fuel, remaining l < fuel -> lexSpec l (loop fuel l) Q) ->
  lexSpec l (with_remaining loop l) Q.
Proof. intros H. apply H. lia. Qed.

Lemma skipLoop_onward fuel : forall l,
  wellFormed l -> remaining l < fuel ->
  lexSpec l (skipLoop fuel l) (fun _ _ => True).
Proof.
  induction fuel as [|f IH]; intros l Hwf Hf; [lia|].
  cbn [skipLoop]. rewrite !bind_gets.
  assert (H00 : onward l l) by now apply onward_refl.
  assert (Hrec : forall l1, onward l l1 -> pos l < pos l1 ->
                 lexSpec l (skipLoop f l1) (fun _ _ => True)).
  { intros l1 H01 Hlt. eapply lexSpec_final; [exact H01| |auto].
    apply IH; [eapply onward_wellFormed; eauto|].
    destruct H01 as (Hs & _ & Hl & _). unfold remaining, length in *.
    rewrite Hs. lia. }
  destruct (isspace (peek 0 l)) eqn:Hsp.
  { assert (Hc : peek 0 l <> NUL).
    { intros E. rewrite E, isspace_NUL in Hsp. discriminate. }
    apply advance_one; [exact H00 | exact Hc|].
    intros c l2 H02 Hpos _. apply Hrec; [exact H02 | lia]. }
  destruct (Ascii.eqb (peek 0 l) "/") eqn:Hslash; cbn [andb];
    [|split; [exact H00 | exact I]].
  assert (Hc : peek 0 l <> NUL).
  { apply Ascii.eqb_eq in Hslash. rewrite Hslash. discriminate. }
  destruct (Ascii.eqb (peek 1 l) "/").
  { eapply lexSpec_step; [exact H00| |].
    - apply with_remaining_onward. intros fuel Hfuel.
      now apply lineCommentLoop_onward.
    - intros u l2 H02 _ Hmove. apply Hrec; [exact H02|].
      apply Hmove. apply Ascii.eqb_eq in Hslash. now rewrite Hslash. }
  destruct (Ascii.eqb (peek 1 l) "*"); [|split; [exact H00 | exact I]].
  apply advance_one; [exact H00 | exact Hc|].
  intros c l2 H02 Hpos _.
  eapply lexSpec_step;
    [exact H02 | apply advance_onward; eapply onward_wellFormed; eauto|].
  intros c3 l3 H03 H23 _.
  eapply lexSpec_step; [exact H03| |].
  { apply with_remaining_onward. intros fuel Hfuel.
    apply blockCommentLoop_onward; [eapply onward_wellFormed; eauto | exact Hfuel]. }
  intros u l4 H04 H34 _.
  eapply lexSpec_step;
    [exact H04 | apply advance_onward; eapply onward_wellFormed; eauto|].
  intros c5 l5 H05 H45 _.
  eapply lexSpec_step;
    [exact H05 | apply advance_onward; eapply onward_wellFormed; eauto|].
  intros c6 l6 H06 H56 _.
  apply Hrec; [exact H06|].
  destruct H23 as (_ & P23 & _), H34 as (_ & P34 & _),
           H45 as (_ & P45 & _), H56 as (_ & P56 & _). lia.
Qed.

Lemma skipWhitespaceAndComments_onward l :
  wellFormed l -> lexSpec l (skipWhitespaceAndComments l) (fun _ _ => True).
Proof.
  intros Hwf. apply with_remaining_onward. intros fuel Hf.
  now apply skipLoop_onward.
Qed.

Lemma stringLoop_onward fuel : forall value l,
  wellFormed l -> remaining l < fuel ->
  lexSpec l (stringLoop fuel value l) (fun _ _ => True).
Proof.
  induction fuel as [|f IH]; intros value l Hwf Hf; [lia|].
  cbn [stringLoop].
  assert (H00 : onward l l) by now apply onward_refl.
  eapply lexSpec_step; [exact H00 | now apply advance_onward|].
  intros c l2 H02 _ [Hc Hpos].
  destruct (Ascii.eqb c NUL) eqn:Hnul.
  { apply lexSpec_throw; auto. }
  apply Ascii.eqb_neq in Hnul. rewrite Hc in Hnul.
  specialize (Hpos (peek_pos l Hnul)).
  assert (Hrec : forall v l3, onward l l3 -> pos l2 <= pos l3 ->
                 lexSpec l (stringLoop f v l3) (fun _ _ => True)).
  { intros v l3 H03 Hle. eapply lexSpec_final; [exact H03| |auto].
    apply IH; [eapply onward_wellFormed; eauto|].
    destruct H03 as (Hs & _ & Hl & _). unfold remaining, length in *.
    rewrite Hs. lia. }
  destruct (Ascii.eqb c DQUOTE); [split; [exact H02 | exact I]|].
  destruct (Ascii.eqb c "\").
  - eapply lexSpec_step;
      [exact H02 | apply advance_onward; eapply onward_wellFormed; eauto|].
    intros e l3 H03 H23 _.
    assert (Hle : pos l2 <= pos l3) by (destruct H23 as (_ & P & _); exact P).
    repeat (destruct (Ascii.eqb e _); [now apply Hrec|]).
    apply lexSpec_throw; auto.
  - apply Hrec; [exact H02 | lia].
Qed.

Lemma find_tokenOk text ty ln cl :
  find text keywords = Some ty -> tokenOk (mkToken ty text ln cl) /\ ty <> Eof.
Proof.
  unfold keywords, find.
  repeat match goal with
         | |- context [String.eqb ?k text] =>
             destruct (String.eqb_spec k text) as [E|_];
             [subst text; intros [= <-]; split; [reflexivity | discriminate]|]
         end.
  discriminate.
Qed.

Lemma identifierOrKeyword_onward l :
  wellFormed l ->
  lexSpec l (identifierOrKeyword l)
          (fun tok l' => tokenOk tok /\ type tok <> Eof
                         /\ ((isalnum (peek 0 l) || Ascii.eqb (peek 0 l) "_")%bool = true ->
                             pos l < pos l')).
Proof.
  intros Hwf. unfold identifierOrKeyword. rewrite !bind_gets.
  eapply lexSpec_step; [now apply onward_refl| |].
  { apply with_remaining_onward. intros fuel Hf. now apply identLoop_onward. }
  intros u l2 H02 _ Hmove. rewrite bind_gets.
  destruct (find _ keywords) eqn:Hk.
  - destruct (find_tokenOk _ _ (line l) (col l) Hk) as [Hok Hne].
    split; [exact H02 | auto].
  - split; [exact H02|]. split; [exact Hk|]. split; [discriminate | exact Hmove].
Qed.

Lemma number_onward l :
  wellFormed l ->
  lexSpec l (number l)
          (fun tok l' => (type tok = Integer \/ type tok = Float)
                         /\ (isdigit (peek 0 l) = true -> pos l < pos l')).
Proof.
  intros Hwf. unfold number. rewrite !bind_gets.
  eapply lexSpec_step; [now apply onward_refl| |].
  { apply with_remaining_onward. intros fuel Hf. now apply digitLoop_onward. }
  intros u l2 H02 _ Hmove. rewrite !bind_gets.
  eapply lexSpec_step with (P := fun _ l3 => pos l2 <= pos l3); [exact H02| |].
  - destruct (_ && _)%bool.
    + eapply lexSpec_step;
        [apply onward_refl; eapply onward_wellFormed; eauto
        |apply advance_onward; eapply onward_wellFormed; eauto|].
      intros c l3 H23 _ _.
      eapply lexSpec_step; [exact H23| |].
      { apply with_remaining_onward. intros fuel Hf.
        apply digitLoop_onward; [eapply onward_wellFormed; eauto | exact Hf]. }
      intros u' l4 H24 _ _. split; [exact H24|].
      destruct H24 as (_ & P & _). exact P.
    + split; [apply onward_refl; eapply onward_wellFormed; eauto | cbn; lia].
  - intros isFloat l3 H03 _ Hle. rewrite bind_gets.
    split; [exact H03|]. split.
    + destruct isFloat; [now right | now left].
    + intros Hd. specialize (Hmove Hd). lia.
Qed.

Lemma string_onward l :
  wellFormed l ->
  lexSpec l (string_ l) (fun tok _ => type tok = String_).
Proof.
  intros Hwf. unfold string_. rewrite !bind_gets.
  eapply lexSpec_step; [now apply onward_refl | now apply advance_onward|].
  intros c l2 H02 _ _.
  eapply lexSpec_step; [exact H02| |].
  { apply with_remaining_onward. intros fuel Hf.
    apply stringLoop_onward; [eapply onward_wellFormed; eauto | exact Hf]. }
  intros value l3 H03 _ _. split; [exact H03 | reflexivity].
Qed.

(** A token built on the spot, the character consumed. *)
Ltac tok_now H := split; [exact H | split; [reflexivity | intros _; lia]].

Ltac tok_after_match H :=
  eapply lexSpec_step;
  [exact H | apply match_onward; eapply onward_wellFormed; exact H|];
  let m := fresh "m" in
  let l' := fresh "l" in
  let H0 := fresh "H0" in
  let H1 := fresh "H1" in
  let Hle := fresh "Hle" in
  intros m l' H0 H1 _;
  assert (Hle : pos _ <= pos l') by (destruct H1 as (_ & P & _); exact P);
  destruct m; try tok_now H0.

Lemma nextToken_onward l :
  wellFormed l ->
  lexSpec l (nextToken l)
          (fun tok l' => tokenOk tok /\ (type tok <> Eof -> pos l < pos l')).
Proof.
  intros Hwf. unfold nextToken.
  eapply lexSpec_step;
    [now apply onward_refl | now apply skipWhitespaceAndComments_onward|].
  intros u l1 H01 _ _. rewrite bind_gets.
  destruct (Nat.leb_spec (length l1) (pos l1)) as [Hend|Hin].
  { split; [exact H01|]. split; [reflexivity | intros H; now elim H]. }
  assert (Hp01 : pos l <= pos l1) by (destruct H01 as (_ & P & _); exact P).
  eapply lexSpec_step;
    [exact H01 | apply advance_onward; eapply onward_wellFormed; eauto|].
  intros c l2 H02 H12 [Hc Hpos]. specialize (Hpos Hin).
  rewrite !bind_gets. cbv zeta.
  do 7 (destruct (Ascii.eqb c _); [tok_now H02|]).
  destruct (Ascii.eqb c "+"); [tok_after_match H02|].
  destruct (Ascii.eqb c "-"); [tok_after_match H02; tok_after_match H0|].
  do 6 (destruct (Ascii.eqb c _); [tok_after_match H02|]).
  destruct (Ascii.eqb c DQUOTE).
  { eapply lexSpec_final;
      [exact H02 | apply string_onward; eapply onward_wellFormed; eauto|].
    intros tok l3 H03 H23 Hty. destruct H23 as (_ & P & _).
    unfold tokenOk. rewrite Hty. split; [exact I | intros _; lia]. }
  (* [pos--]: back on the character just read *)
  assert (Hback : forall k : M t Token,
             bind unread (fun _ => k) l2
             = k (mk (source l1) (pos l1) (line l2) (col l2))).
  { intros k. unfold bind, unread, modify. rewrite Hpos.
    now rewrite (proj1 H12). }
  set (l3 := mk (source l1) (pos l1) (line l2) (col l2)) in Hback.
  assert (H03 : onward l l3).
  { destruct H01 as (S1 & P1 & L1 & N1 & C1), H02 as (S2 & P2 & L2 & N2 & C2),
             H12 as (S12 & P12 & L12 & N12 & C12).
    unfold l3. repeat split; cbn [source pos line col]; auto; lia. }
  assert (Hpeek : peek 0 l3 = c).
  { rewrite Hc. unfold peek, l3, length. cbn [source pos].
    reflexivity. }
  destruct (isalpha c || Ascii.eqb c "_")%bool eqn:Hid.
  { rewrite Hback.
    eapply lexSpec_final;
      [exact H03 | apply identifierOrKeyword_onward; eapply onward_wellFormed; eauto|].
    intros tok l4 H04 H34 (Hok & Hne & Hmove). split; [exact Hok|]. intros _.
    rewrite Hpeek in Hmove.
    assert (pos l3 < pos l4).
    { apply Hmove. unfold isalnum. destruct (isalpha c); [reflexivity|].
      cbn [orb] in Hid. rewrite Hid. now rewrite orb_true_r. }
    unfold l3 in *. cbn [pos] in *. lia. }
  destruct (isdigit c) eqn:Hdig.
  { rewrite Hback.
    eapply lexSpec_final;
      [exact H03 | apply number_onward; eapply onward_wellFormed; eauto|].
    intros tok l4 H04 H34 (Hty & Hmove).
    rewrite Hpeek in Hmove. specialize (Hmove Hdig).
    split; [unfold tokenOk; destruct Hty as [-> | ->]; exact I|].
    intros _. unfold l3 in *. cbn [pos] in *. lia. }
  apply lexSpec_throw; [exact H02|]. right. right. right. now exists c.
Qed.

End StateFacts.

(** X4. Over a tab, [advance] moves the column to the next 4-column stop:
    the new column is past the old one by 1 to 4 and is 1 more than a
    multiple of 4; position and line move as for any other character. *)
Theorem advance_moves_to_the_next_tab_stop :
  forall l : Lexer.t,
    Lexer.peek 0 l = TAB ->
    (1 <= Lexer.col l)%Z ->
    exists l',
      Lexer.advance l = Ok TAB l'
      /\ Lexer.source l' = Lexer.source l
      /\ Lexer.pos l' = S (Lexer.pos l)
      /\ Lexer.line l' = Lexer.line l
      /\ (Lexer.col l < Lexer.col l' <= Lexer.col l + 4)%Z
      /\ ((Lexer.col l' - 1) mod 4 = 0)%Z.
Proof.
  intros l Hc Hcol.
  assert (Hn : Lexer.peek 0 l <> NUL) by (rewrite Hc; discriminate).
  destruct (NumberFacts.peek_in_range l Hn) as [Hp Hat]. rewrite Hc in Hat.
  unfold Lexer.advance.
  destruct (Nat.leb_spec (Lexer.length l) (Lexer.pos l)); [lia|].
  rewrite <- Hat. cbn [Ascii.eqb Bool.eqb TAB NL].
  eexists. split; [reflexivity|]. cbn [Lexer.source Lexer.pos Lexer.line Lexer.col].
  repeat split.
  - pose proof (Z.rem_bound_pos (Lexer.col l - 1) 4 ltac:(lia) ltac:(lia)). lia.
  - pose proof (Z.rem_bound_pos (Lexer.col l - 1) 4 ltac:(lia) ltac:(lia)). lia.
  - rewrite Z.rem_mod_nonneg by lia.
    replace (Lexer.col l + (4 - (Lexer.col l - 1) mod 4) - 1)%Z
      with ((Lexer.col l - 1) - (Lexer.col l - 1) mod 4 + 1 * 4)%Z by lia.
    rewrite Z.mod_add by lia.
    rewrite Zminus_mod, Zmod_mod, Z.sub_diag. reflexivity.
Qed.

Lemma advance_moves_to_the_next_tab_stop_witness :
  Lexer.peek 0 (Lexer.mk (String TAB "x") 0 1 2) = TAB
  /\ (1 <= 2)%Z
  /\ exists l',
      Lexer.advance (Lexer.mk (String TAB "x") 0 1 2) = Ok TAB l'
      /\ (2 < Lexer.col l' <= 2 + 4)%Z
      /\ ((Lexer.col l' - 1) mod 4 = 0)%Z.
Proof.
  split; [reflexivity|]. split; [lia|].
  destruct (advance_moves_to_the_next_tab_stop
              (Lexer.mk (String TAB "x") 0 1 2) eq_refl (Z.le_succ_diag_r 1))
    as (l' & Hadv & _ & _ & _ & Hcol & Hstop).
  exists l'. split; [exact Hadv | split; [exact Hcol | exact Hstop]].
Defined.

(** X5. From a well-formed lexer state (position inside the buffer, column
    at least 1), [nextToken] returns or throws in a well-formed state over
    the same buffer, position and line not before where they were; and a
    returned token other than end-of-input has consumed at least one
    character. *)
Theorem nextToken_moves_onward :
  forall l : Lexer.t,
    wellFormed l ->
    match Lexer.nextToken l with
    | Ok tok l' =>
        wellFormed l' /\ onward l l'
        /\ (type tok <> Eof -> Lexer.pos l < Lexer.pos l')
    | Throw _ l' => wellFormed l' /\ onward l l'
    | OutOfFuel => False
    end.
Proof.
  intros l Hwf. pose proof (StateFacts.nextToken_onward l Hwf) as H.
  destruct (Lexer.nextToken l) as [tok l'|e l'|]; cbn [lexSpec] in H.
  - destruct H as (Hon & _ & Hmove).
    split; [exact (StateFacts.onward_wellFormed _ _ Hon) | auto].
  - destruct H as (Hon & _).
    split; [exact (StateFacts.onward_wellFormed _ _ Hon) | auto].
  - exact H.
Qed.

Lemma nextToken_moves_onward_witness :
  wellFormed (Lexer.new "x + 1")
  /\ match Lexer.nextToken (Lexer.new "x + 1") with
     | Ok tok l' =>
         wellFormed l' /\ onward (Lexer.new "x + 1") l'
         /\ (type tok <> Eof -> Lexer.pos (Lexer.new "x + 1") < Lexer.pos l')
     | Throw _ l' => wellFormed l' /\ onward (Lexer.new "x + 1") l'
     | OutOfFuel => False
     end.
Proof.
  assert (Hwf : wellFormed (Lexer.new "x + 1")) by (split; cbn; lia).
  split; [exact Hwf | exact (nextToken_moves_onward _ Hwf)].
Defined.

(** X6. Every exception that [nextToken] throws from a well-formed state is
    a [LexerError] built by [Lexer::error] in the state of the throw: its
    message is one of "Unterminated block comment", "Unterminated string",
    "Invalid escape sequence" and "Unexpected character: c", its line is
    the lexer's line, its column is at least 1, and its source line is
    [getCurrentLine] of that state. *)
Theorem nextToken_throws_only_lexer_errors :
  forall (l l' : Lexer.t) (e : exn),
    wellFormed l ->
    Lexer.nextToken l = Throw e l' ->
    exists le,
      e = LexerErr le
      /\ (message le = "Unterminated block comment"
          \/ message le = "Unterminated string"
          \/ message le = "Invalid escape sequence"
          \/ exists c, message le = "Unexpected character: " ++ String c "")
      /\ eline le = Lexer.line l'
      /\ (1 <= ecol le)%Z
      /\ sourceLine le = Lexer.getCurrentLine l'.
Proof.
  intros l l' e Hwf Hthrow.
  pose proof (StateFacts.nextToken_onward l Hwf) as H.
  rewrite Hthrow in H. destruct H as (_ & msg & -> & Hmsg).
  eexists. split; [reflexivity|]. cbn [message eline ecol sourceLine Lexer.error].
  repeat split; auto.
  destruct (Z.ltb_spec 1 (Lexer.col l')); lia.
Qed.

Lemma nextToken_throws_only_lexer_errors_witness :
  wellFormed (Lexer.new "/* open")
  /\ Lexer.nextToken (Lexer.new "/* open")
     = Throw (LexerErr (mkLexerError "Unterminated block comment" 1 7 "/* open"))
             (Lexer.mk "/* open" 7 1 8)
  /\ exists le,
      LexerErr (mkLexerError "Unterminated block comment" 1 7 "/* open") = LexerErr le
      /\ (1 <= ecol le)%Z.
Proof.
  assert (Hwf : wellFormed (Lexer.new "/* open")) by (split; cbn; lia).
  assert (E : Lexer.nextToken (Lexer.new "/* open")
              = Throw (LexerErr (mkLexerError "Unterminated block comment" 1 7 "/* open"))
                      (Lexer.mk "/* open" 7 1 8))
    by (vm_compute; reflexivity).
  split; [exact Hwf|]. split; [exact E|].
  destruct (nextToken_throws_only_lexer_errors _ _ _ Hwf E)
    as (le & Hle & _ & _ & Hcol & _).
  exists le. split; [exact Hle | exact Hcol].
Defined.

(** X7. Every token that [nextToken] returns from a well-formed state has
    one of the kinds the lexer builds, with the lexeme that goes with it:
    a keyword, operator or punctuation token carries its spelling, the
    end-of-input token the empty text, an [Identifier] a text that is not
    a keyword; no token has kind [Print], [Char], [Bool] or a type-name
    kind. *)
Theorem nextToken_tokens_are_spelled :
  forall (l l' : Lexer.t) (tok : Token),
    wellFormed l ->
    Lexer.nextToken l = Ok tok l' ->
    tokenOk tok.
Proof.
  intros l l' tok Hwf Hret.
  pose proof (StateFacts.nextToken_onward l Hwf) as H.
  rewrite Hret in H. exact (proj1 (proj2 H)).
Qed.

Lemma nextToken_tokens_are_spelled_witness :
  wellFormed (Lexer.new "return x")
  /\ Lexer.nextToken (Lexer.new "return x")
     = Ok (mkToken Return "return" 1 2) (Lexer.mk "return x" 6 1 8)
  /\ tokenOk (mkToken Return "return" 1 2).
Proof.
  assert (Hwf : wellFormed (Lexer.new "return x")) by (split; cbn; lia).
  assert (E : Lexer.nextToken (Lexer.new "return x")
              = Ok (mkToken Return "return" 1 2) (Lexer.mk "return x" 6 1 8))
    by (vm_compute; reflexivity).
  split; [exact Hwf|]. split; [exact E|].
  exact (nextToken_tokens_are_spelled _ _ _ Hwf E).
Defined.

(** X8. Once [nextToken] has returned the end-of-input token, every further
    call returns the same token again and leaves the lexer where it is. *)
Theorem nextToken_stays_at_end :
  forall (l l' : Lexer.t) (tok : Token),
    Lexer.nextToken l = Ok tok l' ->
    type tok = Eof ->
    Lexer.nextToken l' = Ok tok l'.
Proof.
  intros l l' tok Hret Hty.
  destruct (proj2 (proj2 (post_Ok _ _ _ _ (LexerFacts.nextToken_lexed l) Hret)) Hty)
    as [Hskip Hend].
  pose proof (LexerFacts.nextToken_at_end l l' Hskip Hend) as Hret'.
  rewrite Hret in Hret'. injection Hret' as ->.
  apply LexerFacts.nextToken_at_end; [|exact Hend].
  assert (Hpeek : Lexer.peek 0 l' = NUL).
  { unfold Lexer.peek. rewrite Nat.add_0_r.
    destruct (Nat.leb_spec (Lexer.length l') (Lexer.pos l')); [reflexivity | lia]. }
  apply NumberFacts.skip_none; now rewrite Hpeek.
Qed.

Lemma nextToken_stays_at_end_witness :
  Lexer.nextToken (Lexer.mk "x // end" 1 1 3)
    = Ok (mkToken Eof "" 1 10) (Lexer.mk "x // end" 8 1 10)
  /\ type (mkToken Eof "" 1 10) = Eof
  /\ Lexer.nextToken (Lexer.mk "x // end" 8 1 10)
     = Ok (mkToken Eof "" 1 10) (Lexer.mk "x // end" 8 1 10).
Proof.
  assert (E : Lexer.nextToken (Lexer.mk "x // end" 1 1 3)
              = Ok (mkToken Eof "" 1 10) (Lexer.mk "x // end" 8 1 10))
    by (vm_compute; reflexivity).
  split; [exact E|]. split; [reflexivity|].
  exact (nextToken_stays_at_end _ _ _ E eq_refl).
Defined.

(** ** Running the lexer over a word *)

Module WordFacts.
Import Lexer.

Lemma identStart_not_space c : identStart c = true -> isspace c = false.
Proof.
  unfold identStart, isalpha, isspace. intros H.
  apply orb_true_iff in H as [H|H].
  - apply orb_true_iff in H as [H|H].
    + rewrite (NumberFacts.between_below 65 90 9 13 c); auto; [|reflexivity].
      destruct (Ascii.eqb_spec c " ") as [E|_]; [|reflexivity].
      rewrite E in H. discriminate H.
    + rewrite (NumberFacts.between_below 97 122 9 13 c); auto; [|reflexivity].
      destruct (Ascii.eqb_spec c " ") as [E|_]; [|reflexivity].
      rewrite E in H. discriminate H.
  - apply Ascii.eqb_eq in H. now subst c.
Qed.

Lemma identStart_not_digit c : identStart c = true -> isdigit c = false.
Proof.
  unfold identStart, isalpha, isdigit. intros H.
  apply orb_true_iff in H as [H|H].
  - apply orb_true_iff in H as [H|H].
    + now apply (NumberFacts.between_below 65 90 48 57 c).
    + now apply (NumberFacts.between_below 97 122 48 57 c).
  - apply Ascii.eqb_eq in H. now subst c.
Qed.

Lemma identChar_eqb c x : identChar c = true -> identChar x = false -> Ascii.eqb c x = false.
Proof.
  intros Hc Hx. destruct (Ascii.eqb_spec c x) as [E|_]; [congruence | reflexivity].
Qed.

Lemma identStart_char c : identStart c = true -> identChar c = true.
Proof.
  unfold identStart, identChar, isalnum. intros H.
  apply orb_true_iff in H as [H|H]; rewrite H; [reflexivity | apply orb_true_r].
Qed.

Lemma identLoop_run w : forall pre rest fuel ln cl,
  allIdent w = true -> identChar (at_ rest 0) = false ->
  String.length w < fuel ->
  identLoop fuel (mk (pre ++ w ++ rest) (String.length pre) ln cl)
  = Ok tt (mk (pre ++ w ++ rest) (String.length pre + String.length w) ln
              (cl + Z.of_nat (String.length w))).
Proof.
  induction w as [|d w IH]; intros pre rest fuel ln cl Hw Hrest Hfuel;
    (destruct fuel as [|fuel]; [simpl in Hfuel; lia|]);
    cbn [identLoop]; rewrite bind_gets, NumberFacts.peek_app.
  - cbn [append]. unfold identChar in Hrest. rewrite Hrest.
    cbn [String.length]. unfold ret. now rewrite Nat.add_0_r, Z.add_0_r.
  - cbn [allIdent] in Hw. apply andb_true_iff in Hw as [Hd Hw].
    change (at_ (String d w ++ rest) 0) with d.
    pose proof Hd as Hd'. unfold identChar in Hd'. rewrite Hd'.
    assert (Hat : at_ (pre ++ String d w ++ rest) (String.length pre) = d).
    { rewrite <- (Nat.add_0_r (String.length pre)). now rewrite NumberFacts.at_app. }
    unfold bind. rewrite NumberFacts.advance_plain.
    + change (String d w ++ rest) with (String d (w ++ rest)).
      rewrite <- (NumberFacts.app_snoc pre d (w ++ rest)).
      replace (S (String.length pre)) with (String.length (pre ++ String d "")).
      2:{ rewrite NumberFacts.strlen_app. simpl. lia. }
      rewrite IH; auto; [|simpl in Hfuel; lia].
      rewrite NumberFacts.strlen_app. cbn [String.length].
      f_equal. f_equal; lia.
    + rewrite NumberFacts.strlen_app. simpl. lia.
    + rewrite Hat. now apply identChar_eqb.
    + rewrite Hat. now apply identChar_eqb.
Qed.

Ltac start_differs H :=
  match goal with
  | |- context [Ascii.eqb ?c ?x] =>
      let E := fresh "E" in
      destruct (Ascii.eqb_spec c x) as [E|_];
      [rewrite E in H; vm_compute in H; discriminate H|]
  end.

(** On a letter or an underscore, [nextToken] re-reads the character in
    [identifierOrKeyword], the column having moved once already. *)
Lemma nextToken_identStart src p ln cl :
  identStart (peek 0 (mk src p ln cl)) = true ->
  nextToken (mk src p ln cl) = identifierOrKeyword (mk src p ln (cl + 1)).
Proof.
  intros Hd.
  assert (Hn : peek 0 (mk src p ln cl) <> NUL).
  { intros E. rewrite E in Hd. vm_compute in Hd. discriminate Hd. }
  destruct (NumberFacts.peek_in_range _ Hn) as [Hp Hat].
  cbn [source pos length] in Hp, Hat. rewrite Hat in Hd.
  pose proof (identStart_char _ Hd) as Hch.
  unfold nextToken, bind at 1.
  rewrite NumberFacts.skip_none; rewrite ?Hat;
    [|now apply identStart_not_space|now apply identChar_eqb].
  rewrite bind_gets. cbn [pos].
  destruct (Nat.leb_spec (length (mk src p ln cl)) p); [unfold length in *; simpl in *; lia|].
  unfold bind at 1.
  rewrite NumberFacts.advance_plain; [|assumption|now apply identChar_eqb..].
  rewrite !bind_gets. cbv zeta.
  set (c := at_ src p) in *.
  unfold identStart in Hd.
  repeat start_differs Hd.
  rewrite Hd. reflexivity.
Qed.

End WordFacts.

(** X9. A word of letters, digits and underscores that starts with a letter
    or an underscore and is followed by no such character is lexed whole,
    as one token: of the keyword's kind when the word is [fn], [let], [if],
    [else] or [return], an [Identifier] otherwise. The column stored in the
    token is the column after the word's first character. *)
Theorem nextToken_lexes_a_whole_word :
  forall (c : ascii) (w rest : string),
    identStart c = true ->
    allIdent w = true ->
    identChar (at_ rest 0) = false ->
    let word := String c w in
    let n := Z.of_nat (String.length word) in
    Lexer.nextToken (Lexer.new (word ++ rest))
    = Ok (mkToken (wordKind word) word 1 2)
         (Lexer.mk (word ++ rest) (String.length word) 1 (2 + n)).
Proof.
  intros c w rest Hc Hw Hrest word n.
  unfold Lexer.new. rewrite WordFacts.nextToken_identStart by exact Hc.
  unfold Lexer.identifierOrKeyword. rewrite !bind_gets.
  cbn [Lexer.pos Lexer.col Lexer.line].
  unfold bind at 1, Lexer.with_remaining.
  assert (Hword : allIdent word = true).
  { cbn [allIdent word]. now rewrite (WordFacts.identStart_char _ Hc). }
  pose proof (WordFacts.identLoop_run word "" rest
                (S (Lexer.remaining (Lexer.mk (word ++ rest) 0 1 (1 + 1)))) 1 (1 + 1)%Z
                Hword Hrest) as Hrun.
  change ("" ++ word ++ rest) with (word ++ rest) in Hrun.
  change (String.length "") with 0 in Hrun.
  rewrite Hrun; clear Hrun.
  2:{ unfold Lexer.remaining, Lexer.length. cbn [Lexer.source Lexer.pos].
      rewrite NumberFacts.strlen_app. lia. }
  cbn [Nat.add]. rewrite bind_gets. cbn [Lexer.pos Lexer.source].
  rewrite Nat.sub_0_r, NumberFacts.substring_prefix.
  unfold wordKind. destruct (Lexer.find word Lexer.keywords); reflexivity.
Qed.

Lemma nextToken_lexes_a_whole_word_witness :
  identStart "r" = true
  /\ allIdent "eturn" = true
  /\ identChar (at_ " x;" 0) = false
  /\ Lexer.nextToken (Lexer.new "return x;")
     = Ok (mkToken Return "return" 1 2) (Lexer.mk "return x;" 6 1 8).
Proof.
  split; [reflexivity|]. split; [reflexivity|]. split; [reflexivity|].
  exact (nextToken_lexes_a_whole_word "r" "eturn" " x;" eq_refl eq_refl eq_refl).
Defined.

(** ** Running the lexer over a float literal *)

Lemma string_app_assoc (s1 s2 s3 : string) : (s1 ++ s2) ++ s3 = s1 ++ s2 ++ s3.
Proof. induction s1 as [|c s1 IH]; [reflexivity | simpl; now rewrite IH]. Qed.

(** X10. Digits, a point and digits again, followed by no digit, are lexed
    as one [Float] token whose lexeme is the whole literal. *)
Theorem nextToken_lexes_a_float :
  forall (d1 d2 : ascii) (ds1 ds2 rest : string),
    allDigits (String d1 ds1) = true ->
    allDigits (String d2 ds2) = true ->
    isdigit (at_ rest 0) = false ->
    let num := String d1 ds1 ++ "." ++ String d2 ds2 in
    let n := Z.of_nat (String.length num) in
    Lexer.nextToken (Lexer.new (num ++ rest))
    = Ok (mkToken Float num 1 2)
         (Lexer.mk (num ++ rest) (String.length num) 1 (2 + n)).
Proof.
  intros d1 d2 ds1 ds2 rest Hint Hfrac Hrest num n.
  set (int := String d1 ds1) in *. set (frac := String d2 ds2) in *.
  assert (Htext : num ++ rest = int ++ "." ++ frac ++ rest).
  { unfold num. now rewrite !string_app_assoc. }
  assert (Hd2 : isdigit d2 = true).
  { unfold frac in Hfrac. cbn [allDigits] in Hfrac.
    now apply andb_true_iff in Hfrac as [H _]. }
  unfold Lexer.new. rewrite NumberFacts.nextToken_digit.
  2:{ unfold int in Hint. cbn [allDigits] in Hint.
      apply andb_true_iff in Hint as [H _]. exact H. }
  unfold Lexer.number. rewrite !bind_gets. cbn [Lexer.pos Lexer.col Lexer.line].
  unfold bind at 1, Lexer.with_remaining.
  pose proof (NumberFacts.digitLoop_run int "" ("." ++ frac ++ rest)
                (S (Lexer.remaining (Lexer.mk (num ++ rest) 0 1 (1 + 1)))) 1 (1 + 1)%Z
                Hint eq_refl) as Hrun.
  change ("" ++ int ++ "." ++ frac ++ rest) with (int ++ "." ++ frac ++ rest) in Hrun.
  rewrite <- Htext in Hrun. change (String.length "") with 0 in Hrun.
  rewrite Hrun; clear Hrun.
  2:{ unfold Lexer.remaining, Lexer.length. cbn [Lexer.source Lexer.pos].
      rewrite Htext, NumberFacts.strlen_app. lia. }
  cbn [Nat.add]. rewrite !bind_gets.
  rewrite Htext at 1 2. rewrite !NumberFacts.peek_app.
  change (at_ ("." ++ frac ++ rest) 0) with "."%char.
  change (at_ ("." ++ frac ++ rest) 1) with d2.
  rewrite Hd2. cbn [Ascii.eqb Bool.eqb andb].
  (* the point, and the digits after it *)
  unfold bind at 1 2.
  assert (Hdot : at_ (num ++ rest) (String.length int) = "."%char).
  { rewrite Htext. rewrite <- (Nat.add_0_r (String.length int)).
    now rewrite NumberFacts.at_app. }
  rewrite NumberFacts.advance_plain; rewrite ?Hdot; [|
    rewrite Htext, NumberFacts.strlen_app; simpl; lia | reflexivity..].
  unfold Lexer.with_remaining.
  assert (Htext' : num ++ rest = (int ++ ".") ++ frac ++ rest).
  { rewrite Htext. now rewrite string_app_assoc. }
  pose proof (NumberFacts.digitLoop_run frac (int ++ ".") rest
                (S (Lexer.remaining
                      (Lexer.mk (num ++ rest) (S (String.length int)) 1
                                (1 + 1 + Z.of_nat (String.length int) + 1))))
                1 (1 + 1 + Z.of_nat (String.length int) + 1)%Z
                Hfrac Hrest) as Hrun.
  rewrite <- Htext' in Hrun.
  replace (String.length (int ++ ".")) with (S (String.length int)) in Hrun
    by (rewrite NumberFacts.strlen_app; simpl; lia).
  unfold bind at 1. cbv beta. rewrite Hrun; clear Hrun.
  2:{ unfold Lexer.remaining, Lexer.length. cbn [Lexer.source Lexer.pos].
      rewrite Htext', !NumberFacts.strlen_app. simpl. lia. }
  cbn [ret]. rewrite bind_gets. unfold ret. cbn [Lexer.pos Lexer.source].
  assert (Hlen : S (String.length int) + String.length frac = String.length num).
  { unfold num. rewrite !NumberFacts.strlen_app. simpl. lia. }
  rewrite Nat.sub_0_r, Hlen, NumberFacts.substring_prefix.
  f_equal. f_equal. unfold n. lia.
Qed.

Lemma nextToken_lexes_a_float_witness :
  allDigits "12" = true
  /\ allDigits "50" = true
  /\ isdigit (at_ " * r" 0) = false
  /\ Lexer.nextToken (Lexer.new "12.50 * r")
     = Ok (mkToken Float "12.50" 1 2) (Lexer.mk "12.50 * r" 5 1 7).
Proof.
  split; [reflexivity|]. split; [reflexivity|]. split; [reflexivity|].
  exact (nextToken_lexes_a_float "1" "5" "2" "0" " * r" eq_refl eq_refl eq_refl).
Defined.

(** ** Running the lexer over a string literal *)

Module StringFacts.
Import Lexer.

Lemma append_nil_r s : s ++ "" = s.
Proof. induction s as [|c s IH]; [reflexivity | simpl; now rewrite IH]. Qed.

Lemma advance_any src p ln cl :
  p < String.length src ->
  exists ln' cl', advance (mk src p ln cl) = Ok (at_ src p) (mk src (S p) ln' cl').
Proof.
  intros Hp. unfold advance, length. cbn [source pos line col].
  destruct (Nat.leb_spec (String.length src) p); [lia|].
  destruct (Ascii.eqb _ NL); [|destruct (Ascii.eqb _ TAB)]; eauto.
Qed.

Lemma mk_eq src p p' ln cl cl' :
  p = p' -> cl = cl' -> mk src p ln cl = mk src p' ln cl'.
Proof. now intros -> ->. Qed.

Lemma at_head pre c rest : at_ (pre ++ String c rest) (String.length pre) = c.
Proof.
  rewrite <- (Nat.add_0_r (String.length pre)). now rewrite NumberFacts.at_app.
Qed.

Lemma at_second pre c d rest :
  at_ (pre ++ String c (String d rest)) (S (String.length pre)) = d.
Proof.
  rewrite <- Nat.add_1_r. now rewrite NumberFacts.at_app.
Qed.

(** One turn of the loop of [string()] over an escape sequence. *)
Lemma stringLoop_escape pre e tail value f ln cl d :
  (Ascii.eqb e "n" = true /\ d = NL
   \/ Ascii.eqb e "n" = false /\ Ascii.eqb e "t" = true /\ d = TAB
   \/ e = BACKSLASH /\ d = BACKSLASH
   \/ e = DQUOTE /\ d = DQUOTE) ->
  Ascii.eqb e NL = false -> Ascii.eqb e TAB = false ->
  let src := pre ++ String BACKSLASH (String e tail) in
  stringLoop (S f) value (mk src (String.length pre) ln cl)
  = stringLoop f (push_back value d) (mk src (S (S (String.length pre))) ln (cl + 1 + 1)).
Proof.
  intros He Hnl Htab src. cbn [stringLoop]. unfold bind at 1.
  assert (Hlen : S (String.length pre) < String.length src).
  { unfold src. rewrite NumberFacts.strlen_app. simpl. lia. }
  assert (Hat0 : at_ src (String.length pre) = BACKSLASH) by apply at_head.
  assert (Hat1 : at_ src (S (String.length pre)) = e) by apply at_second.
  rewrite NumberFacts.advance_plain; rewrite ?Hat0; [|lia|reflexivity..].
  cbn [Ascii.eqb Bool.eqb NUL DQUOTE BACKSLASH]. unfold bind at 1.
  rewrite NumberFacts.advance_plain; rewrite ?Hat1; [|lia|assumption..].
  destruct He as [[H ->]|[(H1 & H2 & ->)|[[-> ->]|[-> ->]]]].
  - now rewrite H.
  - now rewrite H1, H2.
  - reflexivity.
  - reflexivity.
Qed.

(** One turn of the loop of [string()] over a plain character. *)
Lemma stringLoop_plain pre a tail value f ln cl :
  Ascii.eqb a NUL = false -> Ascii.eqb a NL = false -> Ascii.eqb a TAB = false ->
  Ascii.eqb a BACKSLASH = false -> Ascii.eqb a DQUOTE = false ->
  let src := pre ++ String a tail in
  stringLoop (S f) value (mk src (String.length pre) ln cl)
  = stringLoop f (push_back value a) (mk src (S (String.length pre)) ln (cl + 1)).
Proof.
  intros Hnul Hnl Htab Hbs Hdq src. cbn [stringLoop]. unfold bind at 1.
  assert (Hat0 : at_ src (String.length pre) = a) by apply at_head.
  rewrite NumberFacts.advance_plain; rewrite ?Hat0;
    [|unfold src; rewrite NumberFacts.strlen_app; simpl; lia|assumption..].
  rewrite Hnul, Hdq. change (Ascii.eqb a "\") with (Ascii.eqb a BACKSLASH).
  now rewrite Hbs.
Qed.

(** The loop of [string()] over an escaped text and the closing quote. *)
Lemma stringLoop_run s : forall pre rest value fuel ln cl,
  noNUL s = true ->
  String.length (escape s) < fuel ->
  stringLoop fuel value
             (mk (pre ++ escape s ++ String DQUOTE rest) (String.length pre) ln cl)
  = Ok (value ++ s)
       (mk (pre ++ escape s ++ String DQUOTE rest)
           (String.length pre + String.length (escape s) + 1) ln
           (cl + Z.of_nat (String.length (escape s)) + 1)).
Proof.
  induction s as [|a s IH]; intros pre rest value fuel ln cl Hs Hfuel;
    (destruct fuel as [|fuel]; [simpl in Hfuel; lia|]).
  - cbn [escape append String.length stringLoop]. unfold bind.
    rewrite NumberFacts.advance_plain; rewrite ?at_head;
      [|rewrite ?NumberFacts.strlen_app; simpl; lia|reflexivity..].
    cbn [Ascii.eqb Bool.eqb NUL DQUOTE]. unfold ret.
    rewrite append_nil_r. f_equal. apply mk_eq; lia.
  - cbn [noNUL] in Hs. apply andb_true_iff in Hs as [Ha Hs].
    apply negb_true_iff in Ha.
    (* what is left after the encoding [enc] of [a] *)
    assert (Hrest : forall enc v',
               escape (String a s) = enc ++ escape s ->
               0 < String.length enc ->
               v' = push_back value a ->
               stringLoop fuel v'
                 (mk (pre ++ escape (String a s) ++ String DQUOTE rest)
                     (String.length pre + String.length enc) ln
                     (cl + Z.of_nat (String.length enc)))
               = Ok (value ++ String a s)
                    (mk (pre ++ escape (String a s) ++ String DQUOTE rest)
                        (String.length pre + String.length (escape (String a s)) + 1)
                        ln
                        (cl + Z.of_nat (String.length (escape (String a s))) + 1))).
    { intros enc v' Henc Hpos ->.
      assert (Hsrc : pre ++ escape (String a s) ++ String DQUOTE rest
                     = (pre ++ enc) ++ escape s ++ String DQUOTE rest).
      { rewrite Henc. now rewrite !string_app_assoc. }
      rewrite Hsrc. rewrite <- NumberFacts.strlen_app.
      rewrite IH; auto.
      - unfold push_back. rewrite NumberFacts.app_snoc. f_equal.
        rewrite Henc, !NumberFacts.strlen_app. apply mk_eq; lia.
      - rewrite Henc, NumberFacts.strlen_app in Hfuel. lia. }
    cbn [escape] in *.
    destruct (Ascii.eqb a NL) eqn:Hnl;
      [|destruct (Ascii.eqb a TAB) eqn:Htab;
        [|destruct (Ascii.eqb a BACKSLASH) eqn:Hbs;
          [|destruct (Ascii.eqb a DQUOTE) eqn:Hdq]]].
    + apply Ascii.eqb_eq in Hnl. subst a. cbn [append].
      rewrite (stringLoop_escape pre "n" _ value fuel ln cl NL);
        [|now left|reflexivity..].
      specialize (Hrest (String BACKSLASH "n") _ eq_refl ltac:(simpl; lia) eq_refl).
      cbn [append String.length] in Hrest. cbn [append String.length].
      rewrite <- Hrest. f_equal. apply mk_eq; lia.
    + apply Ascii.eqb_eq in Htab. subst a. cbn [append].
      rewrite (stringLoop_escape pre "t" _ value fuel ln cl TAB);
        [|right; left; auto|reflexivity..].
      specialize (Hrest (String BACKSLASH "t") _ eq_refl ltac:(simpl; lia) eq_refl).
      cbn [append String.length] in Hrest. cbn [append String.length].
      rewrite <- Hrest. f_equal. apply mk_eq; lia.
    + apply Ascii.eqb_eq in Hbs. subst a. cbn [append].
      rewrite (stringLoop_escape pre BACKSLASH _ value fuel ln cl BACKSLASH);
        [|right; right; left; auto|reflexivity..].
      specialize (Hrest (String BACKSLASH (String BACKSLASH "")) _ eq_refl
                        ltac:(simpl; lia) eq_refl).
      cbn [append String.length] in Hrest. cbn [append String.length].
      rewrite <- Hrest. f_equal. apply mk_eq; lia.
    + apply Ascii.eqb_eq in Hdq. subst a. cbn [append].
      rewrite (stringLoop_escape pre DQUOTE _ value fuel ln cl DQUOTE);
        [|right; right; right; auto|reflexivity..].
      specialize (Hrest (String BACKSLASH (String DQUOTE "")) _ eq_refl
                        ltac:(simpl; lia) eq_refl).
      cbn [append String.length] in Hrest. cbn [append String.length].
      rewrite <- Hrest. f_equal. apply mk_eq; lia.
    + cbn [append].
      rewrite (stringLoop_plain pre a _ value fuel ln cl) by assumption.
      specialize (Hrest (String a "") _ eq_refl ltac:(simpl; lia) eq_refl).
      cbn [append String.length] in Hrest. cbn [append String.length].
      rewrite <- Hrest. f_equal. apply mk_eq; lia.
Qed.

(** On a double quote, [nextToken] goes on in [string()], the quote
    consumed. *)
Lemma nextToken_quote src p ln cl :
  peek 0 (mk src p ln cl) = DQUOTE ->
  nextToken (mk src p ln cl) = string_ (mk src (S p) ln (cl + 1)).
Proof.
  intros Hd.
  assert (Hn : peek 0 (mk src p ln cl) <> NUL) by (rewrite Hd; discriminate).
  destruct (NumberFacts.peek_in_range _ Hn) as [Hp Hat].
  cbn [source pos length] in Hp, Hat. rewrite Hat in Hd.
  unfold nextToken, bind at 1.
  rewrite NumberFacts.skip_none; rewrite ?Hat, ?Hd; [|reflexivity..].
  rewrite bind_gets. cbn [pos].
  destruct (Nat.leb_spec (length (mk src p ln cl)) p); [unfold length in *; simpl in *; lia|].
  unfold bind at 1.
  rewrite NumberFacts.advance_plain; rewrite ?Hd; [|assumption|reflexivity..].
  reflexivity.
Qed.

End StringFacts.

(** X11. The string literal made of a double quote, any one character, the
    escaped form of a text [s] without NUL and a closing double quote is
    lexed as one [String] token whose lexeme is [s]: the four escape
    sequences are decoded, and the character after the opening quote is
    consumed without entering the lexeme. *)
Theorem nextToken_decodes_a_string_literal :
  forall (c : ascii) (s rest : string),
    noNUL s = true ->
    let text := String DQUOTE (String c (escape s ++ String DQUOTE rest)) in
    exists l',
      Lexer.nextToken (Lexer.new text) = Ok (mkToken String_ s 1 2) l'
      /\ Lexer.source l' = text
      /\ Lexer.pos l' = 3 + String.length (escape s).
Proof.
  intros c s rest Hs text.
  unfold Lexer.new. rewrite StringFacts.nextToken_quote by reflexivity.
  unfold Lexer.string_. rewrite !bind_gets. cbn [Lexer.col Lexer.line].
  destruct (StringFacts.advance_any text 1 1 (1 + 1))
    as (ln' & cl' & Hadv); [unfold text; simpl; lia|].
  unfold bind at 1. rewrite Hadv. unfold bind at 1, Lexer.with_remaining.
  pose proof (StringFacts.stringLoop_run s (String DQUOTE (String c "")) rest ""
                (S (Lexer.remaining (Lexer.mk text 2 ln' cl'))) ln' cl' Hs) as Hrun.
  change (String DQUOTE (String c "") ++ escape s ++ String DQUOTE rest)
    with text in Hrun.
  change (String.length (String DQUOTE (String c ""))) with 2 in Hrun.
  rewrite Hrun; clear Hrun.
  - unfold ret. cbn [append]. eexists. split; [reflexivity|].
    cbn [Lexer.source Lexer.pos]. split; [reflexivity | lia].
  - unfold Lexer.remaining, Lexer.length, text. cbn [Lexer.source Lexer.pos String.length].
    rewrite NumberFacts.strlen_app. lia.
Qed.

Lemma nextToken_decodes_a_string_literal_witness :
  noNUL ("a" ++ String TAB "b") = true
  /\ exists l',
      Lexer.nextToken
        (Lexer.new (String DQUOTE
                      (String "x" (String "a" (String BACKSLASH "tb")
                                     ++ String DQUOTE ";"))))
      = Ok (mkToken String_ ("a" ++ String TAB "b") 1 2) l'
      /\ Lexer.pos l' = 7.
Proof.
  split; [reflexivity|].
  destruct (nextToken_decodes_a_string_literal "x" ("a" ++ String TAB "b") ";" eq_refl)
    as (l' & Hret & _ & Hpos).
  exists l'. split; [exact Hret | exact Hpos].
Defined.

(** ** Whitespace and comments before a token *)

Module SkipFacts.
Import Lexer.

Lemma bind_ext_post {A B} (m : M t A) (k1 k2 : A -> M t B) l (P : A -> t -> Prop) :
  post (m l) P ->
  (forall a l1, P a l1 -> k1 a l1 = k2 a l1) ->
  bind m k1 l = bind m k2 l.
Proof.
  unfold bind. destruct (m l) as [a l1|e l1|]; cbn [post]; intros HP Hk; auto.
Qed.

(** The budget of [skipLoop] does not matter once it exceeds the number of
    characters left. *)
Lemma skipLoop_fuel f1 : forall f2 l,
  remaining l < f1 -> remaining l < f2 -> skipLoop f1 l = skipLoop f2 l.
Proof.
  induction f1 as [|f1 IH]; intros f2 l H1 H2; [lia|].
  destruct f2 as [|f2]; [lia|].
  cbn [skipLoop]. rewrite !bind_gets.
  assert (Hrec : forall l1, source l1 = source l -> remaining l1 < remaining l ->
                 skipLoop f1 l1 = skipLoop f2 l1).
  { intros l1 _ Hr. apply IH; lia. }
  destruct (isspace (peek 0 l)) eqn:Hsp.
  { assert (Hc : peek 0 l <> NUL).
    { intros E. rewrite E, isspace_NUL in Hsp. discriminate. }
    eapply bind_ext_post; [apply (LexerFacts.advance_strict l Hc)|].
    intros c l1 [Hs Hr]. now apply Hrec. }
  destruct (Ascii.eqb (peek 0 l) "/") eqn:Hslash; cbn [andb]; [|reflexivity].
  assert (Hc : peek 0 l <> NUL).
  { apply Ascii.eqb_eq in Hslash. rewrite Hslash. discriminate. }
  destruct (Ascii.eqb (peek 1 l) "/").
  { apply bind_ext_post
      with (P := fun _ l2 => source l2 = source l /\ remaining l2 < remaining l).
    - unfold with_remaining. cbn [lineCommentLoop]. rewrite bind_gets.
      apply Ascii.eqb_eq in Hslash. rewrite Hslash.
      change (negb (Ascii.eqb "/" NL) && negb (Ascii.eqb "/" NUL))%bool with true.
      cbv iota.
      eapply post_bind; [apply (LexerFacts.advance_strict l Hc)|].
      intros c l1 [Hs Hr].
      eapply post_weaken; [apply LexerFacts.lineCommentLoop_advanced; lia|].
      intros u l2 H. exact (LexerFacts.advanced_after l l1 l2 Hs Hr H).
    - intros u l2 [Hs Hr]. now apply Hrec. }
  destruct (Ascii.eqb (peek 1 l) "*"); [|reflexivity].
  eapply bind_ext_post; [apply (LexerFacts.advance_strict l Hc)|].
  intros c l1 [Hs1 Hr1].
  eapply bind_ext_post; [apply LexerFacts.advance_advanced|].
  intros c2 l2 H2'. destruct (LexerFacts.advanced_after l l1 l2 Hs1 Hr1 H2') as [Hs2 Hr2].
  eapply bind_ext_post;
    [apply LexerFacts.with_remaining_advanced, LexerFacts.blockCommentLoop_advanced|].
  intros u l3 H3. destruct (LexerFacts.advanced_after l l2 l3 Hs2 Hr2 H3) as [Hs3 Hr3].
  eapply bind_ext_post; [apply LexerFacts.advance_advanced|].
  intros c4 l4 H4. destruct (LexerFacts.advanced_after l l3 l4 Hs3 Hr3 H4) as [Hs4 Hr4].
  eapply bind_ext_post; [apply LexerFacts.advance_advanced|].
  intros c5 l5 H5. destruct (LexerFacts.advanced_after l l4 l5 Hs4 Hr4 H5) as [Hs5 Hr5].
  now apply Hrec.
Qed.

(** When the first turn of [skipLoop] in [l] leads to [l1], the token read
    from [l] is the token read from [l1]. *)
Lemma nextToken_resume l l1 :
  remaining l1 < remaining l ->
  (forall f, skipLoop (S f) l = skipLoop f l1) ->
  nextToken l = nextToken l1.
Proof.
  intros Hr Hstep. unfold nextToken, bind at 1.
  unfold skipWhitespaceAndComments, with_remaining at 1.
  rewrite Hstep, (skipLoop_fuel _ (S (remaining l1))) by lia.
  reflexivity.
Qed.

End SkipFacts.

(** X12. A whitespace character before a token is consumed by [advance]
    and changes nothing else: the token read at a whitespace character is
    the token read after it. *)
Theorem nextToken_skips_whitespace :
  forall l : Lexer.t,
    isspace (Lexer.peek 0 l) = true ->
    Lexer.nextToken l = bind Lexer.advance (fun _ => Lexer.nextToken) l.
Proof.
  intros l Hsp.
  assert (Hc : Lexer.peek 0 l <> NUL).
  { intros E. rewrite E, isspace_NUL in Hsp. discriminate. }
  pose proof (LexerFacts.advance_strict l Hc) as Hadv.
  unfold bind at 1.
  destruct (Lexer.advance l) as [c l1|e l1|] eqn:E; cbn [post] in Hadv;
    [|exfalso | contradiction].
  - apply SkipFacts.nextToken_resume; [exact (proj2 Hadv)|].
    intros f. cbn [Lexer.skipLoop]. rewrite !bind_gets, Hsp.
    unfold bind. now rewrite E.
  - unfold Lexer.advance in E.
    destruct (Lexer.length l <=? Lexer.pos l); [discriminate|].
    destruct (Ascii.eqb _ NL); [discriminate|].
    destruct (Ascii.eqb _ TAB); discriminate.
Qed.

Lemma nextToken_skips_whitespace_witness :
  isspace (Lexer.peek 0 (Lexer.mk ("a" ++ nl ++ "b") 1 1 3)) = true
  /\ Lexer.nextToken (Lexer.mk ("a" ++ nl ++ "b") 1 1 3)
     = Lexer.nextToken (Lexer.mk ("a" ++ nl ++ "b") 2 2 1).
Proof.
  split; [reflexivity|].
  exact (nextToken_skips_whitespace (Lexer.mk ("a" ++ nl ++ "b") 1 1 3) eq_refl).
Defined.

Module CommentFacts.
Import Lexer.

(** [advance] over a character other than a newline stays on the line. *)
Lemma advance_same_line src p ln cl :
  p < String.length src -> Ascii.eqb (at_ src p) NL = false ->
  exists cl', advance (mk src p ln cl) = Ok (at_ src p) (mk src (S p) ln cl').
Proof.
  intros Hp Hnl. unfold advance, length. cbn [source pos line col].
  destruct (Nat.leb_spec (String.length src) p); [lia|].
  rewrite Hnl. destruct (Ascii.eqb _ TAB); eauto.
Qed.

Lemma length_snoc pre c : String.length (pre ++ String c "") = S (String.length pre).
Proof. rewrite NumberFacts.strlen_app. simpl. lia. Qed.

Lemma lineCommentLoop_run s : forall pre rest fuel ln cl,
  noNewline s = true -> noNUL s = true ->
  (Ascii.eqb (at_ rest 0) NL || Ascii.eqb (at_ rest 0) NUL)%bool = true ->
  String.length s < fuel ->
  exists cl',
    lineCommentLoop fuel (mk (pre ++ s ++ rest) (String.length pre) ln cl)
    = Ok tt (mk (pre ++ s ++ rest) (String.length pre + String.length s) ln cl').
Proof.
  induction s as [|c s IH]; intros pre rest fuel ln cl Hnl Hnul Hrest Hfuel;
    (destruct fuel as [|fuel]; [simpl in Hfuel; lia|]);
    cbn [lineCommentLoop]; rewrite bind_gets, NumberFacts.peek_app.
  - cbn [append]. apply orb_true_iff in Hrest.
    exists cl. rewrite Nat.add_0_r.
    destruct Hrest as [H|H]; rewrite H; [reflexivity|].
    now rewrite andb_false_r.
  - cbn [noNewline] in Hnl. apply andb_true_iff in Hnl as [Hc1 Hnl].
    cbn [noNUL] in Hnul. apply andb_true_iff in Hnul as [Hc2 Hnul].
    change (at_ (String c s ++ rest) 0) with c. rewrite Hc1, Hc2. cbn [andb].
    destruct (advance_same_line (pre ++ String c s ++ rest) (String.length pre) ln cl)
      as (cl1 & Hadv).
    + rewrite NumberFacts.strlen_app. simpl. lia.
    + change (String c s ++ rest) with (String c (s ++ rest)).
      rewrite StringFacts.at_head. now apply negb_true_iff in Hc1.
    + unfold bind. rewrite Hadv.
      change (String c s ++ rest) with (String c (s ++ rest)).
      rewrite <- (NumberFacts.app_snoc pre c (s ++ rest)).
      rewrite <- length_snoc with (c := c).
      destruct (IH (pre ++ String c "") rest fuel ln cl1 Hnl Hnul Hrest) as (cl' & Hrun);
        [simpl in Hfuel; lia|].
      exists cl'. rewrite Hrun. f_equal. apply StringFacts.mk_eq; [|reflexivity].
      rewrite length_snoc. simpl. lia.
Qed.

Lemma noClose_next c s x :
  (negb (Ascii.eqb c "*" && Ascii.eqb (at_ s 0) "/"))%bool = true ->
  (negb (Ascii.eqb c "*" && Ascii.eqb (at_ (s ++ String "*" x) 0) "/"))%bool = true.
Proof. destruct s as [|d s]; [|exact (fun H => H)]. intros _. now destruct (Ascii.eqb c "*"). Qed.

(** The loop of a block comment over its body, up to the closing [*/]. *)
Lemma blockCommentLoop_run s : forall pre rest fuel ln cl,
  noClose s = true -> noNUL s = true ->
  String.length s < fuel ->
  exists ln' cl',
    blockCommentLoop fuel (mk (pre ++ s ++ "*/" ++ rest) (String.length pre) ln cl)
    = Ok tt (mk (pre ++ s ++ "*/" ++ rest) (String.length pre + String.length s) ln' cl').
Proof.
  induction s as [|c s IH]; intros pre rest fuel ln cl Hcl Hnul Hfuel;
    (destruct fuel as [|fuel]; [simpl in Hfuel; lia|]);
    cbn [blockCommentLoop]; rewrite !bind_gets, !NumberFacts.peek_app.
  - exists ln, cl. rewrite Nat.add_0_r. reflexivity.
  - cbn [noClose] in Hcl. apply andb_true_iff in Hcl as [Hc1 Hcl].
    cbn [noNUL] in Hnul. apply andb_true_iff in Hnul as [Hc2 Hnul].
    change (at_ (String c s ++ "*/" ++ rest) 0) with c.
    change (at_ (String c s ++ "*/" ++ rest) 1) with (at_ (s ++ String "*" (String "/" rest)) 0).
    rewrite (noClose_next c s _ Hc1).
    apply negb_true_iff in Hc2. rewrite Hc2.
    destruct (StringFacts.advance_any (pre ++ String c s ++ "*/" ++ rest)
                (String.length pre) ln cl) as (ln1 & cl1 & Hadv).
    + rewrite NumberFacts.strlen_app. simpl. lia.
    + unfold bind. rewrite Hadv.
      change (String c s ++ "*/" ++ rest) with (String c (s ++ "*/" ++ rest)).
      rewrite <- (NumberFacts.app_snoc pre c (s ++ "*/" ++ rest)).
      rewrite <- length_snoc with (c := c).
      destruct (IH (pre ++ String c "") rest fuel ln1 cl1 Hcl Hnul) as (ln' & cl' & Hrun);
        [simpl in Hfuel; lia|].
      exists ln', cl'. rewrite Hrun. f_equal. apply f_equal4; try reflexivity.
      rewrite length_snoc. simpl. lia.
Qed.

(** The loop of a block comment over a text without [*/]: it ends in the
    exception. *)
Lemma blockCommentLoop_open s : forall pre fuel ln cl,
  noClose s = true ->
  String.length s < fuel ->
  exists l',
    blockCommentLoop fuel (mk (pre ++ s) (String.length pre) ln cl)
    = Throw (LexerErr (error "Unterminated block comment" l')) l'
    /\ source l' = pre ++ s.
Proof.
  induction s as [|c s IH]; intros pre fuel ln cl Hcl Hfuel;
    (destruct fuel as [|fuel]; [simpl in Hfuel; lia|]);
    cbn [blockCommentLoop]; rewrite !bind_gets.
  - rewrite StringFacts.append_nil_r.
    assert (H0 : peek 0 (mk pre (String.length pre) ln cl) = NUL).
    { unfold peek, length. cbn [source pos]. rewrite Nat.add_0_r, Nat.leb_refl.
      reflexivity. }
    rewrite H0. cbn [Ascii.eqb Bool.eqb andb negb NUL].
    eexists. split; reflexivity.
  - cbn [noClose] in Hcl. apply andb_true_iff in Hcl as [Hc1 Hcl].
    rewrite !NumberFacts.peek_app.
    change (at_ (String c s) 0) with c.
    change (at_ (String c s) 1) with (at_ s 0).
    rewrite Hc1.
    destruct (Ascii.eqb c NUL) eqn:Hnul.
    { eexists. split; reflexivity. }
    destruct (StringFacts.advance_any (pre ++ String c s)
                (String.length pre) ln cl) as (ln1 & cl1 & Hadv).
    + rewrite NumberFacts.strlen_app. simpl. lia.
    + unfold bind. rewrite Hadv.
      rewrite <- (NumberFacts.app_snoc pre c s).
      rewrite <- length_snoc with (c := c).
      apply IH; [exact Hcl | simpl in Hfuel; lia].
Qed.

End CommentFacts.

(** X13. A line comment before a token is invisible: from the two slashes,
    over a body without newline, up to the newline or the end of the
    buffer, the lexer reads the token that follows the comment, on the
    same line. *)
Theorem nextToken_skips_a_line_comment :
  forall (pre body rest : string) (ln cl : Z),
    noNewline body = true -> noNUL body = true ->
    (rest = "" \/ exists r, rest = String NL r) ->
    let text := pre ++ "//" ++ body ++ rest in
    exists cl' : Z,
      Lexer.nextToken (Lexer.mk text (String.length pre) ln cl)
      = Lexer.nextToken
          (Lexer.mk text (String.length pre + 2 + String.length body) ln cl').
Proof.
  intros pre body rest ln cl Hnl Hnul Hrest text.
  assert (Hstop : (Ascii.eqb (at_ rest 0) NL || Ascii.eqb (at_ rest 0) NUL)%bool = true).
  { destruct Hrest as [->|(r & ->)]; reflexivity. }
  assert (Hlen : String.length text
                 = String.length pre + (2 + String.length body + String.length rest)).
  { unfold text. rewrite NumberFacts.strlen_app. cbn [append String.length].
    rewrite NumberFacts.strlen_app. lia. }
  destruct (CommentFacts.lineCommentLoop_run ("//" ++ body) pre rest
              (S (Lexer.remaining (Lexer.mk text (String.length pre) ln cl))) ln cl)
    as (cl' & Hrun); [exact Hnl | exact Hnul | exact Hstop | |].
  { unfold Lexer.remaining, Lexer.length. cbn [Lexer.source Lexer.pos].
    rewrite Hlen. cbn [append String.length]. lia. }
  exists cl'.
  replace (String.length pre + 2 + String.length body)
    with (String.length pre + String.length ("//" ++ body))
    by (cbn [append String.length]; lia).
  apply SkipFacts.nextToken_resume.
  - unfold Lexer.remaining, Lexer.length. cbn [Lexer.source Lexer.pos].
    rewrite Hlen. cbn [append String.length]. lia.
  - intros f. cbn [Lexer.skipLoop]. rewrite !bind_gets.
    unfold text. rewrite !NumberFacts.peek_app.
    change (at_ ("//" ++ body ++ rest) 0) with "/"%char.
    change (at_ ("//" ++ body ++ rest) 1) with "/"%char.
    cbn [isspace Ascii.eqb Bool.eqb andb].
    change (isspace "/") with false. cbv iota.
    unfold bind, Lexer.with_remaining.
    change (pre ++ "//" ++ body ++ rest) with (pre ++ ("//" ++ body) ++ rest).
    fold text in Hrun |- *. unfold text in Hrun.
    change (pre ++ "//" ++ body ++ rest) with (pre ++ ("//" ++ body) ++ rest) in Hrun.
    rewrite Hrun. reflexivity.
Qed.

Lemma nextToken_skips_a_line_comment_witness :
  noNewline " to do" = true /\ noNUL " to do" = true
  /\ exists cl' : Z,
      Lexer.nextToken (Lexer.mk ("x " ++ "//" ++ " to do" ++ String NL "y") 2 1 4)
      = Lexer.nextToken (Lexer.mk ("x " ++ "//" ++ " to do" ++ String NL "y") 10 1 cl').
Proof.
  split; [reflexivity|]. split; [reflexivity|].
  exact (nextToken_skips_a_line_comment "x " " to do" (String NL "y") 1 4
           eq_refl eq_refl (or_intror (ex_intro _ "y" eq_refl))).
Defined.

(** X14. A closed block comment before a token is invisible: from [/*],
    over a body in which no [*] is followed by [/], to the first [*/], the
    lexer reads the token that follows the comment. *)
Theorem nextToken_skips_a_block_comment :
  forall (pre body rest : string) (ln cl : Z),
    noClose body = true -> noNUL body = true ->
    let text := pre ++ "/*" ++ body ++ "*/" ++ rest in
    exists ln' cl' : Z,
      Lexer.nextToken (Lexer.mk text (String.length pre) ln cl)
      = Lexer.nextToken
          (Lexer.mk text (String.length pre + 4 + String.length body) ln' cl').
Proof.
  intros pre body rest ln cl Hcl Hnul text.
  assert (Hlen : String.length text
                 = String.length pre + (4 + String.length body + String.length rest)).
  { unfold text. rewrite NumberFacts.strlen_app. cbn [append String.length].
    rewrite NumberFacts.strlen_app. cbn [append String.length]. lia. }
  assert (Htext : text = (pre ++ "/*") ++ body ++ "*/" ++ rest).
  { unfold text. now rewrite string_app_assoc. }
  assert (Hpre : String.length (pre ++ "/*") = String.length pre + 2).
  { rewrite NumberFacts.strlen_app. reflexivity. }
  destruct (CommentFacts.blockCommentLoop_run body (pre ++ "/*") rest
              (S (Lexer.remaining (Lexer.mk text (String.length pre + 2) ln (cl + 1 + 1))))
              ln (cl + 1 + 1)%Z Hcl Hnul)
    as (ln' & cl' & Hrun).
  { unfold Lexer.remaining, Lexer.length. cbn [Lexer.source Lexer.pos].
    rewrite Hlen. lia. }
  rewrite <- Htext, Hpre in Hrun.
  exists ln', (cl' + 1 + 1)%Z.
  apply SkipFacts.nextToken_resume.
  - unfold Lexer.remaining, Lexer.length. cbn [Lexer.source Lexer.pos].
    rewrite Hlen. lia.
  - intros f. cbn [Lexer.skipLoop]. rewrite !bind_gets.
    assert (Hp0 : Lexer.peek 0 (Lexer.mk text (String.length pre) ln cl) = "/"%char)
      by (unfold text; now rewrite NumberFacts.peek_app).
    assert (Hp1 : Lexer.peek 1 (Lexer.mk text (String.length pre) ln cl) = "*"%char)
      by (unfold text; now rewrite NumberFacts.peek_app).
    rewrite Hp0, Hp1.
    change (isspace "/") with false.
    cbn [Ascii.eqb Bool.eqb andb]. cbv iota.
    assert (Hat0 : at_ text (String.length pre) = "/"%char).
    { unfold text. cbn [append]. apply StringFacts.at_head. }
    assert (Hat1 : at_ text (S (String.length pre)) = "*"%char).
    { unfold text. cbn [append]. apply StringFacts.at_second. }
    assert (Hat2 : at_ text (String.length pre + 2 + String.length body) = "*"%char).
    { rewrite Htext, <- Hpre, NumberFacts.at_app.
      rewrite <- (Nat.add_0_r (String.length body)), NumberFacts.at_app.
      reflexivity. }
    assert (Hat3 : at_ text (S (String.length pre + 2 + String.length body)) = "/"%char).
    { replace (S (String.length pre + 2 + String.length body))
        with (String.length (pre ++ "/*") + (String.length body + 1)) by lia.
      rewrite Htext, !NumberFacts.at_app. reflexivity. }
    unfold bind.
    rewrite NumberFacts.advance_plain; rewrite ?Hat0; [|lia|reflexivity..].
    rewrite NumberFacts.advance_plain; rewrite ?Hat1; [|lia|reflexivity..].
    unfold Lexer.with_remaining.
    replace (S (S (String.length pre))) with (String.length pre + 2) by lia.
    rewrite Hrun.
    rewrite NumberFacts.advance_plain; rewrite ?Hat2; [|lia|reflexivity..].
    rewrite NumberFacts.advance_plain; rewrite ?Hat3; [|lia|reflexivity..].
    f_equal. apply StringFacts.mk_eq; [lia | reflexivity].
Qed.

Lemma nextToken_skips_a_block_comment_witness :
  noClose (" a * b" ++ nl) = true /\ noNUL (" a * b" ++ nl) = true
  /\ exists ln' cl' : Z,
      Lexer.nextToken
        (Lexer.mk ("x " ++ "/*" ++ (" a * b" ++ nl) ++ "*/" ++ " y") 2 1 4)
      = Lexer.nextToken
          (Lexer.mk ("x " ++ "/*" ++ (" a * b" ++ nl) ++ "*/" ++ " y") 13 ln' cl').
Proof.
  split; [reflexivity|]. split; [reflexivity|].
  exact (nextToken_skips_a_block_comment "x " (" a * b" ++ nl) " y" 1 4
           eq_refl eq_refl).
Defined.

(** X15. A block comment that is never closed is an error: when no [*] is
    followed by [/] after the opening [/*], the lexer throws "Unterminated
    block comment", located where the search for the end stopped. *)
Theorem nextToken_unterminated_block_comment :
  forall (pre body : string) (ln cl : Z),
    noClose body = true ->
    let text := pre ++ "/*" ++ body in
    exists l' : Lexer.t,
      Lexer.nextToken (Lexer.mk text (String.length pre) ln cl)
      = Throw (LexerErr (Lexer.error "Unterminated block comment" l')) l'
      /\ Lexer.source l' = text.
Proof.
  intros pre body ln cl Hcl text.
  assert (Hlen : String.length text = String.length pre + (2 + String.length body)).
  { unfold text. rewrite NumberFacts.strlen_app. reflexivity. }
  assert (Htext : text = (pre ++ "/*") ++ body).
  { unfold text. now rewrite string_app_assoc. }
  assert (Hpre : String.length (pre ++ "/*") = String.length pre + 2).
  { rewrite NumberFacts.strlen_app. reflexivity. }
  destruct (CommentFacts.blockCommentLoop_open body (pre ++ "/*")
              (S (Lexer.remaining (Lexer.mk text (String.length pre + 2) ln (cl + 1 + 1))))
              ln (cl + 1 + 1)%Z Hcl)
    as (l' & Hrun & Hsrc).
  { unfold Lexer.remaining, Lexer.length. cbn [Lexer.source Lexer.pos].
    rewrite Hlen. lia. }
  rewrite <- Htext in Hsrc. rewrite <- Htext, Hpre in Hrun.
  exists l'. split; [|exact Hsrc].
  unfold Lexer.nextToken, bind at 1.
  unfold Lexer.skipWhitespaceAndComments, Lexer.with_remaining at 1.
  cbn [Lexer.skipLoop]. rewrite !bind_gets.
  assert (Hp0 : Lexer.peek 0 (Lexer.mk text (String.length pre) ln cl) = "/"%char)
    by (unfold text; now rewrite NumberFacts.peek_app).
  assert (Hp1 : Lexer.peek 1 (Lexer.mk text (String.length pre) ln cl) = "*"%char)
    by (unfold text; now rewrite NumberFacts.peek_app).
  rewrite Hp0, Hp1.
  change (isspace "/") with false.
  cbn [Ascii.eqb Bool.eqb andb]. cbv iota.
  assert (Hat0 : at_ text (String.length pre) = "/"%char).
  { unfold text. cbn [append]. apply StringFacts.at_head. }
  assert (Hat1 : at_ text (S (String.length pre)) = "*"%char).
  { unfold text. cbn [append]. apply StringFacts.at_second. }
  unfold bind.
  rewrite NumberFacts.advance_plain; rewrite ?Hat0; [|lia|reflexivity..].
  rewrite NumberFacts.advance_plain; rewrite ?Hat1; [|lia|reflexivity..].
  unfold Lexer.with_remaining.
  replace (S (S (String.length pre))) with (String.length pre + 2) by lia.
  rewrite Hrun. reflexivity.
Qed.

Lemma nextToken_unterminated_block_comment_witness :
  noClose " never closed *" = true
  /\ exists l' : Lexer.t,
      Lexer.nextToken (Lexer.mk ("x " ++ "/*" ++ " never closed *") 2 1 4)
      = Throw (LexerErr (Lexer.error "Unterminated block comment" l')) l'
      /\ Lexer.source l' = "x " ++ "/*" ++ " never closed *".
Proof.
  split; [reflexivity|].
  exact (nextToken_unterminated_block_comment "x " " never closed *" 1 4 eq_refl).
Defined.

(** ** What the parser throws *)

Module ParseFacts.
Import Parser.

Lemma parseSpec_bind {A B} msgs (m : M t A) (k : A -> M t B) p
      (P : A -> t -> Prop) (Q : B -> t -> Prop) :
  parseSpec msgs (m p) P ->
  (forall a p', wellFormed (lexer p') -> P a p' -> parseSpec msgs (k a p') Q) ->
  parseSpec msgs (bind m k p) Q.
Proof.
  unfold bind. destruct (m p) as [a p'|e p'|]; cbn [parseSpec]; intros Hm Hk.
  - destruct Hm. now apply Hk.
  - exact Hm.
  - contradiction.
Qed.

Lemma parseSpec_throw {A} msgs msg p (Q : A -> t -> Prop) :
  In msg msgs -> parseSpec msgs (throw (RuntimeError ("Expected " ++ msg)) p) Q.
Proof. intros H. right. now exists msg. Qed.

(** [advance] refreshes the current token from the lexer, or passes the
    lexer's exception on. *)
Lemma advance_parseSpec msgs p :
  wellFormed (lexer p) ->
  parseSpec msgs (advance p) (fun _ p' => fromLexer p').
Proof.
  intros Hwf. unfold advance.
  pose proof (StateFacts.nextToken_onward (lexer p) Hwf) as H.
  pose proof (LexerFacts.nextToken_lexed (lexer p)) as H'.
  destruct (Lexer.nextToken (lexer p)) as [tok l|e l|];
    cbn [lexSpec post parseSpec] in *.
  - split; [exact (StateFacts.onward_wellFormed _ _ (proj1 H))|].
    exact (proj1 (proj2 H')).
  - left. exact (proj2 H).
  - exact H.
Qed.

Lemma match_parseSpec msgs ty p :
  wellFormed (lexer p) -> fromLexer p ->
  parseSpec msgs (match_ ty p) (fun _ p' => fromLexer p').
Proof.
  intros Hwf Hp. unfold match_. rewrite bind_gets.
  destruct (check ty p); [|now split].
  eapply parseSpec_bind; [now apply advance_parseSpec|].
  intros u p' Hwf' H. now split.
Qed.

Lemma expect_parseSpec msgs ty msg p :
  In msg msgs -> wellFormed (lexer p) -> fromLexer p ->
  parseSpec msgs (expect ty msg p) (fun _ p' => fromLexer p').
Proof.
  intros Hin Hwf Hp. unfold expect.
  eapply parseSpec_bind; [now apply match_parseSpec|].
  intros m p' Hwf' H. destruct m; [now split | now apply parseSpec_throw].
Qed.

(** [expect] on the token it asks for does not throw its message. *)
Lemma expect_hit msgs ty msg p :
  check ty p = true -> wellFormed (lexer p) ->
  parseSpec msgs (expect ty msg p) (fun _ p' => fromLexer p').
Proof.
  intros Hc Hwf. unfold expect, match_, bind, gets. rewrite Hc.
  generalize (advance_parseSpec msgs p Hwf).
  destruct (advance p); cbn [parseSpec]; auto.
Qed.

Section Grammar.

Variable F : Type.
Variable stof : string -> exn + F.

Lemma parseLetDecl_parseSpec f p :
  wellFormed (lexer p) ->
  parseSpec ["variable name"; "`:`"; "type name"]
            (parseLetDecl F stof (S f) p) (fun _ _ => False).
Proof.
  intros Hwf. cbn [parseLetDecl]. rewrite bind_gets.
  destruct (negb (check Identifier p)).
  { apply (parseSpec_throw _ "variable name"). cbn. auto. }
  rewrite bind_gets.
  eapply parseSpec_bind; [now apply advance_parseSpec|]. intros u1 p1 Hwf1 H1.
  eapply parseSpec_bind; [apply expect_parseSpec; [cbn; auto|assumption..]|].
  intros u2 p2 Hwf2 H2.
  rewrite bind_gets. red in H2. rewrite H2.
  apply (parseSpec_throw _ "type name"). cbn. auto.
Qed.

Lemma parseParamsLoop_parseSpec f params p :
  wellFormed (lexer p) ->
  parseSpec functionFaults (parseParamsLoop (S f) params p) (fun _ _ => False).
Proof.
  intros Hwf. cbn [parseParamsLoop]. rewrite bind_gets.
  destruct (negb (check Identifier p)).
  { apply (parseSpec_throw _ "parameter name"). cbn. auto 10. }
  rewrite bind_gets.
  eapply parseSpec_bind; [now apply advance_parseSpec|]. intros u1 p1 Hwf1 H1.
  eapply parseSpec_bind; [apply expect_parseSpec; [cbn; auto 10|assumption..]|].
  intros u2 p2 Hwf2 H2.
  rewrite bind_gets. red in H2. rewrite H2.
  apply (parseSpec_throw _ "parameter type"). cbn. auto 10.
Qed.

Lemma parseFunction_parseSpec f p :
  wellFormed (lexer p) -> fromLexer p ->
  parseSpec functionFaults (parseFunction F stof (S (S f)) p) (fun _ _ => False).
Proof.
  intros Hwf Hp. cbn [parseFunction].
  eapply parseSpec_bind; [apply expect_parseSpec; [cbn; auto 10|assumption..]|].
  intros u1 p1 Hwf1 H1. rewrite bind_gets.
  destruct (negb (check Identifier p1)).
  { apply (parseSpec_throw _ "function name"). cbn. auto 10. }
  rewrite bind_gets.
  eapply parseSpec_bind; [now apply advance_parseSpec|]. intros u2 p2 Hwf2 H2.
  eapply parseSpec_bind; [apply expect_parseSpec; [cbn; auto 10|assumption..]|].
  intros u3 p3 Hwf3 H3. rewrite bind_gets.
  apply parseSpec_bind with (P := fun _ p' => fromLexer p' /\ check RParen p' = true).
  { destruct (check RParen p3) eqn:Hrp; cbn [negb]; [now split|].
    generalize (parseParamsLoop_parseSpec f [] p3 Hwf3).
    destruct (parseParamsLoop (S f) [] p3); cbn [parseSpec]; tauto. }
  intros params p4 Hwf4 [H4 Hrp].
  (* the token is [)]: [expect] cannot miss it *)
  eapply parseSpec_bind; [now apply expect_hit|].
  intros u5 p5 Hwf5 H5.
  eapply parseSpec_bind; [apply expect_parseSpec; [cbn; auto 10|assumption..]|].
  intros u6 p6 Hwf6 H6.
  rewrite bind_gets. red in H6. rewrite H6.
  apply (parseSpec_throw _ "return type"). cbn. auto 10.
Qed.

End Grammar.

End ParseFacts.

(** X16. The first token decides what the driver's parse does with a text
    that does not start with [fn]: on the end-of-input token the parse
    returns the empty program, on any other token it throws "Expected
    `fn`"; in both cases the parser has read that one token and no more. *)
Theorem parseSource_first_token_decides :
  forall (F : Type) (stof : string -> exn + F) (f : nat)
         (text : string) (tok : Token) (l : Lexer.t),
    Lexer.nextToken (Lexer.new text) = Ok tok l ->
    type tok <> Fn ->
    Parser.parseSource F stof (2 + f) text
    = if TokenType_eqb (type tok) Eof
      then Ok (mkProgram []) (Parser.mk l tok)
      else Throw (RuntimeError "Expected `fn`") (Parser.mk l tok).
Proof.
  intros F stof f text tok l Hfirst Hfn.
  unfold Parser.parseSource, Parser.runOn, Parser.new, Parser.advance.
  cbn [Parser.lexer Parser.current]. rewrite Hfirst.
  unfold Parser.parseProgram. change (2 + f) with (S (S f)).
  cbn [Parser.parseProgramLoop]. rewrite bind_gets.
  unfold Parser.check at 1. cbn [Parser.current].
  destruct (TokenType_eqb (type tok) Eof); [reflexivity|].
  cbn [negb]. unfold bind at 1. cbn [Parser.parseFunction].
  unfold bind at 1, Parser.expect, bind at 1, Parser.match_.
  rewrite bind_gets. unfold Parser.check. cbn [Parser.current].
  destruct (TokenType_eqb (type tok) Fn) eqn:E; [|reflexivity].
  apply TokenType_eqb_eq in E. contradiction.
Qed.

Lemma parseSource_first_token_decides_witness :
  Lexer.nextToken (Lexer.new "let x") = Ok (mkToken Let "let" 1 2) (Lexer.mk "let x" 3 1 5)
  /\ type (mkToken Let "let" 1 2) <> Fn
  /\ Parser.parseSource unit (fun _ => inl (InvalidArgument "stof")) 2 "let x"
     = Throw (RuntimeError "Expected `fn`")
             (Parser.mk (Lexer.mk "let x" 3 1 5) (mkToken Let "let" 1 2)).
Proof.
  split; [reflexivity|]. split; [discriminate|].
  exact (parseSource_first_token_decides unit (fun _ => inl (InvalidArgument "stof")) 0
           "let x" (mkToken Let "let" 1 2) (Lexer.mk "let x" 3 1 5)
           eq_refl ltac:(discriminate)).
Defined.

(** X17. No [let] declaration parses: from every parser state over a
    well-formed lexer, [parseLetDecl] throws, and what it throws is an
    exception of the lexer, "Expected variable name", "Expected `:`" or
    "Expected type name", the lexer having no token that [isTypeToken]
    accepts. *)
Theorem parseLetDecl_never_returns :
  forall (F : Type) (stof : string -> exn + F) (f : nat) (p : Parser.t),
    wellFormed (Parser.lexer p) ->
    exists (e : exn) (p' : Parser.t),
      Parser.parseLetDecl F stof (S f) p = Throw e p'
      /\ (lexFault e (Parser.lexer p')
          \/ e = RuntimeError "Expected variable name"
          \/ e = RuntimeError "Expected `:`"
          \/ e = RuntimeError "Expected type name").
Proof.
  intros F stof f p Hwf.
  pose proof (ParseFacts.parseLetDecl_parseSpec F stof f p Hwf) as H.
  destruct (Parser.parseLetDecl F stof (S f) p) as [a p'|e p'|];
    cbn [parseSpec] in H; [destruct H as [_ []] | | contradiction].
  exists e, p'. split; [reflexivity|].
  destruct H as [H|(msg & Hin & ->)]; [now left | right].
  cbn [In] in Hin. destruct Hin as [<-|[<-|[<-|[]]]]; auto.
Qed.

Lemma parseLetDecl_never_returns_witness :
  wellFormed (Lexer.mk "let x: Int = 1;" 5 1 7)
  /\ exists (e : exn) (p' : Parser.t),
      Parser.parseLetDecl unit (fun _ => inl (InvalidArgument "stof")) 1
        (Parser.mk (Lexer.mk "let x: Int = 1;" 5 1 7) (mkToken Identifier "x" 1 5))
      = Throw e p'
      /\ (lexFault e (Parser.lexer p')
          \/ e = RuntimeError "Expected variable name"
          \/ e = RuntimeError "Expected `:`"
          \/ e = RuntimeError "Expected type name").
Proof.
  assert (Hwf : wellFormed (Lexer.mk "let x: Int = 1;" 5 1 7)) by (split; cbn; lia).
  split; [exact Hwf|].
  exact (parseLetDecl_never_returns unit (fun _ => inl (InvalidArgument "stof")) 0
           (Parser.mk (Lexer.mk "let x: Int = 1;" 5 1 7) (mkToken Identifier "x" 1 5))
           Hwf).
Defined.

(** X18. Every exception of the driver's parse of a text is an exception
    of the lexer or one of eight parser errors: "Expected `fn`", "Expected
    function name", "Expected `(`", "Expected parameter name", "Expected
    `:`", "Expected parameter type", "Expected `->`" and "Expected return
    type". The parse never gets to a function body, and never misses a
    closing parenthesis. *)
Theorem parseSource_throws_only_these :
  forall (F : Type) (stof : string -> exn + F) (f : nat)
         (text : string) (e : exn) (p : Parser.t),
    Parser.parseSource F stof (3 + f) text = Throw e p ->
    lexFault e (Parser.lexer p)
    \/ exists msg, In msg functionFaults /\ e = RuntimeError ("Expected " ++ msg).
Proof.
  intros F stof f text e p.
  unfold Parser.parseSource, Parser.runOn, Parser.new.
  assert (Hwf : wellFormed (Lexer.new text)) by (split; cbn; lia).
  pose proof (ParseFacts.advance_parseSpec functionFaults
                (Parser.mk (Lexer.new text) (mkToken Eof "" 0 0)) Hwf) as H.
  destruct (Parser.advance _) as [u p0|e0 p0|]; cbn [parseSpec] in H.
  - destruct H as [Hwf0 H0]. unfold Parser.parseProgram.
    change (3 + f) with (S (S (S f))). cbn [Parser.parseProgramLoop].
    rewrite bind_gets. destruct (Parser.check Eof p0); cbn [negb]; [discriminate|].
    pose proof (ParseFacts.parseFunction_parseSpec F stof f p0 Hwf0 H0) as Hfn.
    unfold bind.
    destruct (Parser.parseFunction F stof (S (S f)) p0) as [a p1|e1 p1|];
      cbn [parseSpec] in Hfn; [destruct Hfn as [_ []] | | contradiction].
    intros [= <- <-]. exact Hfn.
  - intros [= <- <-]. exact H.
  - contradiction.
Qed.

Lemma parseSource_throws_only_these_witness :
  Parser.parseSource unit (fun _ => inl (InvalidArgument "stof")) 3 "fn f() -> Int {}"
  = Throw (RuntimeError "Expected return type")
          (Parser.mk (Lexer.mk "fn f() -> Int {}" 13 1 17) (mkToken Identifier "Int" 1 14))
  /\ (lexFault (RuntimeError "Expected return type") (Lexer.mk "fn f() -> Int {}" 13 1 17)
      \/ exists msg, In msg functionFaults
                     /\ RuntimeError "Expected return type" = RuntimeError ("Expected " ++ msg)).
Proof.
  assert (E : Parser.parseSource unit (fun _ => inl (InvalidArgument "stof")) 3
                "fn f() -> Int {}"
              = Throw (RuntimeError "Expected return type")
                      (Parser.mk (Lexer.mk "fn f() -> Int {}" 13 1 17)
                                 (mkToken Identifier "Int" 1 14)))
    by (vm_compute; reflexivity).
  split; [exact E|].
  exact (parseSource_throws_only_these unit (fun _ => inl (InvalidArgument "stof")) 0
           "fn f() -> Int {}" _ _ E).
Defined.

(** ** What the parser builds *)

Module BuildFacts.
Import Parser.

Lemma builds_bind {A B} (m : M t A) (k : A -> M t B) p (P : A -> Prop) (Q : B -> Prop) :
  builds (m p) P ->
  (forall a p', primed p' -> P a -> builds (k a p') Q) ->
  builds (bind m k p) Q.
Proof.
  unfold bind. destruct (m p) as [a p'|e p'|]; cbn [builds]; intros Hm Hk; auto.
  destruct Hm. now apply Hk.
Qed.

Lemma builds_weaken {A} (o : outcome t A) (P Q : A -> Prop) :
  builds o P -> (forall a, P a -> Q a) -> builds o Q.
Proof. destruct o; cbn [builds]; intuition. Qed.

Lemma advance_builds p :
  wellFormed (lexer p) -> builds (advance p) (fun _ => True).
Proof.
  intros Hwf. unfold advance.
  pose proof (StateFacts.nextToken_onward (lexer p) Hwf) as H.
  destruct (Lexer.nextToken (lexer p)) as [tok l|e l|]; cbn [lexSpec builds] in *; auto.
  split; [|exact I]. split; cbn [lexer current].
  - exact (StateFacts.onward_wellFormed _ _ (proj1 H)).
  - exact (proj1 (proj2 H)).
Qed.

Lemma match_builds ty p : primed p -> builds (match_ ty p) (fun _ => True).
Proof.
  intros Hp. unfold match_. rewrite bind_gets.
  destruct (check ty p); [|now split].
  eapply builds_bind; [apply advance_builds, Hp|].
  intros u p' Hp' _. now split.
Qed.

Lemma expect_builds ty msg p : primed p -> builds (expect ty msg p) (fun _ => True).
Proof.
  intros Hp. unfold expect.
  eapply builds_bind; [now apply match_builds|].
  intros m p' Hp' _. destruct m; [now split | exact I].
Qed.

Lemma orelse_builds ty1 ty2 p :
  primed p -> builds (orelse (match_ ty1) (match_ ty2) p) (fun _ => True).
Proof.
  intros Hp. unfold orelse.
  eapply builds_bind; [now apply match_builds|].
  intros m p' Hp' _. destruct m; [now split | now apply match_builds].
Qed.

(** The lexer builds no token of kind [Char], [Bool] or [Void]. *)
Lemma primed_kind p :
  primed p ->
  check Char p = false /\ check Bool p = false /\ check VoidType p = false.
Proof.
  intros [_ Htok]. unfold check, tokenOk in *.
  destruct (type (current p)); try contradiction; repeat split.
Qed.

Lemma forallb_snoc {A} (f : A -> bool) xs x :
  forallb f xs = true -> f x = true -> forallb f (xs ++ [x])%list = true.
Proof. intros Hxs Hx. rewrite forallb_app, Hxs. cbn. now rewrite Hx. Qed.

Section Grammar.

Variable F : Type.
Variable stof : string -> exn + F.

Lemma parseLetDecl_builds f p :
  primed p -> builds (parseLetDecl F stof f p) (fun _ => False).
Proof.
  intros [Hwf _]. destruct f as [|f]; [exact I|].
  pose proof (ParseFacts.parseLetDecl_parseSpec F stof f p Hwf) as H.
  destruct (parseLetDecl F stof (S f) p); cbn [parseSpec builds] in *; auto.
  destruct H as [_ []].
Qed.

Local Abbreviation node := (fun n : ASTNode F => builtNode n = true).
Local Abbreviation nodes := (fun ns : list (ASTNode F) => forallb builtNode ns = true).

Ltac enter := eapply builds_bind; [solve [eauto] | cbv beta].

Lemma parse_builds f :
  (forall p, primed p -> builds (parseBlock F stof f p) nodes)
  /\ (forall ss p, primed p -> nodes ss -> builds (parseBlockLoop F stof f ss p) nodes)
  /\ (forall p, primed p -> builds (parseStatement F stof f p) node)
  /\ (forall p, primed p -> builds (parseIfStmt F stof f p) node)
  /\ (forall p, primed p -> builds (parseReturnStmt F stof f p) node)
  /\ (forall p, primed p -> builds (parseExpression F stof f p) node)
  /\ (forall p, primed p -> builds (parseEquality F stof f p) node)
  /\ (forall e p, primed p -> node e -> builds (parseEqualityLoop F stof f e p) node)
  /\ (forall p, primed p -> builds (parseComparison F stof f p) node)
  /\ (forall e p, primed p -> node e -> builds (parseComparisonLoop F stof f e p) node)
  /\ (forall p, primed p -> builds (parseTerm F stof f p) node)
  /\ (forall e p, primed p -> node e -> builds (parseTermLoop F stof f e p) node)
  /\ (forall p, primed p -> builds (parseFactor F stof f p) node)
  /\ (forall e p, primed p -> node e -> builds (parseFactorLoop F stof f e p) node)
  /\ (forall p, primed p -> builds (parsePrimary F stof f p) node)
  /\ (forall p, primed p -> builds (parseCallOrVar F stof f p) node)
  /\ (forall args p, primed p -> nodes args -> builds (parseArgsLoop F stof f args p) nodes).
Proof.
  induction f as [|f IH].
  { repeat match goal with |- _ /\ _ => split end; intros; exact I. }
  destruct IH as (IHblock & IHblockLoop & IHstmt & IHif & IHret & IHexpr & IHeq
                  & IHeqLoop & IHcmp & IHcmpLoop & IHterm & IHtermLoop & IHfactor
                  & IHfactorLoop & IHprimary & IHcall & IHargs).
  pose proof match_builds as Hmatch.
  pose proof expect_builds as Hexpect.
  pose proof orelse_builds as Horelse.
  pose proof (parseLetDecl_builds f) as Hlet.
  assert (Hadv : forall p, primed p -> builds (advance p) (fun _ => True))
    by (intros p Hp; apply advance_builds, Hp).
  repeat match goal with |- _ /\ _ => split end.
  - (* parseBlock *)
    intros p Hp. cbn [parseBlock].
    enter. intros u1 p1 H1 _.
    enter. intros ss p2 H2 Hss.
    enter. intros u3 p3 H3 _. now split.
  - (* parseBlockLoop *)
    intros ss p Hp Hss. cbn [parseBlockLoop]. rewrite !bind_gets.
    destruct (negb _ && negb _)%bool; [|now split].
    enter. intros s p1 H1 Hs.
    apply IHblockLoop; [exact H1 | now apply forallb_snoc].
  - (* parseStatement *)
    intros p Hp. cbn [parseStatement].
    eapply builds_bind with (P := node).
    + enter. intros isLet p1 H1 _. destruct isLet.
      { eapply builds_weaken; [now apply Hlet|]. intros a []. }
      enter. intros isIf p2 H2 _. destruct isIf; [now apply IHif|].
      enter. intros isReturn p3 H3 _. destruct isReturn; [now apply IHret|].
      now apply IHexpr.
    + intros stmt p1 H1 Hstmt. rewrite bind_gets.
      eapply builds_bind with (P := fun _ => True).
      * destruct (negb (check RBrace p1)); [now apply Hexpect | now split].
      * intros u p2 H2 _. now split.
  - (* parseIfStmt *)
    intros p Hp. cbn [parseIfStmt].
    enter. intros cond p1 H1 Hcond.
    enter. intros thenBranch p2 H2 Hthen.
    enter. intros isElse p3 H3 _.
    eapply builds_bind with (P := nodes).
    + destruct isElse; [now apply IHblock | now split].
    + intros elseBranch p4 H4 Helse. split; [exact H4|].
      cbn [builtNode]. now rewrite Hcond, Hthen, Helse.
  - (* parseReturnStmt *)
    intros p Hp. cbn [parseReturnStmt].
    enter. intros value p1 H1 Hvalue. now split.
  - (* parseExpression *)
    intros p Hp. cbn [parseExpression]. now apply IHeq.
  - (* parseEquality *)
    intros p Hp. cbn [parseEquality].
    enter. intros e p1 H1 He. now apply IHeqLoop.
  - (* parseEqualityLoop *)
    intros e p Hp He. cbn [parseEqualityLoop].
    enter. intros m p1 H1 _. destruct m; [|now split].
    enter. intros right p2 H2 Hright.
    apply IHeqLoop; [exact H2|]. cbn [builtNode]. now rewrite He, Hright.
  - (* parseComparison *)
    intros p Hp. cbn [parseComparison].
    enter. intros e p1 H1 He. now apply IHcmpLoop.
  - (* parseComparisonLoop *)
    intros e p Hp He. cbn [parseComparisonLoop].
    enter. intros m p1 H1 _. destruct m; [|now split].
    enter. intros right p2 H2 Hright.
    apply IHcmpLoop; [exact H2|]. cbn [builtNode]. now rewrite He, Hright.
  - (* parseTerm *)
    intros p Hp. cbn [parseTerm].
    enter. intros e p1 H1 He. now apply IHtermLoop.
  - (* parseTermLoop *)
    intros e p Hp He. cbn [parseTermLoop].
    enter. intros m p1 H1 _. destruct m; [|now split].
    rewrite bind_gets.
    enter. intros right p2 H2 Hright.
    apply IHtermLoop; [exact H2|]. cbn [builtNode]. now rewrite He, Hright.
  - (* parseFactor *)
    intros p Hp. cbn [parseFactor].
    enter. intros e p1 H1 He. now apply IHfactorLoop.
  - (* parseFactorLoop *)
    intros e p Hp He. cbn [parseFactorLoop].
    enter. intros m p1 H1 _. destruct m; [|now split].
    rewrite bind_gets.
    enter. intros right p2 H2 Hright.
    apply IHfactorLoop; [exact H2|]. cbn [builtNode]. now rewrite He, Hright.
  - (* parsePrimary *)
    intros p Hp. cbn [parsePrimary]. rewrite !bind_gets.
    destruct (primed_kind p Hp) as (Hchar & Hbool & Hvoid).
    destruct (check Integer p).
    { enter. intros u p1 H1 _.
      unfold lift. destruct (stoll _); [exact I | now split]. }
    rewrite bind_gets. destruct (check Float p).
    { enter. intros u p1 H1 _.
      unfold lift. destruct (stof _); [exact I | now split]. }
    rewrite bind_gets. destruct (check String_ p).
    { enter. intros u p1 H1 _. now split. }
    rewrite bind_gets, Hchar, bind_gets, Hbool, bind_gets.
    destruct (check Identifier p); [now apply IHcall|].
    enter. intros isLParen p1 H1 _. destruct isLParen.
    { enter. intros e p2 H2 He.
      enter. intros u p3 H3 _. now split. }
    rewrite bind_gets.
    destruct (primed_kind p1 H1) as (_ & _ & Hvoid1). rewrite Hvoid1. exact I.
  - (* parseCallOrVar *)
    intros p Hp. cbn [parseCallOrVar]. rewrite bind_gets.
    enter. intros u p1 H1 _.
    enter. intros isLParen p2 H2 _. destruct isLParen; [|now split].
    rewrite bind_gets.
    eapply builds_bind with (P := nodes).
    + destruct (negb (check RParen p2)); [now apply IHargs | now split].
    + intros args p3 H3 Hargs.
      enter. intros u' p4 H4 _. now split.
  - (* parseArgsLoop *)
    intros args p Hp Hargs. cbn [parseArgsLoop].
    enter. intros arg p1 H1 Harg.
    enter. intros m p2 H2 _.
    destruct m; [apply IHargs; [exact H2|] | split; [exact H2|]];
      now apply forallb_snoc.
Qed.

End Grammar.

End BuildFacts.

(** ** Termination of the statement parser *)

Module RunFacts.
Import Parser.

Lemma runs_bind {A B} m1 m2 (mm : M t A) (k : A -> M t B) p
      (P : A -> t -> Prop) (Q : B -> t -> Prop) :
  runs m1 (mm p) P ->
  (forall a p', primed p' -> pending p' < m1 -> P a p' -> runs m2 (k a p') Q) ->
  runs m2 (bind mm k p) Q.
Proof.
  unfold bind. destruct (mm p) as [a p'|e p'|]; cbn [runs]; intros Hm Hk; auto.
  destruct Hm as (H1 & H2 & H3). now apply Hk.
Qed.








Section Grammar.

Variable F : Type.
Variable stof : string -> exn + F.


Local Abbreviation any := (fun (_ : ASTNode F) (_ : t) => True).
Local Abbreviation anys := (fun (_ : list (ASTNode F)) (_ : t) => True).

Ltac call_with H :=
  eapply runs_bind;
  [ apply H; try assumption; try lia; try discriminate
  | cbv beta; intros ? ? ? ? ? ].


End Grammar.

End RunFacts.

(** X19. Whatever [parseStatement] returns, from a parser over a
    well-formed lexer whose current token is one the lexer builds, is a
    tree of [IntExpr], [DoubleExpr], [StringExpr], [VarExpr], [BinaryExpr],
    [CallExpr], [ReturnStmt] and [IfStmt] nodes: the branches that build
    [CharExpr], [BoolExpr], [VoidExpr] and [LetDecl] nodes are never
    completed. *)
Theorem parseStatement_builds_no_let_char_bool_void :
  forall (F : Type) (stof : string -> exn + F) (fuel : nat)
         (p p' : Parser.t) (stmt : ASTNode F),
    wellFormed (Parser.lexer p) ->
    tokenOk (Parser.current p) ->
    Parser.parseStatement F stof fuel p = Ok stmt p' ->
    builtNode stmt = true.
Proof.
  intros F stof fuel p p' stmt Hwf Htok Hret.
  pose proof (proj1 (proj2 (proj2 (BuildFacts.parse_builds F stof fuel)))
                p (conj Hwf Htok)) as H.
  rewrite Hret in H. exact (proj2 H).
Qed.

Lemma parseStatement_builds_no_let_char_bool_void_witness :
  wellFormed (Lexer.mk "return f(1) + x;" 6 1 8)
  /\ tokenOk (mkToken Return "return" 1 2)
  /\ Parser.parseStatement unit (fun _ => inl (InvalidArgument "stof")) 40
       (Parser.mk (Lexer.mk "return f(1) + x;" 6 1 8) (mkToken Return "return" 1 2))
     = Ok (ReturnStmt (BinaryExpr "x" (CallExpr "f" [IntExpr 1]) (VarExpr "x")))
          (Parser.mk (Lexer.mk "return f(1) + x;" 16 1 21) (mkToken Eof "" 1 21))
  /\ builtNode (F := unit)
       (ReturnStmt (BinaryExpr "x" (CallExpr "f" [IntExpr 1]) (VarExpr "x"))) = true.
Proof.
  assert (Hwf : wellFormed (Lexer.mk "return f(1) + x;" 6 1 8)) by (split; cbn; lia).
  assert (Htok : tokenOk (mkToken Return "return" 1 2)) by reflexivity.
  assert (E : Parser.parseStatement unit (fun _ => inl (InvalidArgument "stof")) 40
                (Parser.mk (Lexer.mk "return f(1) + x;" 6 1 8) (mkToken Return "return" 1 2))
              = Ok (ReturnStmt (BinaryExpr "x" (CallExpr "f" [IntExpr 1]) (VarExpr "x")))
                   (Parser.mk (Lexer.mk "return f(1) + x;" 16 1 21) (mkToken Eof "" 1 21)))
    by (vm_compute; reflexivity).
  split; [exact Hwf|]. split; [exact Htok|]. split; [exact E|].
  exact (parseStatement_builds_no_let_char_bool_void unit _ 40
           (Parser.mk (Lexer.mk "return f(1) + x;" 6 1 8) (mkToken Return "return" 1 2))
           _ _ Hwf Htok E).
Defined.


